(** * Voice relay: WAV encoder, utterance segmenter, synthesis queue, session

    A shallow embedding of the voice-conversation relay:

    - [Js]        : the fragment of JavaScript values the program manipulates
                    (numbers, UTF-16 strings, thrown values);
    - [Wav]       : [encodeWavPCM16] and [writeString] of [app/lib/wav.ts],
                    over a [DataView] modelled as a byte list;
    - [Segmenter] : the [chunking] callback handed to [smoothStream], the
                    buffering loop that drives it, and the trimming done by
                    the consumer of the stream;
    - [Worker]    : the durable object [VoiceAIDurableObject]: [textToSpeech],
                    [transcribeAudio], [generateAndSpeakResponse],
                    [handleAudioInput] and the message listener of
                    [handleSession], with the concurrency-1 [PQueue].  The
                    async listener is a state machine driven by the events of
                    its environment (a reply of a model, a chunk of the
                    completion stream), in any order in which they can occur;
    - [Turn]      : what a schedule of such events must lead to;
    - [Demo]      : a concrete session;
    - [Sentences] : where a sentence can end in a buffer;
    - [Channel]   : the events of a turn that are not audio events;
    - [Client]    : the page [VoiceChat]: the handler of the worker's
                    messages and the queue of clips played one after another.

    Definitions come first, the facts about them afterwards. *)

From Stdlib Require Import ZArith QArith List Lia String Ascii Bool.
From stdpp Require Import base option list.
Import ListNotations.

Open Scope Z_scope.

(* ===================================================================== *)
(** * Part I: definitions                                                 *)
(* ===================================================================== *)

Module Js.

(** ** Numbers

    A JavaScript number is NaN, an infinity, or a finite value.  Finite
    values are kept as exact rationals.  Every finite double (and every
    [Float32Array] element) is a dyadic rational; the products formed by the
    encoder (a clamped 24-bit significand times [0x8000] or [0x7fff]) are
    exactly representable, so exact arithmetic is what the code computes; a
    rate times 2 is exact too unless it overflows, and then the 32-bit field
    that receives it holds 0 either way.
    The sign of zero is not tracked: no operation used here observes it. *)
Inductive number : Type :=
| NaN
| PosInf
| NegInf
| Fin (q : Q).

Definition of_Z (z : Z) : number := Fin (inject_Z z).

Definition is_nan (x : number) : bool :=
  match x with NaN => true | _ => false end.

(** [a < b] as the relational operator evaluates it: false when an operand
    is NaN. *)
Definition num_lt (a b : number) : bool :=
  match a, b with
  | NaN, _ | _, NaN => false
  | PosInf, _ => false
  | _, NegInf => false
  | NegInf, _ => true
  | _, PosInf => true
  | Fin p, Fin q => negb (Qle_bool q p)
  end.

(** [Math.min(a, b)] and [Math.max(a, b)]: NaN if either argument is NaN. *)
Definition math_min (a b : number) : number :=
  if is_nan a || is_nan b then NaN
  else if num_lt b a then b else a.

Definition math_max (a b : number) : number :=
  if is_nan a || is_nan b then NaN
  else if num_lt a b then b else a.

Definition q_sign (q : Q) : Z := Z.sgn (Qnum q).

(** [a * b]. *)
Definition num_mul (a b : number) : number :=
  match a, b with
  | NaN, _ | _, NaN => NaN
  | Fin p, Fin q => Fin (p * q)
  | Fin p, PosInf | PosInf, Fin p =>
      match q_sign p with 0 => NaN | Zpos _ => PosInf | Zneg _ => NegInf end
  | Fin p, NegInf | NegInf, Fin p =>
      match q_sign p with 0 => NaN | Zpos _ => NegInf | Zneg _ => PosInf end
  | PosInf, PosInf | NegInf, NegInf => PosInf
  | PosInf, NegInf | NegInf, PosInf => NegInf
  end.

(** The integer part used by the integer conversions: truncation toward
    zero, with NaN and the infinities sent to 0. *)
Definition to_integer (x : number) : Z :=
  match x with
  | Fin q => Z.quot (Qnum q) (Zpos (Qden q))
  | _ => 0
  end.

(** ToUint8, ToUint16, ToUint32: wrap modulo 2^w. *)
Definition to_uint (w : Z) (x : number) : Z := (to_integer x) mod (2 ^ w).

(** ToInt16: wrap modulo 2^16 into [-2^15, 2^15). *)
Definition to_int16 (x : number) : Z :=
  let u := to_uint 16 x in
  if 32768 <=? u then u - 65536 else u.

(** ** Strings

    A string is a sequence of UTF-16 code units. *)
Abbreviation jstring := (list N) (only parsing).

Definition charCodes (s : string) : jstring :=
  map N_of_ascii (list_ascii_of_string s).

(** WhiteSpace and LineTerminator code points: what [\s] matches and what
    [trim] strips. *)
Definition is_line_terminator (c : N) : bool :=
  ((c =? 10) || (c =? 13) || (c =? 8232) || (c =? 8233))%N.

Definition is_space (c : N) : bool :=
  ((c =? 9) || (c =? 11) || (c =? 12) || (c =? 32) || (c =? 160)
   || (c =? 5760) || ((8192 <=? c) && (c <=? 8202)) || (c =? 8239)
   || (c =? 8287) || (c =? 12288) || (c =? 65279)
   || is_line_terminator c)%N.

Fixpoint dropWhile {A : Type} (p : A -> bool) (l : list A) : list A :=
  match l with
  | [] => []
  | x :: r => if p x then dropWhile p r else l
  end.

Fixpoint takeWhile {A : Type} (p : A -> bool) (l : list A) : list A :=
  match l with
  | [] => []
  | x :: r => if p x then x :: takeWhile p r else []
  end.

(** [s.trim()]. *)
Definition trim (s : jstring) : jstring :=
  rev (dropWhile is_space (rev (dropWhile is_space s))).

(** Truthiness of a string: non-empty. *)
Definition truthy (s : jstring) : bool :=
  match s with [] => false | _ => true end.

(** ** Thrown values

    What a [catch] clause may receive: an [Error] carrying a message, or
    some other value. *)
Inductive thrown : Type :=
| ErrorObj (message : jstring)
| OtherValue.

End Js.

Module Wav.
Import Js.

(** The bytes behind a [DataView]. *)
Abbreviation bytes := (list Z) (only parsing).

(** Every [DataView] accessor raises a RangeError (here [None]) when the
    access does not fit in the buffer. *)
Definition in_range (off size : nat) (view : bytes) : bool :=
  (off + size <=? length view)%nat.

Definition byte_of (v : Z) (k : Z) : Z := (v / 256 ^ k) mod 256.

Definition setUint8 (off : nat) (value : number) (view : bytes) : option bytes :=
  if in_range off 1 view
  then Some (<[off := to_uint 8 value]> view)
  else None.

Definition put16 (off : nat) (v : Z) (littleEndian : bool) (view : bytes) : bytes :=
  if littleEndian
  then <[S off := byte_of v 1]> (<[off := byte_of v 0]> view)
  else <[S off := byte_of v 0]> (<[off := byte_of v 1]> view).

Definition setUint16 (off : nat) (value : number) (littleEndian : bool)
    (view : bytes) : option bytes :=
  if in_range off 2 view
  then Some (put16 off (to_uint 16 value) littleEndian view)
  else None.

(** [setInt16] stores the two's-complement pattern of ToInt16(value), which
    is the pattern of ToUint16(value). *)
Definition setInt16 (off : nat) (value : number) (littleEndian : bool)
    (view : bytes) : option bytes :=
  if in_range off 2 view
  then Some (put16 off (to_int16 value mod 65536) littleEndian view)
  else None.

Definition setUint32 (off : nat) (value : number) (littleEndian : bool)
    (view : bytes) : option bytes :=
  if in_range off 4 view
  then
    let v := to_uint 32 value in
    Some (if littleEndian
          then <[S (S (S off)) := byte_of v 3]> (<[S (S off) := byte_of v 2]>
                 (<[S off := byte_of v 1]> (<[off := byte_of v 0]> view)))
          else <[S (S (S off)) := byte_of v 0]> (<[S (S off) := byte_of v 1]>
                 (<[S off := byte_of v 2]> (<[off := byte_of v 3]> view))))
  else None.

(** The matching readers, used to decode a header. *)
Definition getUint16 (off : nat) (littleEndian : bool) (view : bytes) : option Z :=
  b0 ← view !! off;
  b1 ← view !! S off;
  Some (if littleEndian then b0 + 256 * b1 else b1 + 256 * b0).

Definition getInt16 (off : nat) (littleEndian : bool) (view : bytes) : option Z :=
  u ← getUint16 off littleEndian view;
  Some (if 32768 <=? u then u - 65536 else u).

Definition getUint32 (off : nat) (littleEndian : bool) (view : bytes) : option Z :=
  b0 ← view !! off;
  b1 ← view !! S off;
  b2 ← view !! S (S off);
  b3 ← view !! S (S (S off));
  Some (if littleEndian
        then b0 + 256 * (b1 + 256 * (b2 + 256 * b3))
        else b3 + 256 * (b2 + 256 * (b1 + 256 * b0))).

(** [writeString(view, offset, str)]: one [setUint8] per code unit. *)
Fixpoint writeString_from (i : nat) (offset : nat) (str : jstring)
    (view : bytes) : option bytes :=
  match str with
  | [] => Some view
  | c :: rest =>
      view' ← setUint8 (offset + i) (of_Z (Z.of_N c)) view;
      writeString_from (S i) offset rest view'
  end.

Definition writeString (view : bytes) (offset : nat) (str : string) : option bytes :=
  writeString_from 0 offset (charCodes str) view.

(** The body of the sample loop: clamp, scale, store. *)
Definition clamp (x : number) : number :=
  math_max (of_Z (-1)) (math_min (of_Z 1) x).

Definition pcmSample (x : number) : number :=
  let sample := clamp x in
  if num_lt sample (of_Z 0)
  then num_mul sample (of_Z 32768)   (* 0x8000 *)
  else num_mul sample (of_Z 32767).  (* 0x7fff *)

Fixpoint write_samples (samples : list number) (offset : nat) (view : bytes)
    : option bytes :=
  match samples with
  | [] => Some view
  | s :: rest =>
      view' ← setInt16 offset (pcmSample s) true view;
      write_samples rest (offset + 2) view'
  end.

Definition encodeWavPCM16 (samples : list number) (sampleRate : number)
    : option bytes :=
  let numChannels := 1 in
  let bitsPerSample := 16 in
  let bytesPerSample := bitsPerSample / 8 in
  let blockAlign := numChannels * bytesPerSample in
  let byteRate := num_mul sampleRate (of_Z blockAlign) in
  let dataSize := Z.of_nat (length samples) * bytesPerSample in
  let bufferSize := 44 + dataSize in
  let view : bytes := replicate (Z.to_nat bufferSize) 0 in
  let offset := 0%nat in
  view ← writeString view offset "RIFF";
  let offset := (offset + 4)%nat in
  view ← setUint32 offset (of_Z (bufferSize - 8)) true view;
  let offset := (offset + 4)%nat in
  view ← writeString view offset "WAVE";
  let offset := (offset + 4)%nat in
  view ← writeString view offset "fmt ";
  let offset := (offset + 4)%nat in
  view ← setUint32 offset (of_Z 16) true view;
  let offset := (offset + 4)%nat in
  view ← setUint16 offset (of_Z 1) true view;
  let offset := (offset + 2)%nat in
  view ← setUint16 offset (of_Z numChannels) true view;
  let offset := (offset + 2)%nat in
  view ← setUint32 offset sampleRate true view;
  let offset := (offset + 4)%nat in
  view ← setUint32 offset byteRate true view;
  let offset := (offset + 4)%nat in
  view ← setUint16 offset (of_Z blockAlign) true view;
  let offset := (offset + 2)%nat in
  view ← setUint16 offset (of_Z bitsPerSample) true view;
  let offset := (offset + 2)%nat in
  view ← writeString view offset "data";
  let offset := (offset + 4)%nat in
  view ← setUint32 offset (of_Z dataSize) true view;
  let offset := (offset + 4)%nat in
  write_samples samples offset view.

(** The layout the encoder is expected to produce: a 44-byte header, then
    two bytes per sample. *)
Definition le16 (v : Z) : bytes := [byte_of v 0; byte_of v 1].

Definition le32 (v : Z) : bytes :=
  [byte_of v 0; byte_of v 1; byte_of v 2; byte_of v 3].

Definition wav_header (n : nat) (sampleRate : number) : bytes :=
  map Z.of_N (charCodes "RIFF")
  ++ le32 (to_uint 32 (of_Z (44 + Z.of_nat n * 2 - 8)))
  ++ map Z.of_N (charCodes "WAVEfmt ")
  ++ le32 16 ++ le16 1 ++ le16 1
  ++ le32 (to_uint 32 sampleRate)
  ++ le32 (to_uint 32 (num_mul sampleRate (of_Z 2)))
  ++ le16 2 ++ le16 16
  ++ map Z.of_N (charCodes "data")
  ++ le32 (to_uint 32 (of_Z (Z.of_nat n * 2))).

Definition pcm_bytes (samples : list number) : bytes :=
  flat_map (fun s => le16 (to_int16 (pcmSample s) mod 65536)) samples.

Definition within_int16 (z : Z) : Prop := -32768 <= z <= 32767.

Definition in_unit_interval (x : number) : Prop :=
  match x with
  | Fin q => (-1 <= q /\ q <= 1)%Q
  | _ => False
  end.

End Wav.

Module Segmenter.
Import Js.

(** ** The [chunking] callback

    [buf.match(/^(.+?[.!?])(?:\s+|$)/)], returning the whole match [m[0]].
    The pattern is anchored at the start and has no flags, so [.] is any
    code unit but a line terminator and [$] is the end of the input.  The
    lazy [.+?] takes at least one code unit and stops at the first [.], [!]
    or [?] that is followed by white space or by the end of the buffer; the
    greedy [\s+] then takes the whole run of white space. *)
Definition is_terminator (c : N) : bool :=
  ((c =? 46) || (c =? 33) || (c =? 63))%N.

(** [(?:\s+|$)] succeeds on the text that follows the terminator. *)
Definition boundary (rest : jstring) : bool :=
  match rest with
  | [] => true
  | d :: _ => is_space d
  end.

(** The scan after [.+?] has taken its first code unit. *)
Fixpoint lazy_scan (rest : jstring) : option jstring :=
  match rest with
  | [] => None
  | c :: r =>
      if is_terminator c && boundary r then Some (c :: takeWhile is_space r)
      else if is_line_terminator c then None
      else option_map (cons c) (lazy_scan r)
  end.

Definition sentence_match (buf : jstring) : option jstring :=
  match buf with
  | [] => None
  | c :: r =>
      if is_line_terminator c then None
      else option_map (cons c) (lazy_scan r)
  end.

(** What the pattern means, position by position.  The first group can end
    at index [i] of [text], when [text] is what follows the code unit that
    [.+?] must take at least: no line terminator before [i], a terminator
    at [i], and white space or the end of the text after it. *)
Definition scan_cut (text : jstring) (i : nat) : Prop :=
  Forall (fun c => is_line_terminator c = false) (take i text)
  /\ exists t,
       text !! i = Some t /\ is_terminator t = true
       /\ boundary (drop (S i) text) = true.

Definition cut_at (buf : jstring) (i : nat) : Prop :=
  match buf, i with
  | c :: text, S i' => is_line_terminator c = false /\ scan_cut text i'
  | _, _ => False
  end.

Definition chunking (buf : jstring) : option jstring :=
  match sentence_match buf with
  | Some m0 => Some m0
  | None => if (120 <? length buf)%nat then Some buf else None
  end.

(** ** The buffering loop around [chunking] *)

(** Modelled from the spec: the loop of [smoothStream] that drives the
    [chunking] callback (it belongs to the streaming library, not to this
    repository).  On each fragment: append it to the buffer, then cut chunks
    off the front for as long as [chunking] finds one.  [drain] is that inner
    loop; every cut removes at least one code unit, so [length buffer]
    iterations are enough (see [drain_exits] and [drain_fuel_irrelevant]). *)
Fixpoint drain (fuel : nat) (buffer : jstring) : list jstring * jstring :=
  match fuel with
  | O => ([], buffer)
  | S fuel' =>
      match chunking buffer with
      | None => ([], buffer)
      | Some m =>
          let (chunks, buffer') := drain fuel' (drop (length m) buffer) in
          (m :: chunks, buffer')
      end
  end.

Definition transform (buffer textDelta : jstring) : list jstring * jstring :=
  let buffer := buffer ++ textDelta in
  drain (length buffer) buffer.

(** Modelled from the spec: on stream completion the remaining non-empty
    buffer is emitted as a final chunk. *)
Definition flush (buffer : jstring) : list jstring :=
  match buffer with
  | [] => []
  | _ => [buffer]
  end.

Fixpoint smoothStream_from (buffer : jstring) (fragments : list jstring)
    : list jstring :=
  match fragments with
  | [] => flush buffer
  | f :: rest =>
      let (chunks, buffer') := transform buffer f in
      chunks ++ smoothStream_from buffer' rest
  end.

(** The chunks that [result.textStream] yields for a sequence of fragments. *)
Definition smoothStream (fragments : list jstring) : list jstring :=
  smoothStream_from [] fragments.

(** The buffer left after a sequence of fragments. *)
Fixpoint buffer_after (buffer : jstring) (fragments : list jstring) : jstring :=
  match fragments with
  | [] => buffer
  | f :: rest => buffer_after (snd (transform buffer f)) rest
  end.

(** ** The consumer side: lines 166-169 of the [for await] loop *)

(** [String(chunk).trim()], skipped when empty. *)
Definition sentence_of (chunk : jstring) : option jstring :=
  let sentence := trim chunk in
  if truthy sentence then Some sentence else None.

(** The utterances of a chunk sequence, in order. *)
Definition utterances (chunks : list jstring) : list jstring :=
  omap sentence_of chunks.

(** [fullResponse += (fullResponse ? " " : "") + sentence]. *)
Definition append_sentence (fullResponse sentence : jstring) : jstring :=
  fullResponse ++ (if truthy fullResponse then [32%N] else []) ++ sentence.

(** Joining with single spaces. *)
Fixpoint join_spaces (l : list jstring) : jstring :=
  match l with
  | [] => []
  | [s] => s
  | s :: rest => s ++ [32%N] ++ join_spaces rest
  end.

(** A text with its white space deleted. *)
Definition squeeze (s : jstring) : jstring :=
  List.filter (fun c => negb (is_space c)) s.

End Segmenter.

Module Worker.
Import Js Segmenter.

(** ** Data *)

Inductive role : Type := User | Assistant | System.

(** A [CoreMessage] of the conversation history. *)
Record message : Type := { msg_role : role; content : jstring }.

(** The JSON objects sent to the client with [ws.send]. *)
Inductive out_event : Type :=
| OStatus (text : jstring)
| OText (text : jstring)
| OAudio (text audio : jstring)
| OError (text : jstring).

Definition ellipsis : N := 8230.
Definition status_processing : jstring := charCodes "Processing" ++ [ellipsis].
Definition status_speaking : jstring := charCodes "Speaking" ++ [ellipsis].
Definition status_idle : jstring := charCodes "Idle".
Definition status_cleared : jstring := charCodes "Chat cleared".

(** Parsed JSON, as [JSON.parse] returns it. *)
#[warnings="-register-all"]
Inductive json : Type :=
| JNull
| JBool (b : bool)
| JNumber (n : Q)
| JString (s : jstring)
| JArray (items : list json)
| JObject (fields : list (jstring * json)).

(** An incoming WebSocket message: binary audio, or a text frame given by
    what [JSON.parse] does on it. *)
Inductive parse_result : Type :=
| ParseThrows (e : thrown)
| Parsed (msg : json).

Inductive inbound : Type :=
| Binary (audioData : list Z)
| TextFrame (parsed : parse_result).

(** What the remote models answer. *)
Inductive stt_reply : Type :=
| SttThrows (e : thrown)
| SttResult (text : option jstring).   (* [result.text], possibly undefined *)

Inductive tts_reply : Type :=
| TtsThrows (e : thrown)
| TtsString (s : jstring)
| TtsObject (audio : jstring)
| TtsBinary (data : list Z).

(** What happens, and in which order: the messages sent on the socket and
    the synthesis calls made and answered.  The index of a call is the
    position of its utterance in submission order, starting at 1. *)
Inductive event : Type :=
| Sent (o : out_event)
| TtsCall (index : nat) (text : jstring)
| TtsReturn (index : nat) (result : option jstring).

(** ** The serial queue *)

Record job : Type := { job_index : nat; job_sentence : jstring }.

(** Modelled from the spec: the serialized queue of the Synthesis Dispatcher
    ([PQueue] with [concurrency: 1], a library): at most one task runs, the
    others wait in submission order, and a waiting task is started when the
    running one has settled. *)
Record pqueue : Type := { running : option job; waiting : list job }.

Definition pq_new : pqueue := {| running := None; waiting := [] |}.

Definition pq_tryToStartAnother (q : pqueue) : pqueue :=
  match running q, waiting q with
  | None, j :: rest => {| running := Some j; waiting := rest |}
  | _, _ => q
  end.

Definition pq_add (j : job) (q : pqueue) : pqueue :=
  pq_tryToStartAnother {| running := running q; waiting := waiting q ++ [j] |}.

(** The running task has settled. *)
Definition pq_next (q : pqueue) : pqueue :=
  pq_tryToStartAnother {| running := None; waiting := waiting q |}.

Definition pq_idle (q : pqueue) : bool :=
  match running q, waiting q with
  | None, [] => true
  | _, _ => false
  end.

(** A task that starts running calls [textToSpeech] at once. *)
Definition started (before after : pqueue) : list event :=
  match running before, running after with
  | None, Some j => [TtsCall (job_index j) (job_sentence j)]
  | _, _ => []
  end.

Section WithBase64.

(** [btoa(String.fromCharCode(...new Uint8Array(tts)))]: the base64 text of
    the bytes, or an exception (the spread has an engine-defined limit). *)
Variable btoa_bytes : list Z -> option jstring.

(** ** [textToSpeech] and [transcribeAudio] *)

Definition textToSpeech (reply : tts_reply) : option jstring :=
  match reply with
  | TtsThrows _ => None
  | TtsString s => Some s
  | TtsObject audio => Some audio
  | TtsBinary data => btoa_bytes data
  end.

(** [result.text || null], and [null] when the call throws. *)
Definition transcribeAudio (reply : stt_reply) : option jstring :=
  match reply with
  | SttThrows _ => None
  | SttResult None => None
  | SttResult (Some t) => if truthy t then Some t else None
  end.

(** ** One activation of the message listener

    The listener is an async function: it runs until it has to wait for the
    transcription, for the next chunk of the completion stream, or for the
    queue to become idle.  [control] is the place where it waits; [Idle]
    means that it has finished and the session waits for the next message.
    The queue outlives the listener when the completion stream throws. *)
Inductive control : Type :=
| Idle
| AwaitTranscription
| AwaitChunk
| AwaitQueueIdle.

Record activation : Type := {
  msgHistory : list message;   (* [this.msgHistory] *)
  trace : list event;          (* what has happened so far *)
  ctl : control;
  fullResponse : jstring;
  ttsQueue : pqueue;
  submitted : nat;             (* tasks added so far; numbers the calls *)
}.

Definition emit (es : list event) (a : activation) : activation :=
  {| msgHistory := msgHistory a; trace := trace a ++ es; ctl := ctl a;
     fullResponse := fullResponse a; ttsQueue := ttsQueue a;
     submitted := submitted a |}.

Definition push (m : message) (a : activation) : activation :=
  {| msgHistory := msgHistory a ++ [m]; trace := trace a; ctl := ctl a;
     fullResponse := fullResponse a; ttsQueue := ttsQueue a;
     submitted := submitted a |}.

Definition goto (c : control) (a : activation) : activation :=
  {| msgHistory := msgHistory a; trace := trace a; ctl := c;
     fullResponse := fullResponse a; ttsQueue := ttsQueue a;
     submitted := submitted a |}.

Definition send (o : out_event) : activation -> activation := emit [Sent o].

(** The text of the error event: [error instanceof Error ? error.message :
    "Unknown error"]. *)
Definition error_text (e : thrown) : jstring :=
  match e with
  | ErrorObj message => message
  | OtherValue => charCodes "Unknown error"
  end.

(** The [catch] clause of the listener, lines 69-77. *)
Definition caught (e : thrown) (a : activation) : activation :=
  goto Idle (send (OError (error_text e)) a).

(** Property access [msg.type] / [msg.data] on a parsed message: a
    TypeError on [null], [undefined] (here [None]) where there is no such
    property. *)
Fixpoint lookup_field (name : jstring) (fields : list (jstring * json))
    : option json :=
  match fields with
  | [] => None
  | (k, v) :: rest =>
      if decide (k = name) then Some v else lookup_field name rest
  end.

Definition get_property (msg : json) (name : string)
    : thrown + option json :=
  match msg with
  | JNull => inl (ErrorObj (charCodes "Cannot read properties of null"))
  | JObject fields => inr (lookup_field (charCodes name) fields)
  | _ => inr None
  end.

(** [x === "..."] for a property value. *)
Definition is_string (v : option json) (s : string) : bool :=
  match v with
  | Some (JString t) => bool_decide (t = charCodes s)
  | _ => false
  end.

(** [handleAudioInput], lines 90-93: report that processing starts, then wait
    for [this.transcribeAudio(audioData)]. *)
Definition handleAudioInput (a : activation) : activation :=
  goto AwaitTranscription (send (OStatus status_processing) a).

(** [generateAndSpeakResponse], lines 135-165: a new queue, an empty
    response, and the [for await] loop waits for the first chunk. *)
Definition generateAndSpeakResponse (a : activation) : activation :=
  {| msgHistory := msgHistory a; trace := trace a; ctl := AwaitChunk;
     fullResponse := []; ttsQueue := pq_new; submitted := 0 |}.

(** [handleAudioInput], lines 95-112: the transcription is known. *)
Definition handleAudioInput_transcribed (transcription : option jstring)
    (a : activation) : activation :=
  match transcription with
  | Some t =>
      if truthy t then
        generateAndSpeakResponse
          (send (OStatus status_speaking)
             (push {| msg_role := User; content := t |}
                (send (OText t) a)))
      else goto Idle (send (OStatus status_idle) a)
  | None => goto Idle (send (OStatus status_idle) a)
  end.

(** The [message] listener installed by [handleSession], lines 56-78, run on
    a message that arrives when the history is [history]. *)
Definition handleSession (history : list message) (m : inbound) : activation :=
  let a := {| msgHistory := history; trace := []; ctl := Idle;
              fullResponse := []; ttsQueue := pq_new; submitted := 0 |} in
  match m with
  | Binary _ => handleAudioInput a
  | TextFrame (ParseThrows e) => caught e a
  | TextFrame (Parsed msg) =>
      match get_property msg "type" with
      | inl e => caught e a
      | inr ty =>
          if is_string ty "cmd" then
            match get_property msg "data" with
            | inl e => caught e a
            | inr d =>
                if is_string d "clear" then
                  send (OStatus status_cleared)
                    {| msgHistory := []; trace := trace a; ctl := ctl a;
                       fullResponse := fullResponse a;
                       ttsQueue := ttsQueue a; submitted := submitted a |}
                else a
            end
          else a
      end
  end.

(** What the environment does next. *)
Inductive env_event : Type :=
| Transcribed (reply : stt_reply)   (* the transcription call settles *)
| Chunk (chunk : jstring)           (* [result.textStream] yields *)
| StreamEnd                         (* [result.textStream] is done *)
| StreamThrows (e : thrown)         (* iterating it throws *)
| Synthesized (reply : tts_reply).  (* the running synthesis call settles *)

(** [generateAndSpeakResponse], lines 190-194, then [handleAudioInput],
    line 114: the queue is idle, the assistant turn is committed and the
    listener reports idle. *)
Definition commit (a : activation) : activation :=
  goto Idle
    (send (OStatus status_idle)
       (push {| msg_role := Assistant; content := fullResponse a |} a)).

(** [generateAndSpeakResponse], lines 165-185: one iteration of the
    [for await] loop. *)
Definition loop_body (chunk : jstring) (a : activation) : activation :=
  match sentence_of chunk with
  | None => a
  | Some sentence =>
      let j := {| job_index := S (submitted a); job_sentence := sentence |} in
      let q := pq_add j (ttsQueue a) in
      {| msgHistory := msgHistory a;
         trace := trace a ++ [Sent (OStatus status_speaking)]
                          ++ started (ttsQueue a) q;
         ctl := ctl a;
         fullResponse := append_sentence (fullResponse a) sentence;
         ttsQueue := q;
         submitted := S (submitted a) |}
  end.

(** [generateAndSpeakResponse], lines 173-184: the queued task once
    [textToSpeech] has its answer; then the queue moves on. *)
Definition task_settles (j : job) (reply : tts_reply) (a : activation)
    : activation :=
  let audioData := textToSpeech reply in
  let sends :=
    match audioData with
    | Some b => if truthy b then [Sent (OAudio (job_sentence j) b)] else []
    | None => []
    end in
  let q := pq_next (ttsQueue a) in
  {| msgHistory := msgHistory a;
     trace := trace a ++ [TtsReturn (job_index j) audioData] ++ sends
                      ++ started {| running := None;
                                    waiting := waiting (ttsQueue a) |} q;
     ctl := ctl a;
     fullResponse := fullResponse a;
     ttsQueue := q;
     submitted := submitted a |}.

Definition step (a : activation) (ev : env_event) : option activation :=
  match ev, ctl a with
  | Transcribed reply, AwaitTranscription =>
      Some (handleAudioInput_transcribed (transcribeAudio reply) a)
  | Chunk chunk, AwaitChunk => Some (loop_body chunk a)
  | StreamEnd, AwaitChunk =>
      if pq_idle (ttsQueue a) then Some (commit a)
      else Some (goto AwaitQueueIdle a)
  | StreamThrows e, AwaitChunk => Some (caught e a)
  | Synthesized reply, c =>
      match running (ttsQueue a) with
      | None => None
      | Some j =>
          let a' := task_settles j reply a in
          match c with
          | AwaitQueueIdle =>
              if pq_idle (ttsQueue a') then Some (commit a') else Some a'
          | _ => Some a'
          end
      end
  | _, _ => None
  end.

(** A schedule: the environment's events in the order in which they occur.
    [None] when an event cannot occur in the state reached. *)
Fixpoint run (a : activation) (schedule : list env_event) : option activation :=
  match schedule with
  | [] => Some a
  | ev :: rest =>
      match step a ev with
      | None => None
      | Some a' => run a' rest
      end
  end.

End WithBase64.

(** ** Reading a trace *)

Definition sent (tr : list event) : list out_event :=
  omap (fun e => match e with Sent o => Some o | _ => None end) tr.

Definition is_audio (o : out_event) : bool :=
  match o with OAudio _ _ => true | _ => false end.

Definition is_text (o : out_event) : bool :=
  match o with OText _ => true | _ => false end.

Definition is_status (o : out_event) : bool :=
  match o with OStatus _ => true | _ => false end.

Definition is_error (o : out_event) : bool :=
  match o with OError _ => true | _ => false end.

Definition audio_sent (tr : list event) : list out_event :=
  List.filter is_audio (sent tr).

(** The part of a trace that concerns the dispatcher: synthesis calls, their
    answers, and audio events. *)
Definition is_dispatch (e : event) : bool :=
  match e with
  | Sent o => is_audio o
  | TtsCall _ _ | TtsReturn _ _ => true
  end.

Definition dispatch_view (tr : list event) : list event :=
  List.filter is_dispatch tr.

(** The audio event of one answered call, if any. *)
Definition delivery (sentence : jstring) (result : option jstring)
    : list out_event :=
  match result with
  | Some b => if truthy b then [OAudio sentence b] else []
  | None => []
  end.

(** The dispatcher trace of calls made one after the other: call [i], its
    answer, its audio event, then call [i+1], ... *)
Fixpoint serial (i : nat) (calls : list (jstring * option jstring))
    : list event :=
  match calls with
  | [] => []
  | (sentence, result) :: rest =>
      [TtsCall i sentence; TtsReturn i result]
        ++ map Sent (delivery sentence result)
        ++ serial (S i) rest
  end.

(** The audio events of a sequence of answered calls. *)
Definition deliveries (calls : list (jstring * option jstring))
    : list out_event :=
  flat_map (fun c => delivery (fst c) (snd c)) calls.

(** The queue that holds the utterances [pending], the first of them
    running as call [i]. *)
Fixpoint jobs_from (i : nat) (us : list jstring) : list job :=
  match us with
  | [] => []
  | u :: rest => {| job_index := i; job_sentence := u |} :: jobs_from (S i) rest
  end.

Definition queue_of (i : nat) (pending : list jstring) : pqueue :=
  match jobs_from i pending with
  | [] => pq_new
  | j :: rest => {| running := Some j; waiting := rest |}
  end.

Definition pending_call (i : nat) (pending : list jstring) : list event :=
  match pending with
  | [] => []
  | u :: _ => [TtsCall i u]
  end.

(** What the dispatcher has done once the utterances [us] were submitted and
    the first [length rs] calls were answered with [rs]: these calls one after
    the other, then the call of the next utterance, if there is one. *)
Definition expected_dispatch (us : list jstring) (rs : list (option jstring))
    : list event :=
  let k := length rs in
  serial 1 (zip (take k us) rs) ++ pending_call (S k) (drop k us).

(** The chunks and the synthesis answers of a schedule, in order. *)
Definition chunks_of (schedule : list env_event) : list jstring :=
  omap (fun ev => match ev with Chunk c => Some c | _ => None end) schedule.

Definition replies_of (schedule : list env_event) : list tts_reply :=
  omap (fun ev => match ev with Synthesized r => Some r | _ => None end)
       schedule.

End Worker.

Module Turn.
Import Js Segmenter Worker.

Local Open Scope nat_scope.

(** ** A turn, read off its schedule

    What the state of an activation must be after a schedule, from the
    moment the completion is requested ([generateAndSpeakResponse] entered
    with history [h0]). *)

Definition is_end (ev : env_event) : bool :=
  match ev with StreamEnd => true | _ => false end.

Definition is_throw (ev : env_event) : bool :=
  match ev with StreamThrows _ => true | _ => false end.

Definition stream_ended (schedule : list env_event) : bool :=
  existsb is_end schedule.

Definition stream_failed (schedule : list env_event) : bool :=
  existsb is_throw schedule.

(** The utterances submitted so far. *)
Definition submitted_of (schedule : list env_event) : list jstring :=
  utterances (chunks_of schedule).

Section WithBase64.
Variable btoa_bytes : list Z -> option jstring.

(** The answers of [textToSpeech] so far; the n-th one answers call n. *)
Definition results_of (schedule : list env_event) : list (option jstring) :=
  map (textToSpeech btoa_bytes) (replies_of schedule).

Definition all_answered (schedule : list env_event) : bool :=
  length (submitted_of schedule) <=? length (results_of schedule).

Definition expected_ctl (schedule : list env_event) : control :=
  if stream_failed schedule then Idle
  else if stream_ended schedule then
    if all_answered schedule then Idle else AwaitQueueIdle
  else AwaitChunk.

Definition expected_history (h0 : list message) (schedule : list env_event)
    : list message :=
  if stream_failed schedule then h0
  else if stream_ended schedule && all_answered schedule then
    h0 ++ [{| msg_role := Assistant;
              content := join_spaces (submitted_of schedule) |}]
  else h0.

Record turn_inv (h0 : list message) (schedule : list env_event)
    (a : activation) : Prop := {
  inv_answered :
    length (results_of schedule) <= length (submitted_of schedule);
  inv_submitted : submitted a = length (submitted_of schedule);
  inv_queue :
    ttsQueue a
    = queue_of (S (length (results_of schedule)))
        (drop (length (results_of schedule)) (submitted_of schedule));
  inv_dispatch :
    dispatch_view (trace a)
    = expected_dispatch (submitted_of schedule) (results_of schedule);
  inv_response : fullResponse a = join_spaces (submitted_of schedule);
  inv_ctl : ctl a = expected_ctl schedule;
  inv_history : msgHistory a = expected_history h0 schedule;
  inv_exclusive : stream_failed schedule && stream_ended schedule = false;
}.

(** The state in which [generateAndSpeakResponse] starts iterating. *)
Definition streaming_start (h0 : list message) (tr : list event) : activation :=
  {| msgHistory := h0; trace := tr; ctl := AwaitChunk; fullResponse := [];
     ttsQueue := pq_new; submitted := 0 |}.

End WithBase64.

Definition user_turn (t : jstring) : message :=
  {| msg_role := User; content := t |}.

Definition assistant_turn (t : jstring) : message :=
  {| msg_role := Assistant; content := t |}.

(** The events sent before the completion is requested. *)
Definition preamble (t : jstring) : list event :=
  [Sent (OStatus status_processing); Sent (OText t);
   Sent (OStatus status_speaking)].

End Turn.

(** ** A concrete session, used to exercise the statements below *)
Module Demo.
Import Js Segmenter Worker Turn.

Definition no_base64 (data : list Z) : option jstring := None.

Definition heard : stt_reply := SttResult (Some (charCodes "hi")).

Definition spoken (s : string) : env_event :=
  Synthesized (TtsString (charCodes s)).

(** Three sentences; the second synthesis call fails; the answers arrive
    while the completion is still streaming and after it has ended. *)
Definition schedule : list env_event :=
  [Chunk (charCodes "One. "); Chunk (charCodes "Two. "); spoken "QQ==";
   Chunk (charCodes "  "); Chunk (charCodes "Three.");
   Synthesized (TtsThrows (ErrorObj (charCodes "503")));
   StreamEnd; spoken "Qw=="].

Definition start : activation := handleSession [] (Binary [82; 73; 70; 70]).

Definition final : activation :=
  Eval vm_compute in
    match run no_base64 start (Transcribed heard :: schedule) with
    | Some a => a
    | None => start
    end.

(** All three calls succeed. *)
Definition schedule_ok : list env_event :=
  [Chunk (charCodes "One. "); Chunk (charCodes "Two. "); spoken "QQ==";
   Chunk (charCodes "Three."); StreamEnd; spoken "Qg=="; spoken "Qw=="].

Definition final_ok : activation :=
  Eval vm_compute in
    match run no_base64 start (Transcribed heard :: schedule_ok) with
    | Some a => a
    | None => start
    end.

(** The completion stream breaks after the first sentence. *)
Definition schedule_broken : list env_event :=
  [Chunk (charCodes "One. ")].

Definition broken : thrown := ErrorObj (charCodes "stream reset").

Definition final_broken : activation :=
  Eval vm_compute in
    match run no_base64 start
            (Transcribed heard :: schedule_broken ++ [StreamThrows broken]) with
    | Some a => a
    | None => start
    end.

(** Fragments whose chunks are those of [schedule_ok]. *)
Definition fragments : list jstring :=
  [charCodes "One. Tw"; charCodes "o. Three"; charCodes "."].

Definition clear_command : json :=
  JObject [(charCodes "type", JString (charCodes "cmd"));
           (charCodes "data", JString (charCodes "clear"))].

End Demo.

Module Sentences.
Import Js Segmenter.

Local Open Scope nat_scope.

(** A sentence can end at index [i] of the buffer: there is something
    before [i] and no line terminator in it, the code unit at [i] is [.],
    [!] or [?], and white space or the end of the buffer follows. *)
Definition sentence_end (buf : jstring) (i : nat) : Prop :=
  1 <= i
  /\ Forall (fun c => is_line_terminator c = false) (take i buf)
  /\ exists t,
       buf !! i = Some t /\ is_terminator t = true
       /\ boundary (drop (S i) buf) = true.

(** No leading and no trailing white space. *)
Definition starts_clean (s : jstring) : Prop :=
  match s with
  | [] => True
  | c :: _ => is_space c = false
  end.

Definition trimmed (s : jstring) : Prop :=
  starts_clean s /\ starts_clean (rev s).

End Sentences.

Module Channel.
Import Js Segmenter Worker Turn.

Local Open Scope nat_scope.

(** ** The events of a turn that are not audio events *)

Definition control_sent (tr : list event) : list out_event :=
  List.filter (fun o => negb (is_audio o)) (sent tr).

(** The exception a schedule lets the completion stream throw. *)
Fixpoint thrown_of (schedule : list env_event) : option thrown :=
  match schedule with
  | [] => None
  | StreamThrows e :: _ => Some e
  | _ :: rest => thrown_of rest
  end.

Section WithBase64.
Variable btoa_bytes : list Z -> option jstring.

(** How a turn ends on this channel: with the error event, with the idle
    status, or not yet. *)
Definition ending (schedule : list env_event) : list out_event :=
  match thrown_of schedule with
  | Some e => [OError (error_text e)]
  | None =>
      if stream_ended schedule && all_answered btoa_bytes schedule
      then [OStatus status_idle]
      else []
  end.

(** One "Speaking" status on entry and one per utterance. *)
Definition expected_control (t : jstring) (schedule : list env_event)
    : list out_event :=
  [OStatus status_processing; OText t; OStatus status_speaking]
    ++ repeat (OStatus status_speaking) (length (submitted_of schedule))
    ++ ending schedule.

End WithBase64.

(** A parsed message is the clear command. *)
Definition is_clear (msg : json) : bool :=
  match get_property msg "type", get_property msg "data" with
  | inr ty, inr d => is_string ty "cmd" && is_string d "clear"
  | _, _ => false
  end.

End Channel.

Module Demo2.
Import Js Segmenter Worker Turn Demo.

(** The chunks and answers of [Demo.schedule_ok], arriving in another
    order. *)
Definition schedule_ok' : list env_event :=
  [Chunk (charCodes "One. "); spoken "QQ=="; Chunk (charCodes "Two. ");
   spoken "Qg=="; Chunk (charCodes "Three."); spoken "Qw=="; StreamEnd].

Definition final_ok' : activation :=
  Eval vm_compute in
    match run no_base64 start (Transcribed heard :: schedule_ok') with
    | Some a => a
    | None => start
    end.


End Demo2.

Module Client.
Import Js Segmenter Worker Turn.

Local Open Scope nat_scope.

(** ** The page: [VoiceChat]

    The state the component keeps: the transcript, the status line, the
    speaking flag, the queue of audio clips and the playing flag.  [plays]
    records which clips were handed to an audio element, numbered in the
    order in which this happened, and which were given up. *)
Record clip : Type := { clip_audio : jstring; clip_text : jstring }.

Inductive play_event : Type :=
| Started (n : nat) (c : clip)
| Skipped (c : clip).

Record page : Type := {
  messages : list message;
  status : jstring;
  isSpeaking : bool;
  audioQueue : list clip;
  isPlaying : bool;
  plays : list play_event;
}.

Definition page_start : page :=
  {| messages := []; status := charCodes "Disconnected"; isSpeaking := false;
     audioQueue := []; isPlaying := false; plays := [] |}.

Definition started_count (log : list play_event) : nat :=
  length (List.filter (fun e => match e with Started _ _ => true | _ => false end)
                      log).

Section WithDecoder.

(** Whether [b64ToBlob] and the creation of the audio element succeed on a
    payload ([atob] throws on text that is not base64). *)
Variable playable : jstring -> bool.

(** [playNextInQueue], lines 143-173, from the point where it is known that
    nothing is playing: take the first clip; on an exception give it up and
    go on with the next one. *)
Fixpoint start_next (queue : list clip) (log : list play_event)
    : list clip * bool * list play_event :=
  match queue with
  | [] => ([], false, log)
  | c :: rest =>
      if playable (clip_audio c)
      then (rest, true, log ++ [Started (started_count log) c])
      else start_next rest (log ++ [Skipped c])
  end.

Definition playNextInQueue (p : page) : page :=
  if isPlaying p then p
  else
    let '(queue, playing, log) := start_next (audioQueue p) (plays p) in
    {| messages := messages p; status := status p; isSpeaking := isSpeaking p;
       audioQueue := queue; isPlaying := playing; plays := log |}.

(** The update of the transcript on an audio event, lines 79-89. *)
Definition append_assistant (text : jstring) (prev : list message)
    : list message :=
  match rev prev with
  | lastMsg :: before =>
      match msg_role lastMsg with
      | Assistant =>
          rev before
            ++ [{| msg_role := Assistant;
                   content := content lastMsg ++ [32%N] ++ text |}]
      | _ => prev ++ [{| msg_role := Assistant; content := text |}]
      end
  | [] => prev ++ [{| msg_role := Assistant; content := text |}]
  end.

(** [ws.onmessage], lines 52-101, on a message of the worker. *)
Definition onmessage (data : out_event) (p : page) : page :=
  match data with
  | OStatus text =>
      {| messages := messages p;
         status := if bool_decide (text = charCodes "ready")
                   then charCodes "Ready" else text;
         isSpeaking :=
           if bool_decide (text = charCodes "ready") then isSpeaking p
           else if bool_decide (text = status_speaking) then true
           else if bool_decide (text = status_idle) then false
           else isSpeaking p;
         audioQueue := audioQueue p; isPlaying := isPlaying p;
         plays := plays p |}
  | OText text =>
      {| messages := messages p ++ [{| msg_role := User; content := text |}];
         status := status p; isSpeaking := isSpeaking p;
         audioQueue := audioQueue p; isPlaying := isPlaying p;
         plays := plays p |}
  | OAudio text audio =>
      playNextInQueue
        {| messages := append_assistant text (messages p);
           status := status p; isSpeaking := isSpeaking p;
           audioQueue := audioQueue p
                           ++ [{| clip_audio := audio; clip_text := text |}];
           isPlaying := isPlaying p; plays := plays p |}
  | OError text =>
      {| messages := messages p; status := charCodes "Error: " ++ text;
         isSpeaking := isSpeaking p; audioQueue := audioQueue p;
         isPlaying := isPlaying p; plays := plays p |}
  end.

(** [onended], [onerror] and the [catch] of a rejected [play()], lines
    155-172: the clip is over, play the next one. *)
Definition settled (p : page) : page :=
  playNextInQueue
    {| messages := messages p; status := status p; isSpeaking := isSpeaking p;
       audioQueue := audioQueue p; isPlaying := false; plays := plays p |}.

(** What happens to the page: a message of the worker arrives, or the
    audio element of clip [n] reports that it is over. *)
Inductive page_event : Type :=
| Received (data : out_event)
| Settled (n : nat).

Definition page_step (p : page) (ev : page_event) : page :=
  match ev with
  | Received data => onmessage data p
  | Settled _ => settled p
  end.

Definition page_run (p : page) (evs : list page_event) : page :=
  fold_left page_step evs p.

(** The status line and the speaking flag after a list of messages. *)
Definition line (st : jstring * bool) (o : out_event) : jstring * bool :=
  (status (onmessage o
             {| messages := []; status := fst st; isSpeaking := snd st;
                audioQueue := []; isPlaying := false; plays := [] |}),
   isSpeaking (onmessage o
                 {| messages := []; status := fst st; isSpeaking := snd st;
                    audioQueue := []; isPlaying := false; plays := [] |})).

End WithDecoder.

(** ** Reading a run of the page *)

Definition clip_of (e : play_event) : clip :=
  match e with Started _ c => c | Skipped c => c end.

Definition clips_received (evs : list page_event) : list clip :=
  omap (fun ev => match ev with
                  | Received (OAudio text audio) =>
                      Some {| clip_audio := audio; clip_text := text |}
                  | _ => None
                  end) evs.

Definition settled_ids (evs : list page_event) : list nat :=
  omap (fun ev => match ev with Settled n => Some n | _ => None end) evs.

Definition audio_text (o : out_event) : option jstring :=
  match o with OAudio text _ => Some text | _ => None end.

(** The messages of the worker among the events of the page. *)
Definition received (evs : list page_event) : list out_event :=
  omap (fun ev => match ev with Received o => Some o | _ => None end) evs.

(** The clips started and not yet reported over. *)
Definition sounding (log : list play_event) (over : list nat) : list nat :=
  List.filter (fun n => negb (existsb (Nat.eqb n) over))
              (seq 0 (started_count log)).

(** The transcript after one more message of the worker. *)
Definition show (ms : list message) (o : out_event) : list message :=
  match o with
  | OText text => ms ++ [user_turn text]
  | OAudio text _ => append_assistant text ms
  | _ => ms
  end.

(** The assistant line that shows the given texts. *)
Definition assistant_line (texts : list jstring) : list message :=
  match texts with
  | [] => []
  | _ :: _ => [assistant_turn (join_spaces texts)]
  end.

(** With [over] the clips reported over: these were started, and a clip
    started and not reported over is the last one, and the flag is set. *)
Definition player_inv (p : page) (over : list nat) : Prop :=
  (forall n, In n over -> n < started_count (plays p))
  /\ (forall n, n < started_count (plays p) -> ~ In n over ->
      isPlaying p = true /\ S n = started_count (plays p)).

(** Every audio element reports once that its clip is over, and only after
    it was started. *)
Fixpoint settles_once (playable : jstring -> bool) (p : page)
    (seen : list nat) (evs : list page_event) : Prop :=
  match evs with
  | [] => True
  | ev :: rest =>
      match ev with
      | Settled n => n < started_count (plays p) /\ ~ In n seen
      | Received _ => True
      end
      /\ settles_once playable (page_step playable p ev)
           (match ev with Settled n => n :: seen | _ => seen end) rest
  end.

End Client.

Module Demo3.
Import Js Segmenter Worker Turn Demo Client.

Definition always_playable (audio : jstring) : bool := true.

Definition clip_event (text audio : string) : page_event :=
  Received (OAudio (charCodes text) (charCodes audio)).

(** Two clips arrive and the first one ends. *)
Definition two_clips : list page_event :=
  [clip_event "One." "QQ=="; clip_event "Two." "Qg=="; Settled 0].

(** Three clips arrive and the first one is reported over twice, as when
    [play()] is rejected and the element also fires [error]. *)
Definition reported_twice : list page_event :=
  [clip_event "One." "QQ=="; clip_event "Two." "Qg==";
   clip_event "Three." "Qw=="; Settled 0; Settled 0].

(** The page receives the events of [Demo.final_ok]; the first clip ends
    while the turn is still going on. *)
Definition page_events_ok : list page_event :=
  Eval vm_compute in
    match map Received (sent (trace final_ok)) with
    | e1 :: e2 :: e3 :: e4 :: e5 :: e6 :: rest =>
        e1 :: e2 :: e3 :: e4 :: e5 :: e6 :: Settled 0 :: rest
    | evs => evs
    end.

Definition page_events_broken : list page_event :=
  Eval vm_compute in map Received (sent (trace final_broken)).

End Demo3.

(* ===================================================================== *)
(** * Part II: facts                                                      *)
(* ===================================================================== *)

Module WavFacts.
Import Js Wav.

(** ** Integer conversions *)

Lemma to_uint_range w x : 0 <= w -> 0 <= to_uint w x < 2 ^ w.
Proof.
  intros Hw. unfold to_uint. apply Z.mod_pos_bound.
  apply Z.pow_pos_nonneg; lia.
Qed.

Lemma to_integer_of_Z z : to_integer (of_Z z) = z.
Proof. unfold to_integer, of_Z, inject_Z; simpl. apply Z.quot_1_r. Qed.

Lemma to_uint_of_Z w z : 0 <= z < 2 ^ w -> to_uint w (of_Z z) = z.
Proof.
  intros H. unfold to_uint. rewrite to_integer_of_Z.
  apply Z.mod_small; assumption.
Qed.

Lemma to_int16_range x : within_int16 (to_int16 x).
Proof.
  unfold within_int16, to_int16.
  pose proof (to_uint_range 16 x ltac:(lia)) as H.
  change (2 ^ 16) with 65536 in H.
  destruct (32768 <=? to_uint 16 x) eqn:E;
    [apply Z.leb_le in E | apply Z.leb_gt in E]; lia.
Qed.

(** No wrap-around when the integer part already fits. *)
Lemma to_int16_small x :
  within_int16 (to_integer x) -> to_int16 x = to_integer x.
Proof.
  unfold within_int16, to_int16, to_uint. intros H.
  change (2 ^ 16) with 65536.
  destruct (Z_lt_le_dec (to_integer x) 0) as [Hneg | Hpos].
  - replace (to_integer x mod 65536) with (to_integer x + 65536).
    + destruct (32768 <=? to_integer x + 65536) eqn:E;
        [apply Z.leb_le in E | apply Z.leb_gt in E]; lia.
    + apply Z.mod_unique with (q := -1); lia.
  - rewrite Z.mod_small by lia.
    destruct (32768 <=? to_integer x) eqn:E;
      [apply Z.leb_le in E | apply Z.leb_gt in E]; lia.
Qed.

Lemma quot_bounded a b m :
  0 < b -> - (m * b) <= a <= m * b -> - m <= Z.quot a b <= m.
Proof.
  intros Hb [Hlo Hhi]. split.
  - apply Z.quot_le_lower_bound; lia.
  - apply Z.quot_le_upper_bound; lia.
Qed.

(** ** Two little-endian bytes and back *)

Lemma bytes16_recompose v :
  0 <= v < 65536 -> byte_of v 0 + 256 * byte_of v 1 = v.
Proof.
  intros H. unfold byte_of. change (256 ^ 0) with 1. change (256 ^ 1) with 256.
  rewrite Z.div_1_r.
  rewrite (Z.mod_small (v / 256) 256)
    by (split; [apply Z.div_pos; lia | apply Z.div_lt_upper_bound; lia]).
  pose proof (Z.div_mod v 256 ltac:(lia)). lia.
Qed.

Lemma bytes32_recompose v :
  0 <= v < 4294967296 ->
  byte_of v 0 + 256 * (byte_of v 1 + 256 * (byte_of v 2 + 256 * byte_of v 3))
  = v.
Proof.
  intros H. unfold byte_of.
  change (256 ^ 0) with 1. change (256 ^ 1) with 256.
  change (256 ^ 2) with (256 * 256). change (256 ^ 3) with (256 * 256 * 256).
  rewrite Z.div_1_r.
  rewrite <- !Z.div_div by lia.
  set (a := v / 256). set (b := a / 256). set (c := b / 256).
  assert (0 <= a) by (apply Z.div_pos; lia).
  assert (0 <= b) by (apply Z.div_pos; lia).
  assert (0 <= c < 256).
  { split; [apply Z.div_pos; lia |].
    unfold c, b, a. repeat (apply Z.div_lt_upper_bound; [lia |]). lia. }
  rewrite (Z.mod_small c 256) by lia.
  pose proof (Z.div_mod v 256 ltac:(lia)).
  pose proof (Z.div_mod a 256 ltac:(lia)).
  pose proof (Z.div_mod b 256 ltac:(lia)).
  fold a in H3. fold b in H4. fold c in H5. lia.
Qed.

(** ** The encoder never leaves its buffer and produces the expected layout *)

Lemma put16_at_end (pre rest : bytes) v x y :
  put16 (length pre) v true (pre ++ x :: y :: rest)
  = (pre ++ [byte_of v 0; byte_of v 1]) ++ rest.
Proof.
  unfold put16.
  rewrite (insert_app_r_alt pre _ (length pre)) by lia.
  rewrite Nat.sub_diag. simpl.
  rewrite (insert_app_r_alt pre _ (S (length pre))) by lia.
  replace (S (length pre) - length pre)%nat with 1%nat by lia.
  simpl. rewrite <- app_assoc. reflexivity.
Qed.

Lemma write_samples_layout samples : forall pre : bytes,
  write_samples samples (length pre)
    (pre ++ replicate (2 * length samples) 0)
  = Some (pre ++ pcm_bytes samples).
Proof.
  induction samples as [| s rest IH]; intros pre.
  - simpl. reflexivity.
  - replace (2 * length (s :: rest))%nat
      with (S (S (2 * length rest))) by (simpl; lia).
    cbn [replicate write_samples]. unfold setInt16.
    assert (in_range (length pre) 2
              (pre ++ 0 :: 0 :: replicate (2 * length rest) 0) = true) as ->
      by (apply Nat.leb_le; rewrite length_app; simpl; lia).
    cbn [mbind option_bind].
    rewrite put16_at_end.
    replace (length pre + 2)%nat
      with (length (pre ++ [byte_of (to_int16 (pcmSample s) mod 65536) 0;
                            byte_of (to_int16 (pcmSample s) mod 65536) 1]))
      by (rewrite length_app; simpl; lia).
    rewrite IH. rewrite <- app_assoc. reflexivity.
Qed.

Lemma encode_layout samples sampleRate :
  encodeWavPCM16 samples sampleRate
  = Some (wav_header (length samples) sampleRate ++ pcm_bytes samples).
Proof.
  unfold encodeWavPCM16.
  change (16 / 8) with 2. change (1 * 2) with 2.
  replace (Z.to_nat (44 + Z.of_nat (length samples) * 2))
    with (44 + 2 * length samples)%nat by lia.
  rewrite replicate_add.
  set (rhs := Some _).
  unfold writeString, setUint32, setUint16, put16.
  set (zeros := replicate (2 * length samples) 0).
  set (v1 := to_uint 32 (of_Z (44 + Z.of_nat (length samples) * 2 - 8))).
  set (v2 := to_uint 32 sampleRate).
  set (v3 := to_uint 32 (num_mul sampleRate (of_Z 2))).
  set (v4 := to_uint 32 (of_Z (Z.of_nat (length samples) * 2))).
  cbn -[write_samples byte_of to_uint Nat.mul].
  subst rhs.
  match goal with
  | |- write_samples _ _ ?b = _ =>
      assert (b = wav_header (length samples) sampleRate ++ zeros) as ->
  end.
  { unfold wav_header, le16, le32. fold v1 v2 v3 v4.
    clearbody v1 v2 v3 v4 zeros.
    cbv -[byte_of]. reflexivity. }
  apply (write_samples_layout samples (wav_header (length samples) sampleRate)).
Qed.

(** ** Clamping and scaling one sample *)

Lemma num_lt_fin p q : num_lt (Fin p) (Fin q) = true <-> (p < q)%Q.
Proof.
  simpl. rewrite negb_true_iff. split.
  - intros H. apply Qnot_le_lt. intros Hle.
    apply Qle_bool_iff in Hle. congruence.
  - intros H. destruct (Qle_bool q p) eqn:E; [| reflexivity].
    apply Qle_bool_iff in E. exfalso. exact (Qlt_not_le _ _ H E).
Qed.

Lemma num_lt_fin_false p q : num_lt (Fin p) (Fin q) = false <-> (q <= p)%Q.
Proof.
  simpl. rewrite negb_false_iff. apply Qle_bool_iff.
Qed.

Lemma clamp_cases s :
  (s = NaN /\ clamp s = NaN)
  \/ exists q, clamp s = Fin q /\ (-1 <= q)%Q /\ (q <= 1)%Q.
Proof.
  destruct s as [| | | q].
  - left. split; reflexivity.
  - right. exists (inject_Z 1). split; [reflexivity |]. split; discriminate.
  - right. exists (inject_Z (-1)). split; [reflexivity |]. split; discriminate.
  - right. unfold clamp, math_min, math_max, of_Z. cbn [is_nan orb].
    destruct (num_lt (Fin q) (Fin (inject_Z 1))) eqn:E1.
    + cbn [is_nan orb].
      destruct (num_lt (Fin (inject_Z (-1))) (Fin q)) eqn:E2.
      * exists q. split; [reflexivity |].
        apply num_lt_fin in E1, E2. split; apply Qlt_le_weak; assumption.
      * exists (inject_Z (-1)). split; [reflexivity |]. split; discriminate.
    + cbn [is_nan orb].
      exists (inject_Z 1). split; [reflexivity |]. split; discriminate.
Qed.

Lemma pcmSample_integer_range s : within_int16 (to_integer (pcmSample s)).
Proof.
  unfold pcmSample.
  destruct (clamp_cases s) as [[_ ->] | (q & -> & Hlo & Hhi)].
  - simpl. unfold within_int16. lia.
  - destruct q as [n d]. unfold Qle in Hlo, Hhi. simpl in Hlo, Hhi.
    unfold of_Z.
    destruct (num_lt (Fin (n # d)) (Fin (inject_Z 0))) eqn:E.
    + apply num_lt_fin in E. unfold Qlt in E. simpl in E.
      unfold num_mul, to_integer, Qmult, inject_Z. cbn [Qnum Qden].
      rewrite Pos.mul_1_r. unfold within_int16. split.
      * apply Z.quot_le_lower_bound; lia.
      * transitivity 0; [| lia]. apply Z.quot_le_upper_bound; lia.
    + apply num_lt_fin_false in E. unfold Qle in E. simpl in E.
      unfold num_mul, to_integer, Qmult, inject_Z. cbn [Qnum Qden].
      rewrite Pos.mul_1_r. unfold within_int16. split.
      * transitivity 0; [lia |]. apply Z.quot_le_lower_bound; lia.
      * apply Z.quot_le_upper_bound; lia.
Qed.

Lemma pcmSample_above s :
  num_lt (of_Z 1) s = true -> to_integer (pcmSample s) = 32767.
Proof.
  destruct s as [| | | q]; try discriminate.
  - intros _. reflexivity.
  - intros H. unfold pcmSample, clamp, math_min, math_max, of_Z in *.
    cbn [is_nan orb].
    assert (num_lt (Fin q) (Fin (inject_Z 1)) = false) as ->.
    { apply num_lt_fin_false. apply num_lt_fin in H.
      apply Qlt_le_weak; assumption. }
    reflexivity.
Qed.

Lemma pcmSample_below s :
  num_lt s (of_Z (-1)) = true -> to_integer (pcmSample s) = -32768.
Proof.
  destruct s as [| | | q]; try discriminate.
  - intros _. reflexivity.
  - intros H. unfold pcmSample, clamp, math_min, math_max, of_Z in *.
    cbn [is_nan orb]. apply num_lt_fin in H.
    assert (num_lt (Fin q) (Fin (inject_Z 1)) = true) as ->.
    { apply num_lt_fin. eapply Qlt_trans; [exact H | reflexivity]. }
    cbn [is_nan orb].
    assert (num_lt (Fin (inject_Z (-1))) (Fin q) = false) as ->.
    { apply num_lt_fin_false. apply Qlt_le_weak; assumption. }
    reflexivity.
Qed.

(** ** Reading the encoded buffer back *)

Lemma pcm_bytes_lookup samples : forall i s,
  samples !! i = Some s ->
  pcm_bytes samples !! (2 * i)%nat
    = Some (byte_of (to_int16 (pcmSample s) mod 65536) 0)
  /\ pcm_bytes samples !! S (2 * i)
    = Some (byte_of (to_int16 (pcmSample s) mod 65536) 1).
Proof.
  induction samples as [| x rest IH]; intros i s H.
  - destruct i; discriminate.
  - destruct i as [| i].
    + injection H as ->. split; reflexivity.
    + replace (2 * S i)%nat with (S (S (2 * i))) by lia.
      exact (IH i s H).
Qed.

Lemma header_length n r : length (wav_header n r) = 44%nat.
Proof. reflexivity. Qed.

Lemma getInt16_written samples r i s :
  samples !! i = Some s ->
  getInt16 (44 + 2 * i) true (wav_header (length samples) r ++ pcm_bytes samples)
  = Some (to_int16 (pcmSample s)).
Proof.
  intros H. destruct (pcm_bytes_lookup samples i s H) as [H0 H1].
  unfold getInt16, getUint16.
  replace (S (44 + 2 * i)) with (44 + S (2 * i))%nat by lia.
  rewrite !lookup_app_r by (rewrite header_length; lia).
  rewrite header_length.
  replace (44 + 2 * i - 44)%nat with (2 * i)%nat by lia.
  replace (44 + S (2 * i) - 44)%nat with (S (2 * i)) by lia.
  rewrite H0, H1. cbn [mbind option_bind].
  pose proof (to_int16_range (pcmSample s)) as Hr. unfold within_int16 in Hr.
  set (v := to_int16 (pcmSample s)) in *.
  assert (0 <= v mod 65536 < 65536) as Hm by (apply Z.mod_pos_bound; lia).
  rewrite bytes16_recompose by exact Hm.
  f_equal.
  destruct (Z_lt_le_dec v 0) as [Hneg | Hpos].
  - replace (v mod 65536) with (v + 65536)
      by (apply Z.mod_unique with (q := -1); lia).
    destruct (32768 <=? v + 65536) eqn:E;
      [apply Z.leb_le in E | apply Z.leb_gt in E]; lia.
  - rewrite Z.mod_small by lia.
    destruct (32768 <=? v) eqn:E;
      [apply Z.leb_le in E | apply Z.leb_gt in E]; lia.
Qed.

Lemma header_fields n r (pcm : bytes) :
  let buf := wav_header n r ++ pcm in
  getUint16 22 true buf = Some 1
  /\ getUint32 24 true buf = Some (to_uint 32 r)
  /\ getUint16 34 true buf = Some 16
  /\ getUint32 40 true buf = Some (to_uint 32 (of_Z (Z.of_nat n * 2))).
Proof.
  intros buf. subst buf. unfold wav_header, le16, le32.
  set (v2 := to_uint 32 r).
  set (v4 := to_uint 32 (of_Z (Z.of_nat n * 2))).
  assert (0 <= v2 < 4294967296) as H2 by (apply (to_uint_range 32); lia).
  assert (0 <= v4 < 4294967296) as H4 by (apply (to_uint_range 32); lia).
  generalize (to_uint 32 (of_Z (44 + Z.of_nat n * 2 - 8))).
  generalize (to_uint 32 (num_mul r (of_Z 2))).
  clearbody v2 v4. intros v3 v1.
  unfold getUint16, getUint32.
  cbn -[byte_of Z.add Z.mul]. 
  rewrite (bytes32_recompose v2 H2), (bytes32_recompose v4 H4).
  repeat split; reflexivity.
Qed.

(** The fields of the header, for any number given as the sample rate: the
    rate field holds ToUint32 of it. *)
Lemma encode_header_fields samples sampleRate :
  exists buf,
    encodeWavPCM16 samples sampleRate = Some buf
    /\ length buf = (44 + 2 * length samples)%nat
    /\ getUint16 22 true buf = Some 1
    /\ getUint32 24 true buf = Some (to_uint 32 sampleRate)
    /\ getUint16 34 true buf = Some 16
    /\ getUint32 40 true buf
       = Some (to_uint 32 (of_Z (Z.of_nat (length samples) * 2))).
Proof.
  exists (wav_header (length samples) sampleRate ++ pcm_bytes samples).
  split; [apply encode_layout |]. split.
  - rewrite length_app, header_length. f_equal.
    unfold pcm_bytes. induction samples as [| s rest IH]; simpl; lia.
  - apply header_fields.
Qed.

(** C9 (as amended).  For every sample array of N samples with 2N below
    2^32 and every integer sample rate r with 0 <= r < 2^32, the encoder
    returns a buffer of 44 + 2N bytes whose header reads back, little-endian,
    channel count 1 at offset 22, the rate r at offset 24, bit depth 16 at
    offset 34 and data size 2N at offset 40. *)
Theorem wav_header_roundtrip (samples : list number) (rate : Z) :
  0 <= rate < 2 ^ 32 ->
  2 * Z.of_nat (length samples) < 2 ^ 32 ->
  exists buf,
    encodeWavPCM16 samples (of_Z rate) = Some buf
    /\ length buf = (44 + 2 * length samples)%nat
    /\ getUint16 22 true buf = Some 1
    /\ getUint32 24 true buf = Some rate
    /\ getUint16 34 true buf = Some 16
    /\ getUint32 40 true buf = Some (2 * Z.of_nat (length samples)).
Proof.
  intros Hr Hn.
  destruct (encode_header_fields samples (of_Z rate))
    as (buf & He & Hl & Hc & Hrate & Hb & Hd).
  exists buf. rewrite to_uint_of_Z in Hrate by assumption.
  rewrite to_uint_of_Z in Hd by lia.
  replace (Z.of_nat (length samples) * 2)
    with (2 * Z.of_nat (length samples)) in Hd by lia.
  repeat split; assumption.
Qed.

Lemma wav_header_roundtrip_witness :
  exists buf,
    encodeWavPCM16 [Fin (1 # 2); Fin (-3 # 1); NaN; PosInf] (of_Z 16000)
      = Some buf
    /\ length buf = (44 + 2 * 4)%nat
    /\ getUint16 22 true buf = Some 1
    /\ getUint32 24 true buf = Some 16000
    /\ getUint16 34 true buf = Some 16
    /\ getUint32 40 true buf = Some (2 * 4).
Proof.
  apply (wav_header_roundtrip [Fin (1 # 2); Fin (-3 # 1); NaN; PosInf] 16000).
  - vm_compute. split; congruence.
  - vm_compute. reflexivity.
Defined.

(** C9 (as stated) fails: the rate field is 32 bits wide, so a rate of
    2^32 + 16000 is reported as 16000. *)
Lemma wav_rate_outside_uint32 :
  exists buf,
    encodeWavPCM16 [] (of_Z 4294983296) = Some buf
    /\ getUint32 24 true buf = Some 16000
    /\ getUint32 24 true buf <> Some 4294983296.
Proof.
  eexists. split; [vm_compute; reflexivity |].
  split; [reflexivity | discriminate].
Qed.

(** C10 (as amended).  Whatever the samples and the rate, the encoder
    returns a buffer, and the 16-bit value it holds for sample [i] is the
    integer part of the clamped and scaled sample, with no wrap-around, inside
    [-32768, 32767].  A sample other than NaN is clamped into [-1, 1] first;
    samples above 1 are written as 32767 and samples below -1 as -32768.  NaN
    goes through the clamp unchanged and is written as 0. *)
Theorem pcm_samples_within_int16 (samples : list number) (sampleRate : number)
    (i : nat) (s : number) :
  samples !! i = Some s ->
  exists buf,
    encodeWavPCM16 samples sampleRate = Some buf
    /\ getInt16 (44 + 2 * i) true buf = Some (to_int16 (pcmSample s))
    /\ within_int16 (to_int16 (pcmSample s))
    /\ to_int16 (pcmSample s) = to_integer (pcmSample s)
    /\ (s <> NaN -> in_unit_interval (clamp s))
    /\ (s = NaN -> clamp s = NaN /\ to_int16 (pcmSample s) = 0)
    /\ (num_lt (of_Z 1) s = true -> to_int16 (pcmSample s) = 32767)
    /\ (num_lt s (of_Z (-1)) = true -> to_int16 (pcmSample s) = -32768).
Proof.
  intros Hi.
  exists (wav_header (length samples) sampleRate ++ pcm_bytes samples).
  pose proof (to_int16_small _ (pcmSample_integer_range s)) as Hsmall.
  split; [apply encode_layout |].
  split; [apply getInt16_written; exact Hi |].
  split; [apply to_int16_range |].
  split; [exact Hsmall |].
  split; [| split; [| split]].
  - intros Hnan. destruct (clamp_cases s) as [[-> _] | (q & -> & Hlo & Hhi)];
      [contradiction | split; assumption].
  - intros ->. split; reflexivity.
  - intros H. rewrite Hsmall. apply pcmSample_above; exact H.
  - intros H. rewrite Hsmall. apply pcmSample_below; exact H.
Qed.

Lemma pcm_samples_within_int16_witness :
  exists buf,
    encodeWavPCM16 [Fin (1 # 2); Fin (-3 # 1); NaN; PosInf] (of_Z 16000)
      = Some buf
    /\ getInt16 (44 + 2 * 1) true buf = Some (to_int16 (pcmSample (Fin (-3 # 1))))
    /\ within_int16 (to_int16 (pcmSample (Fin (-3 # 1))))
    /\ to_int16 (pcmSample (Fin (-3 # 1))) = to_integer (pcmSample (Fin (-3 # 1)))
    /\ (Fin (-3 # 1) <> NaN -> in_unit_interval (clamp (Fin (-3 # 1))))
    /\ (Fin (-3 # 1) = NaN ->
        clamp (Fin (-3 # 1)) = NaN /\ to_int16 (pcmSample (Fin (-3 # 1))) = 0)
    /\ (num_lt (of_Z 1) (Fin (-3 # 1)) = true ->
        to_int16 (pcmSample (Fin (-3 # 1))) = 32767)
    /\ (num_lt (Fin (-3 # 1)) (of_Z (-1)) = true ->
        to_int16 (pcmSample (Fin (-3 # 1))) = -32768).
Proof.
  apply (pcm_samples_within_int16
           [Fin (1 # 2); Fin (-3 # 1); NaN; PosInf] (of_Z 16000) 1 (Fin (-3 # 1))).
  reflexivity.
Defined.

(** C10 (as stated) fails on NaN: [Math.min] and [Math.max] return NaN, so
    the value that is scaled is not in [-1, 1]; the encoder then writes 0. *)
Lemma clamp_nan_outside_interval :
  clamp NaN = NaN
  /\ ~ in_unit_interval (clamp NaN)
  /\ exists buf,
       encodeWavPCM16 [NaN] (of_Z 16000) = Some buf
       /\ getInt16 44 true buf = Some 0.
Proof.
  split; [reflexivity |]. split; [intros H; exact H |].
  eexists. split; [vm_compute; reflexivity | reflexivity].
Qed.

End WavFacts.

Module SegmenterFacts.
Import Js Segmenter.

Local Open Scope nat_scope.

(** ** What [chunking] returns is a non-empty prefix of the buffer *)

Lemma takeWhile_dropWhile {A} (p : A -> bool) l :
  takeWhile p l ++ dropWhile p l = l.
Proof.
  induction l as [| x r IH]; simpl; [reflexivity |].
  destruct (p x); simpl; [rewrite IH |]; reflexivity.
Qed.

Lemma lazy_scan_prefix r : forall m,
  lazy_scan r = Some m -> m <> [] /\ exists rest, r = m ++ rest.
Proof.
  induction r as [| c r IH]; intros m H; simpl in H; [discriminate |].
  destruct (is_terminator c && boundary r).
  - injection H as <-. split; [discriminate |].
    exists (dropWhile is_space r). simpl.
    rewrite takeWhile_dropWhile. reflexivity.
  - destruct (is_line_terminator c); [discriminate |].
    destruct (lazy_scan r) as [m' |] eqn:E; [| discriminate].
    injection H as <-. split; [discriminate |].
    destruct (IH m' eq_refl) as [_ [rest ->]]. exists rest. reflexivity.
Qed.

Lemma sentence_match_prefix buf m :
  sentence_match buf = Some m -> 2 <= length m /\ exists rest, buf = m ++ rest.
Proof.
  destruct buf as [| c r]; simpl; [discriminate |].
  destruct (is_line_terminator c); [discriminate |].
  destruct (lazy_scan r) as [m' |] eqn:E; [| discriminate].
  intros H. injection H as <-.
  destruct (lazy_scan_prefix r m' E) as [Hne [rest ->]].
  split; [destruct m'; [contradiction | simpl; lia] |].
  exists rest. reflexivity.
Qed.

Lemma chunking_prefix buf m :
  chunking buf = Some m -> 0 < length m /\ exists rest, buf = m ++ rest.
Proof.
  unfold chunking. destruct (sentence_match buf) as [m0 |] eqn:E.
  - intros H. injection H as <-.
    destruct (sentence_match_prefix buf m0 E) as [Hl Hp].
    split; [lia | exact Hp].
  - destruct (120 <? length buf) eqn:L; [| discriminate].
    intros H. injection H as <-. apply Nat.ltb_lt in L.
    split; [lia |]. exists []. rewrite app_nil_r. reflexivity.
Qed.

(** ** [sentence_match] is the leftmost-shortest match of the pattern *)

Lemma lazy_scan_some r : forall m,
  lazy_scan r = Some m ->
  exists i,
    scan_cut r i /\ (forall j, j < i -> ~ scan_cut r j)
    /\ m = take (S i) r ++ takeWhile is_space (drop (S i) r).
Proof.
  induction r as [| c r IH]; intros m H; simpl in H; [discriminate |].
  destruct (is_terminator c && boundary r) eqn:E.
  - injection H as <-. apply andb_true_iff in E as [Et Eb].
    exists 0. split; [| split].
    + split; [constructor |]. exists c. auto.
    + intros j Hj. lia.
    + reflexivity.
  - destruct (is_line_terminator c) eqn:L; [discriminate |].
    destruct (lazy_scan r) as [m' |] eqn:Hs; [| discriminate].
    injection H as <-.
    destruct (IH m' eq_refl) as (i & [Hall (t & Ht & Htt & Hb)] & Hmin & ->).
    exists (S i). split; [| split].
    + split; [constructor; assumption |]. exists t. auto.
    + intros [| j] Hj [Hall' (t' & Ht' & Htt' & Hb')].
      * injection Ht' as <-. change (boundary r = true) in Hb'.
        rewrite Htt', Hb' in E. discriminate.
      * apply (Hmin j ltac:(lia)). split; [| exists t'; auto].
        simpl in Hall'. inversion Hall'; assumption.
    + reflexivity.
Qed.

Lemma lazy_scan_none r : lazy_scan r = None -> forall i, ~ scan_cut r i.
Proof.
  induction r as [| c r IH]; intros H i [Hall (t & Ht & Htt & Hb)].
  - destruct i; discriminate.
  - simpl in H. destruct i as [| i].
    + injection Ht as <-. change (boundary r = true) in Hb.
      rewrite Htt, Hb in H. discriminate.
    + simpl in Hall. inversion Hall as [| ? ? Hc Hrest]; subst.
      destruct (is_terminator c && boundary r); [discriminate |].
      rewrite Hc in H.
      destruct (lazy_scan r) eqn:Hs; [discriminate |].
      apply (IH eq_refl i). split; [assumption | exists t; auto].
Qed.

(** A match is the shortest prefix that ends at a cut, with the white space
    that follows it. *)
Lemma sentence_match_some buf m :
  sentence_match buf = Some m ->
  exists i,
    cut_at buf i /\ (forall j, j < i -> ~ cut_at buf j)
    /\ m = take (S i) buf ++ takeWhile is_space (drop (S i) buf).
Proof.
  destruct buf as [| c r]; simpl; [discriminate |].
  destruct (is_line_terminator c) eqn:L; [discriminate |].
  destruct (lazy_scan r) as [m' |] eqn:Hs; [| discriminate].
  intros H. injection H as <-.
  destruct (lazy_scan_some r m' Hs) as (i & Hcut & Hmin & ->).
  exists (S i). split; [split; [reflexivity | assumption] |].
  split; [| reflexivity].
  intros [| j] Hj; simpl; [tauto |].
  intros [_ Hc]. apply (Hmin j ltac:(lia) Hc).
Qed.

(** No match means that there is no cut at all. *)
Lemma sentence_match_none buf :
  sentence_match buf = None -> forall i, ~ cut_at buf i.
Proof.
  destruct buf as [| c r]; simpl; intros H i; [destruct i; tauto |].
  destruct i as [| i]; [tauto |]. intros [Hc Hcut].
  rewrite Hc in H. destruct (lazy_scan r) eqn:Hs; [discriminate |].
  exact (lazy_scan_none r Hs i Hcut).
Qed.

Lemma chunking_nil : chunking [] = None.
Proof. reflexivity. Qed.

(** ** The inner loop leaves because no chunk is found, not for lack of fuel *)

Lemma drain_spec fuel : forall buf,
  length buf <= fuel ->
  concat (fst (drain fuel buf)) ++ snd (drain fuel buf) = buf
  /\ chunking (snd (drain fuel buf)) = None
  /\ Forall (fun c => c <> []) (fst (drain fuel buf)).
Proof.
  induction fuel as [| fuel IH]; intros buf Hlen.
  - destruct buf; [| simpl in Hlen; lia]. simpl. auto.
  - simpl. destruct (chunking buf) as [m |] eqn:E.
    + destruct (chunking_prefix buf m E) as [Hm [rest ->]].
      rewrite drop_app_length.
      assert (length rest <= fuel) as Hr
        by (rewrite length_app in Hlen; lia).
      destruct (IH rest Hr) as (Hc & Hn & Hf).
      destruct (drain fuel rest) as [cs b]. simpl in *.
      rewrite <- app_assoc, Hc. repeat split; [assumption |].
      constructor; [destruct m; [simpl in Hm; lia | discriminate] | assumption].
    + simpl. auto.
Qed.

Lemma drain_exits buf : chunking (snd (drain (length buf) buf)) = None.
Proof. apply drain_spec. lia. Qed.

Lemma drain_fuel_irrelevant fuel : forall fuel' buf,
  length buf <= fuel -> length buf <= fuel' -> drain fuel buf = drain fuel' buf.
Proof.
  induction fuel as [| fuel IH]; intros fuel' buf H H'.
  - destruct buf; [| simpl in H; lia]. destruct fuel'; reflexivity.
  - destruct fuel' as [| fuel'].
    + destruct buf; [| simpl in H'; lia]. reflexivity.
    + simpl. destruct (chunking buf) as [m |] eqn:E; [| reflexivity].
      destruct (chunking_prefix buf m E) as [Hm [rest ->]].
      rewrite drop_app_length. rewrite length_app in H, H'.
      rewrite (IH fuel' rest) by lia. reflexivity.
Qed.

Lemma transform_spec buffer delta :
  concat (fst (transform buffer delta)) ++ snd (transform buffer delta)
    = buffer ++ delta
  /\ chunking (snd (transform buffer delta)) = None.
Proof.
  unfold transform.
  destruct (drain_spec (length (buffer ++ delta)) (buffer ++ delta)
              ltac:(lia)) as (H1 & H2 & _).
  split; assumption.
Qed.

(** ** The chunks partition the text *)

Lemma smoothStream_from_concat fragments : forall buffer,
  concat (smoothStream_from buffer fragments) = buffer ++ concat fragments.
Proof.
  induction fragments as [| f rest IH]; intros buffer; simpl.
  - destruct buffer; simpl; rewrite ?app_nil_r; reflexivity.
  - destruct (transform_spec buffer f) as [H _].
    destruct (transform buffer f) as [cs b]. simpl in H.
    rewrite concat_app, IH, app_assoc, H, <- app_assoc. reflexivity.
Qed.

Lemma smoothStream_concat fragments :
  concat (smoothStream fragments) = concat fragments.
Proof. apply smoothStream_from_concat. Qed.

(** ** Trimming and joining only touch white space *)

Lemma squeeze_app s t : squeeze (s ++ t) = squeeze s ++ squeeze t.
Proof. apply List.filter_app. Qed.

Lemma squeeze_rev s : squeeze (rev s) = rev (squeeze s).
Proof.
  induction s as [| c s IH]; simpl; [reflexivity |].
  rewrite squeeze_app, IH. simpl.
  destruct (negb (is_space c)); simpl; rewrite ?app_nil_r; reflexivity.
Qed.

Lemma squeeze_dropWhile s : squeeze (dropWhile is_space s) = squeeze s.
Proof.
  induction s as [| c s IH]; simpl; [reflexivity |].
  destruct (is_space c) eqn:E; simpl; [exact IH |].
  rewrite E. reflexivity.
Qed.

Lemma squeeze_trim s : squeeze (trim s) = squeeze s.
Proof.
  unfold trim.
  rewrite squeeze_rev, squeeze_dropWhile, squeeze_rev, rev_involutive.
  apply squeeze_dropWhile.
Qed.

Lemma squeeze_join us :
  squeeze (join_spaces us) = concat (map squeeze us).
Proof.
  induction us as [| u rest IH]; [reflexivity |].
  destruct rest as [| v rest].
  - simpl. rewrite app_nil_r. reflexivity.
  - change (join_spaces (u :: v :: rest))
      with (u ++ [32%N] ++ join_spaces (v :: rest)).
    rewrite !squeeze_app, IH. reflexivity.
Qed.

Lemma squeeze_utterances chunks :
  concat (map squeeze (utterances chunks)) = squeeze (concat chunks).
Proof.
  induction chunks as [| c rest IH]; [reflexivity |].
  unfold utterances in *. simpl. rewrite squeeze_app, <- IH.
  unfold sentence_of. destruct (trim c) as [| x t] eqn:E; simpl.
  - rewrite <- (squeeze_trim c), E. reflexivity.
  - rewrite <- (squeeze_trim c), E. reflexivity.
Qed.

Lemma utterances_app c1 c2 :
  utterances (c1 ++ c2) = utterances c1 ++ utterances c2.
Proof. unfold utterances. apply omap_app. Qed.

Lemma utterances_nonempty chunks :
  Forall (fun u => truthy u = true) (utterances chunks).
Proof.
  induction chunks as [| c rest IH]; [constructor |].
  unfold utterances in *. simpl. unfold sentence_of at 1.
  destruct (truthy (trim c)) eqn:E; [constructor |]; assumption.
Qed.

(** Appending sentences one by one builds the single-space join. *)
Lemma join_spaces_truthy us :
  us <> [] -> Forall (fun u => truthy u = true) us ->
  truthy (join_spaces us) = true.
Proof.
  intros Hne Hall. destruct us as [| u rest]; [contradiction |].
  inversion Hall as [| ? ? Hu _]; subst.
  destruct u; [discriminate |]. destruct rest; reflexivity.
Qed.

Lemma join_spaces_snoc us u :
  us <> [] -> join_spaces (us ++ [u]) = join_spaces us ++ [32%N] ++ u.
Proof.
  induction us as [| v rest IH]; [contradiction |]. intros _.
  destruct rest as [| w rest]; [reflexivity |].
  change (join_spaces ((v :: w :: rest) ++ [u]))
    with (v ++ [32%N] ++ join_spaces ((w :: rest) ++ [u])).
  rewrite IH by discriminate.
  change (join_spaces (v :: w :: rest))
    with (v ++ [32%N] ++ join_spaces (w :: rest)).
  rewrite <- !app_assoc. reflexivity.
Qed.

Lemma append_sentence_join us u :
  Forall (fun u => truthy u = true) us ->
  append_sentence (join_spaces us) u = join_spaces (us ++ [u]).
Proof.
  intros Hall. unfold append_sentence. destruct us as [| v rest].
  - reflexivity.
  - rewrite join_spaces_truthy by (assumption || discriminate).
    rewrite join_spaces_snoc by discriminate. reflexivity.
Qed.

(** ** The force cut *)

Lemma force_cut_drain buf :
  sentence_match buf = None -> 120 < length buf ->
  drain (length buf) buf = ([buf], []).
Proof.
  intros Hm Hl. destruct (length buf) as [| n] eqn:E; [lia |].
  cbn [drain]. unfold chunking at 1. rewrite Hm, E.
  assert ((120 <? S n) = true) as -> by (apply Nat.ltb_lt; lia).
  rewrite drop_all. destruct n; reflexivity.
Qed.


(** ** The claims about the segmenter *)

(** C6 (as amended).  When the buffer, with the new fragment appended, has
    no sentence cut and is longer than 120 code units, [chunking] returns the
    whole buffer: the loop emits it as one chunk and goes on with an empty
    buffer.  That chunk gives exactly one utterance, its trimmed text, unless
    it is white space only, in which case no utterance is emitted. *)
Theorem long_buffer_is_cut_whole (buffer delta : jstring) :
  sentence_match (buffer ++ delta) = None ->
  120 < length (buffer ++ delta) ->
  chunking (buffer ++ delta) = Some (buffer ++ delta)
  /\ transform buffer delta = ([buffer ++ delta], [])
  /\ (trim (buffer ++ delta) <> [] ->
      utterances [buffer ++ delta] = [trim (buffer ++ delta)])
  /\ (trim (buffer ++ delta) = [] -> utterances [buffer ++ delta] = []).
Proof.
  intros Hm Hl. split; [| split; [| split]].
  - unfold chunking. rewrite Hm.
    assert ((120 <? length (buffer ++ delta)) = true) as ->
      by (apply Nat.ltb_lt; exact Hl).
    reflexivity.
  - unfold transform. apply force_cut_drain; assumption.
  - intros Hne. unfold utterances, sentence_of. simpl.
    destruct (trim (buffer ++ delta)); [contradiction | reflexivity].
  - intros He. unfold utterances, sentence_of. simpl. rewrite He. reflexivity.
Qed.

(** The test of the specification: a fragment of 200 letters. *)
Lemma long_buffer_is_cut_whole_witness :
  chunking ([] ++ repeat 97%N 200) = Some ([] ++ repeat 97%N 200)
  /\ transform [] (repeat 97%N 200) = ([[] ++ repeat 97%N 200], [])
  /\ (trim ([] ++ repeat 97%N 200) <> [] ->
      utterances [[] ++ repeat 97%N 200] = [trim ([] ++ repeat 97%N 200)])
  /\ (trim ([] ++ repeat 97%N 200) = [] ->
      utterances [[] ++ repeat 97%N 200] = []).
Proof.
  apply (long_buffer_is_cut_whole [] (repeat 97%N 200)).
  - vm_compute. reflexivity.
  - vm_compute. lia.
Defined.

(** The same text arriving one letter at a time: the cut happens when the
    buffer reaches 121 code units, and the other 79 accumulate until the
    stream ends. *)
Example force_cut_letter_by_letter :
  map (@length N) (smoothStream (repeat [97%N] 200)) = [121; 79]
  /\ buffer_after [] (repeat [97%N] 200) = repeat 97%N 79.
Proof. split; vm_compute; reflexivity. Qed.

(** C6 (as stated) fails on a buffer of 121 spaces: it is cut off whole, but
    its trimmed text is empty and no utterance is emitted. *)
Lemma blank_force_cut_emits_nothing :
  sentence_match (repeat 32%N 121) = None
  /\ 120 < length (repeat 32%N 121)
  /\ transform [] (repeat 32%N 121) = ([repeat 32%N 121], [])
  /\ utterances (smoothStream [repeat 32%N 121]) = [].
Proof.
  split; [vm_compute; reflexivity |].
  split; [vm_compute; lia |].
  split; vm_compute; reflexivity.
Qed.

(** C7.  The text "Hello there. How are you?" arriving as "Hel",
    "lo there. How are", " you?" gives exactly the utterances "Hello there."
    and "How are you?", in this order. *)
Theorem hello_there_how_are_you :
  utterances
    (smoothStream
       [charCodes "Hel"; charCodes "lo there. How are"; charCodes " you?"])
  = [charCodes "Hello there."; charCodes "How are you?"].
Proof. vm_compute. reflexivity. Qed.

End SegmenterFacts.

Module WorkerFacts.
Import Js Segmenter Worker Turn SegmenterFacts.

Local Open Scope nat_scope.

(** ** Schedules *)

Lemma chunks_of_app s1 s2 : chunks_of (s1 ++ s2) = chunks_of s1 ++ chunks_of s2.
Proof. apply omap_app. Qed.

Lemma replies_of_app s1 s2 :
  replies_of (s1 ++ s2) = replies_of s1 ++ replies_of s2.
Proof. apply omap_app. Qed.

Lemma submitted_of_app s1 s2 :
  submitted_of (s1 ++ s2) = submitted_of s1 ++ submitted_of s2.
Proof. unfold submitted_of. rewrite chunks_of_app. apply utterances_app. Qed.

Lemma sent_app t1 t2 : sent (t1 ++ t2) = sent t1 ++ sent t2.
Proof. apply omap_app. Qed.

Lemma dispatch_view_app t1 t2 :
  dispatch_view (t1 ++ t2) = dispatch_view t1 ++ dispatch_view t2.
Proof. apply List.filter_app. Qed.

Lemma audio_sent_app t1 t2 :
  audio_sent (t1 ++ t2) = audio_sent t1 ++ audio_sent t2.
Proof. unfold audio_sent. rewrite sent_app. apply List.filter_app. Qed.

(** ** The queue *)

Lemma jobs_from_app us : forall i vs,
  jobs_from i (us ++ vs) = jobs_from i us ++ jobs_from (i + length us) vs.
Proof.
  induction us as [| u rest IH]; intros i vs; simpl.
  - rewrite Nat.add_0_r. reflexivity.
  - rewrite IH. replace (S i + length rest) with (i + S (length rest)) by lia.
    reflexivity.
Qed.

Lemma pq_add_queue_of i pending u :
  pq_add {| job_index := i + length pending; job_sentence := u |}
         (queue_of i pending)
  = queue_of i (pending ++ [u]).
Proof.
  unfold queue_of. rewrite jobs_from_app. simpl.
  destruct pending as [| v rest]; simpl.
  - rewrite Nat.add_0_r. reflexivity.
  - reflexivity.
Qed.

Lemma started_add i pending u :
  started (queue_of i pending) (queue_of i (pending ++ [u]))
  = match pending with [] => [TtsCall i u] | _ => [] end.
Proof. destruct pending; reflexivity. Qed.

Lemma queue_of_running i pending j :
  running (queue_of i pending) = Some j ->
  exists v rest,
    pending = v :: rest /\ j = {| job_index := i; job_sentence := v |}.
Proof.
  destruct pending as [| v rest]; simpl; [discriminate |].
  intros H. injection H as <-. eauto.
Qed.

Lemma pq_next_queue_of i v rest :
  pq_next (queue_of i (v :: rest)) = queue_of (S i) rest.
Proof. destruct rest; reflexivity. Qed.

Lemma started_next i v rest :
  started {| running := None; waiting := waiting (queue_of i (v :: rest)) |}
          (queue_of (S i) rest)
  = pending_call (S i) rest.
Proof. destruct rest; reflexivity. Qed.

Lemma pq_idle_queue_of i pending :
  pq_idle (queue_of i pending) = match pending with [] => true | _ => false end.
Proof. destruct pending; reflexivity. Qed.

(** ** Serial traces *)

Lemma serial_app xs : forall i ys,
  serial i (xs ++ ys) = serial i xs ++ serial (i + length xs) ys.
Proof.
  induction xs as [| [u r] rest IH]; intros i ys; simpl.
  - rewrite Nat.add_0_r. reflexivity.
  - rewrite IH. replace (S i + length rest) with (i + S (length rest)) by lia.
    rewrite <- !app_assoc. reflexivity.
Qed.

Lemma dispatch_view_serial calls : forall i,
  dispatch_view (serial i calls) = serial i calls.
Proof.
  induction calls as [| [u r] rest IH]; intros i; [reflexivity |].
  simpl. unfold dispatch_view in *. rewrite List.filter_app, IH. f_equal.
  destruct r as [b |]; simpl; [destruct (truthy b) |]; reflexivity.
Qed.

Lemma audio_sent_serial calls : forall i,
  audio_sent (serial i calls) = deliveries calls.
Proof.
  induction calls as [| [u r] rest IH]; intros i; [reflexivity |].
  cbn [serial]. rewrite !audio_sent_app, IH.
  change (deliveries ((u, r) :: rest)) with (delivery u r ++ deliveries rest).
  change (audio_sent [TtsCall i u; TtsReturn i r]) with (@nil out_event).
  cbn [app]. f_equal.
  destruct r as [b |]; simpl; [destruct (truthy b) |]; reflexivity.
Qed.

Lemma audio_sent_dispatch_view tr :
  audio_sent (dispatch_view tr) = audio_sent tr.
Proof.
  induction tr as [| e rest IH]; [reflexivity |].
  destruct e as [o | |]; simpl.
  - destruct o; simpl; try exact IH.
    unfold audio_sent in *. simpl. rewrite IH. reflexivity.
  - exact IH.
  - exact IH.
Qed.

Lemma audio_sent_pending i pending : audio_sent (pending_call i pending) = [].
Proof. destruct pending; reflexivity. Qed.

(** ** One event preserves the invariant of a turn *)

Section Preservation.
Variable btoa_bytes : list Z -> option jstring.
Variable h0 : list message.

Local Abbreviation results_of := (results_of btoa_bytes).
Local Abbreviation turn_inv := (turn_inv btoa_bytes h0).
Local Abbreviation step := (step btoa_bytes).
Local Abbreviation run := (run btoa_bytes).

Lemma stream_failed_snoc s ev :
  stream_failed (s ++ [ev]) = stream_failed s || is_throw ev.
Proof.
  unfold stream_failed. rewrite existsb_app. simpl.
  rewrite orb_false_r. reflexivity.
Qed.

Lemma stream_ended_snoc s ev :
  stream_ended (s ++ [ev]) = stream_ended s || is_end ev.
Proof.
  unfold stream_ended. rewrite existsb_app. simpl.
  rewrite orb_false_r. reflexivity.
Qed.

Lemma results_of_app s1 s2 :
  results_of (s1 ++ s2) = results_of s1 ++ results_of s2.
Proof. unfold Turn.results_of. rewrite replies_of_app. apply map_app. Qed.

(** The invariant depends on the schedule through four readings only. *)
Lemma turn_inv_ext s s' a :
  submitted_of s' = submitted_of s ->
  results_of s' = results_of s ->
  stream_ended s' = stream_ended s ->
  stream_failed s' = stream_failed s ->
  turn_inv s a -> turn_inv s' a.
Proof.
  intros Hu Hr He Hf [H1 H2 H3 H4 H5 H6 H7 H8].
  constructor;
    unfold expected_ctl, expected_history, all_answered in *;
    rewrite ?Hu, ?Hr, ?He, ?Hf; assumption.
Qed.

Lemma expected_ctl_chunk s :
  expected_ctl btoa_bytes s = AwaitChunk ->
  stream_failed s = false /\ stream_ended s = false.
Proof.
  unfold expected_ctl.
  destruct (stream_failed s); [discriminate |].
  destruct (stream_ended s); [| auto].
  destruct (all_answered btoa_bytes s); discriminate.
Qed.

Lemma expected_ctl_queue s :
  expected_ctl btoa_bytes s = AwaitQueueIdle ->
  stream_failed s = false /\ stream_ended s = true
  /\ all_answered btoa_bytes s = false.
Proof.
  unfold expected_ctl.
  destruct (stream_failed s); [discriminate |].
  destruct (stream_ended s); [| discriminate].
  destruct (all_answered btoa_bytes s); [discriminate | auto].
Qed.

Lemma expected_ctl_not_transcribing s :
  expected_ctl btoa_bytes s <> AwaitTranscription.
Proof.
  unfold expected_ctl.
  destruct (stream_failed s); [discriminate |].
  destruct (stream_ended s); [| discriminate].
  destruct (all_answered btoa_bytes s); discriminate.
Qed.

Lemma preserved_by_chunk s a c :
  turn_inv s a -> ctl a = AwaitChunk ->
  turn_inv (s ++ [Chunk c]) (loop_body c a).
Proof.
  intros Hinv Hctl. unfold loop_body.
  destruct (sentence_of c) as [u |] eqn:Hu.
  - destruct Hinv as [H1 H2 H3 H4 H5 H6 H7 H8].
    rewrite Hctl in H6. symmetry in H6.
    destruct (expected_ctl_chunk s H6) as [Hf He].
    assert (submitted_of (s ++ [Chunk c]) = submitted_of s ++ [u]) as Hsub.
    { rewrite submitted_of_app. unfold submitted_of at 2, utterances. simpl.
      rewrite Hu. reflexivity. }
    assert (results_of (s ++ [Chunk c]) = results_of s) as Hres.
    { rewrite results_of_app. apply app_nil_r. }
    set (us := submitted_of s) in *. set (rs := results_of s) in *.
    assert (pq_add {| job_index := S (submitted a); job_sentence := u |}
                   (ttsQueue a)
            = queue_of (S (length rs)) (drop (length rs) us ++ [u])) as Hq.
    { rewrite H3, <- pq_add_queue_of. do 2 f_equal.
      rewrite H2, length_drop. lia. }
    constructor; cbn [submitted ttsQueue trace fullResponse ctl msgHistory];
      rewrite ?Hsub, ?Hres.
    + rewrite length_app. simpl. lia.
    + rewrite length_app, H2. simpl. lia.
    + rewrite Hq, drop_app_le by exact H1. reflexivity.
    + rewrite Hq, H3, started_add, !dispatch_view_app, H4.
      unfold expected_dispatch.
      rewrite take_app_le, drop_app_le by exact H1.
      cbn [dispatch_view List.filter is_dispatch is_audio app].
      rewrite <- app_assoc. f_equal.
      destruct (drop (length rs) us); reflexivity.
    + rewrite H5. apply append_sentence_join. apply utterances_nonempty.
    + unfold expected_ctl, all_answered.
      rewrite stream_failed_snoc, stream_ended_snoc, Hf, He. exact Hctl.
    + unfold expected_history, all_answered.
      rewrite stream_failed_snoc, stream_ended_snoc, Hf, He. simpl.
      rewrite H7. unfold expected_history. rewrite Hf, He. reflexivity.
    + rewrite stream_failed_snoc, stream_ended_snoc, Hf, He. reflexivity.
  - apply (turn_inv_ext s); [| | | | exact Hinv].
    + rewrite submitted_of_app. unfold submitted_of at 2, utterances. simpl.
      rewrite Hu. apply app_nil_r.
    + rewrite results_of_app. apply app_nil_r.
    + rewrite stream_ended_snoc. apply orb_false_r.
    + rewrite stream_failed_snoc. apply orb_false_r.
Qed.

Lemma all_answered_iff s :
  all_answered btoa_bytes s = true
  <-> length (submitted_of s) <= length (results_of s).
Proof. unfold all_answered. apply Nat.leb_le. Qed.

Lemma preserved_by_end s a :
  turn_inv s a -> ctl a = AwaitChunk ->
  turn_inv (s ++ [StreamEnd])
    (if pq_idle (ttsQueue a) then commit a else goto AwaitQueueIdle a).
Proof.
  intros [H1 H2 H3 H4 H5 H6 H7 H8] Hctl.
  rewrite Hctl in H6. symmetry in H6.
  destruct (expected_ctl_chunk s H6) as [Hf He].
  assert (submitted_of (s ++ [StreamEnd]) = submitted_of s) as Hsub
    by (rewrite submitted_of_app; apply app_nil_r).
  assert (results_of (s ++ [StreamEnd]) = results_of s) as Hres
    by (rewrite results_of_app; apply app_nil_r).
  assert (pq_idle (ttsQueue a) = all_answered btoa_bytes s) as Hidle.
  { rewrite H3, pq_idle_queue_of. unfold all_answered.
    destruct (drop (length (results_of s)) (submitted_of s)) eqn:E.
    - symmetry. apply Nat.leb_le.
      apply (f_equal length) in E. rewrite length_drop in E. simpl in E. lia.
    - symmetry. apply Nat.leb_gt.
      apply (f_equal length) in E. rewrite length_drop in E. simpl in E. lia. }
  rewrite Hidle.
  destruct (all_answered btoa_bytes s) eqn:Hall;
    constructor;
    cbn [commit goto send emit push
         submitted ttsQueue trace fullResponse ctl msgHistory];
    unfold expected_ctl, expected_history, all_answered in *;
    rewrite ?Hsub, ?Hres, ?stream_failed_snoc, ?stream_ended_snoc, ?Hf, ?He,
      ?Hall;
    cbn [orb andb is_throw is_end];
    try assumption; try reflexivity.
  - rewrite dispatch_view_app. cbn. rewrite app_nil_r. exact H4.
  - rewrite H7, H5, Hf, He. reflexivity.
  - rewrite H7, Hf, He. reflexivity.
Qed.

Lemma preserved_by_throw s a e :
  turn_inv s a -> ctl a = AwaitChunk ->
  turn_inv (s ++ [StreamThrows e]) (caught e a).
Proof.
  intros [H1 H2 H3 H4 H5 H6 H7 H8] Hctl.
  rewrite Hctl in H6. symmetry in H6.
  destruct (expected_ctl_chunk s H6) as [Hf He].
  assert (submitted_of (s ++ [StreamThrows e]) = submitted_of s) as Hsub
    by (rewrite submitted_of_app; apply app_nil_r).
  assert (results_of (s ++ [StreamThrows e]) = results_of s) as Hres
    by (rewrite results_of_app; apply app_nil_r).
  constructor;
    cbn [caught goto send emit
         submitted ttsQueue trace fullResponse ctl msgHistory];
    unfold expected_ctl, expected_history, all_answered in *;
    rewrite ?Hsub, ?Hres, ?stream_failed_snoc, ?stream_ended_snoc, ?Hf, ?He;
    cbn [orb andb is_throw is_end];
    try assumption; try reflexivity.
  - rewrite dispatch_view_app. cbn. rewrite app_nil_r. exact H4.
  - rewrite H7, Hf, He. reflexivity.
Qed.

Lemma serial_answer (us : list jstring) (rs : list (option jstring))
    v rest res :
  drop (length rs) us = v :: rest ->
  dispatch_view [TtsReturn (S (length rs)) res]
    ++ dispatch_view (map Sent (delivery v res))
    ++ dispatch_view (pending_call (S (S (length rs))) rest)
  = [TtsReturn (S (length rs)) res] ++ map Sent (delivery v res)
    ++ pending_call (S (S (length rs))) rest.
Proof.
  intros _. f_equal. f_equal.
  - destruct res as [b |]; simpl; [destruct (truthy b) |]; reflexivity.
  - destruct rest; reflexivity.
Qed.

Lemma expected_dispatch_answer (us : list jstring)
    (rs : list (option jstring)) v rest res :
  length rs <= length us ->
  drop (length rs) us = v :: rest ->
  expected_dispatch us (rs ++ [res])
  = expected_dispatch us rs
    ++ [TtsReturn (S (length rs)) res] ++ map Sent (delivery v res)
    ++ pending_call (S (S (length rs))) rest.
Proof.
  intros Hle Hd. unfold expected_dispatch.
  assert (us !! length rs = Some v) as Hv.
  { rewrite <- (Nat.add_0_r (length rs)), <- lookup_drop, Hd. reflexivity. }
  assert (drop (S (length rs)) us = rest) as Hr.
  { replace (S (length rs)) with (length rs + 1) by lia.
    rewrite <- drop_drop, Hd. reflexivity. }
  rewrite length_app. cbn [length]. rewrite Nat.add_1_r.
  rewrite Hr, Hd, (take_S_r us (length rs) v Hv).
  rewrite zip_with_app by (rewrite length_take; lia).
  rewrite serial_app. cbn [zip_with serial pending_call].
  rewrite length_zip_with, length_take.
  replace (1 + (length rs `min` length us) `min` length rs)
    with (S (length rs)) by lia.
  rewrite <- !app_assoc. reflexivity.
Qed.

Lemma preserved_by_answer s a reply j :
  turn_inv s a -> running (ttsQueue a) = Some j ->
  turn_inv (s ++ [Synthesized reply])
    (let a' := task_settles btoa_bytes j reply a in
     match ctl a with
     | AwaitQueueIdle => if pq_idle (ttsQueue a') then commit a' else a'
     | _ => a'
     end).
Proof.
  intros [H1 H2 H3 H4 H5 H6 H7 H8] Hrun.
  rewrite H3 in Hrun.
  destruct (queue_of_running _ _ _ Hrun) as (v & rest & Hd & ->).
  assert (submitted_of (s ++ [Synthesized reply]) = submitted_of s) as Hsub
    by (rewrite submitted_of_app; apply app_nil_r).
  assert (results_of (s ++ [Synthesized reply])
          = results_of s ++ [textToSpeech btoa_bytes reply]) as Hres
    by (rewrite results_of_app; reflexivity).
  set (us := submitted_of s) in *. set (rs := results_of s) in *.
  set (res := textToSpeech btoa_bytes reply) in *.
  assert (length us = S (length rs) + length rest) as Hlen.
  { apply (f_equal length) in Hd. rewrite length_drop in Hd. simpl in Hd. lia. }
  assert (drop (S (length rs)) us = rest) as Hr.
  { replace (S (length rs)) with (length rs + 1) by lia.
    rewrite <- drop_drop, Hd. reflexivity. }
  assert (all_answered btoa_bytes s = false) as Hall
    by (apply Nat.leb_gt; fold us rs; lia).
  assert (all_answered btoa_bytes (s ++ [Synthesized reply])
          = match rest with [] => true | _ => false end) as Hall'.
  { unfold all_answered. rewrite Hsub, Hres, length_app. fold us. simpl.
    destruct rest; [apply Nat.leb_le | apply Nat.leb_gt]; simpl in Hlen; lia. }
  set (a' := task_settles btoa_bytes
               {| job_index := S (length rs); job_sentence := v |} reply a).
  assert (ttsQueue a' = queue_of (S (S (length rs))) rest) as Hq'.
  { unfold a', task_settles. cbn [ttsQueue]. rewrite H3, Hd.
    apply pq_next_queue_of. }
  assert (dispatch_view (trace a')
          = expected_dispatch us (rs ++ [res])) as Hd'.
  { unfold a', task_settles. cbn [trace job_index job_sentence].
    rewrite H3 at 1. rewrite Hd, H3, Hd, pq_next_queue_of, started_next.
    rewrite !dispatch_view_app, H4.
    fold res.
    replace (match res with
             | Some b => if truthy b then [Sent (OAudio v b)] else []
             | None => []
             end) with (map Sent (delivery v res))
      by (destruct res as [b |]; simpl; [destruct (truthy b) |]; reflexivity).
    rewrite (serial_answer us rs v rest res Hd).
    symmetry. apply expected_dispatch_answer; [exact H1 | exact Hd]. }
  cbv zeta. fold a'.
  assert (Hbase :
    length (results_of (s ++ [Synthesized reply]))
      <= length (submitted_of (s ++ [Synthesized reply]))
    /\ submitted a' = length (submitted_of (s ++ [Synthesized reply]))
    /\ ttsQueue a'
       = queue_of (S (length (results_of (s ++ [Synthesized reply]))))
           (drop (length (results_of (s ++ [Synthesized reply])))
                 (submitted_of (s ++ [Synthesized reply])))
    /\ dispatch_view (trace a')
       = expected_dispatch (submitted_of (s ++ [Synthesized reply]))
           (results_of (s ++ [Synthesized reply]))
    /\ fullResponse a' = join_spaces (submitted_of (s ++ [Synthesized reply]))).
  { rewrite Hsub, Hres, length_app. fold us. cbn [length].
    rewrite Nat.add_1_r, Hr.
    repeat split; [lia | exact H2 | exact Hq' | exact Hd' | exact H5]. }
  destruct Hbase as (B1 & B2 & B3 & B4 & B5).
  assert (pq_idle (ttsQueue a')
          = match rest with [] => true | _ => false end) as Hidle
    by (rewrite Hq'; apply pq_idle_queue_of).
  assert (stream_failed (s ++ [Synthesized reply]) = stream_failed s) as Hf'
    by (rewrite stream_failed_snoc; apply orb_false_r).
  assert (stream_ended (s ++ [Synthesized reply]) = stream_ended s) as He'
    by (rewrite stream_ended_snoc; apply orb_false_r).
  assert (stream_failed (s ++ [Synthesized reply])
            && stream_ended (s ++ [Synthesized reply]) = false) as Hx
    by (rewrite Hf', He'; exact H8).
  assert (ctl a' = ctl a) as Hc' by reflexivity.
  assert (msgHistory a' = msgHistory a) as Hh' by reflexivity.
  unfold expected_ctl, expected_history in H6, H7. rewrite Hall in H6, H7.
  rewrite andb_false_r in H7.
  destruct (ctl a) eqn:Hctl.
  - (* Idle: the stream has thrown *)
    destruct (stream_failed s) eqn:Hf;
      [| destruct (stream_ended s); discriminate].
    constructor; try assumption.
    + unfold expected_ctl. rewrite ?Hf', ?Hf. congruence.
    + unfold expected_history. rewrite ?Hf', ?Hf. congruence.
  - destruct (stream_failed s); [discriminate |].
    destruct (stream_ended s); discriminate.
  - (* AwaitChunk *)
    destruct (stream_failed s) eqn:Hf; [discriminate |].
    destruct (stream_ended s) eqn:He; [discriminate |].
    constructor; try assumption.
    + unfold expected_ctl. rewrite ?Hf', ?He', ?Hf, ?He. congruence.
    + unfold expected_history. rewrite ?Hf', ?He', ?Hf, ?He. simpl.
      congruence.
  - (* AwaitQueueIdle *)
    destruct (stream_failed s) eqn:Hf; [discriminate |].
    destruct (stream_ended s) eqn:He; [| discriminate].
    rewrite Hidle. destruct rest as [| w rest].
    + constructor;
        cbn [commit goto send emit push
             submitted ttsQueue trace fullResponse ctl msgHistory];
        try assumption.
      * rewrite dispatch_view_app. cbn. rewrite app_nil_r. exact B4.
      * unfold expected_ctl. rewrite ?Hf', ?He', ?Hf, ?He, Hall'.
        reflexivity.
      * unfold expected_history. rewrite ?Hf', ?He', ?Hf, ?He, Hall'. simpl.
        rewrite H7. change (fullResponse a) with (fullResponse a').
        rewrite B5. reflexivity.
    + constructor; try assumption.
      * unfold expected_ctl. rewrite ?Hf', ?He', ?Hf, ?He, Hall'. congruence.
      * unfold expected_history. rewrite ?Hf', ?He', ?Hf, ?He, Hall'. simpl.
        congruence.
Qed.

Lemma step_preserves s a ev a' :
  turn_inv s a -> step a ev = Some a' -> turn_inv (s ++ [ev]) a'.
Proof.
  intros Hinv Hstep.
  pose proof (inv_ctl _ _ _ _ Hinv) as Hctl.
  pose proof (expected_ctl_not_transcribing s) as Hnt.
  destruct ev as [reply | c | | e | reply]; unfold Worker.step in Hstep.
  - destruct (ctl a); try discriminate. congruence.
  - destruct (ctl a) eqn:E; try discriminate.
    injection Hstep as <-. apply preserved_by_chunk; assumption.
  - destruct (ctl a) eqn:E; try discriminate.
    pose proof (preserved_by_end s a Hinv E) as H.
    destruct (pq_idle (ttsQueue a)); injection Hstep as <-; exact H.
  - destruct (ctl a) eqn:E; try discriminate.
    injection Hstep as <-. apply preserved_by_throw; assumption.
  - destruct (running (ttsQueue a)) as [j |] eqn:Hrun.
    + pose proof (preserved_by_answer s a reply j Hinv Hrun) as H.
      cbv zeta in H.
      destruct (ctl a);
        try (injection Hstep as <-; exact H).
      destruct (pq_idle (ttsQueue (task_settles btoa_bytes j reply a)));
        injection Hstep as <-; exact H.
    + destruct (ctl a); discriminate.
Qed.

Lemma run_snoc s : forall a ev,
  run a (s ++ [ev])
  = match run a s with Some a1 => step a1 ev | None => None end.
Proof.
  induction s as [| x rest IH]; intros a ev; simpl.
  - destruct (step a ev); reflexivity.
  - destruct (step a x); [apply IH | reflexivity].
Qed.

Lemma run_app s1 : forall a s2,
  run a (s1 ++ s2)
  = match run a s1 with Some a1 => run a1 s2 | None => None end.
Proof.
  induction s1 as [| x rest IH]; intros a s2; simpl; [reflexivity |].
  destruct (step a x); [apply IH | reflexivity].
Qed.

Lemma streaming_start_inv tr :
  dispatch_view tr = [] -> turn_inv [] (streaming_start h0 tr).
Proof.
  intros H. constructor; try reflexivity; try exact H.
  all: simpl; lia.
Qed.

(** Every state reached while the completion is streamed and spoken is the
    one its schedule describes. *)
Lemma turn_invariant s : forall tr a,
  dispatch_view tr = [] ->
  run (streaming_start h0 tr) s = Some a -> turn_inv s a.
Proof.
  induction s as [| ev s IH] using rev_ind; intros tr a Htr Hrun.
  - injection Hrun as <-. apply streaming_start_inv; exact Htr.
  - rewrite run_snoc in Hrun.
    destruct (run (streaming_start h0 tr) s) as [a1 |] eqn:E;
      [| discriminate].
    apply (step_preserves s a1); [apply (IH tr); assumption | exact Hrun].
Qed.

(** While utterances wait, the answer of the running call can always be
    taken: the queue does not get stuck. *)
Lemma answer_enabled s a reply :
  turn_inv s a ->
  length (results_of s) < length (submitted_of s) ->
  exists a', step a (Synthesized reply) = Some a'.
Proof.
  intros Hinv Hlt. pose proof (inv_queue _ _ _ _ Hinv) as Hq.
  destruct (drop (length (results_of s)) (submitted_of s)) as [| v rest] eqn:E.
  - apply (f_equal length) in E. rewrite length_drop in E. simpl in E. lia.
  - unfold Worker.step. rewrite Hq. cbn [queue_of jobs_from running].
    destruct (ctl a); eauto.
    match goal with |- context [if ?b then _ else _] => destruct b end; eauto.
Qed.

End Preservation.

(** ** Whole turns *)

Section Turns.
Variable btoa_bytes : list Z -> option jstring.

Local Abbreviation results_of := (results_of btoa_bytes).
Local Abbreviation step := (step btoa_bytes).
Local Abbreviation run := (run btoa_bytes).

Lemma transcribeAudio_truthy reply t :
  transcribeAudio reply = Some t -> truthy t = true.
Proof.
  destruct reply as [e | [t' |]]; simpl; try discriminate.
  destruct (truthy t') eqn:E; [| discriminate].
  intros H. injection H as <-. exact E.
Qed.

Lemma audio_turn_start h audio reply t :
  transcribeAudio reply = Some t ->
  step (handleSession h (Binary audio)) (Transcribed reply)
  = Some (streaming_start (h ++ [user_turn t]) (preamble t)).
Proof.
  intros H. unfold Worker.step. simpl. rewrite H.
  unfold handleAudioInput_transcribed.
  rewrite (transcribeAudio_truthy reply t H). reflexivity.
Qed.

Lemma audio_turn_inv h audio reply t schedule a :
  transcribeAudio reply = Some t ->
  run (handleSession h (Binary audio)) (Transcribed reply :: schedule) = Some a ->
  turn_inv btoa_bytes (h ++ [user_turn t]) schedule a.
Proof.
  intros Ht Hrun. cbn [Worker.run] in Hrun.
  rewrite (audio_turn_start h audio reply t Ht) in Hrun.
  apply (turn_invariant btoa_bytes _ schedule (preamble t)); [reflexivity |].
  exact Hrun.
Qed.

Lemma deliveries_app c1 c2 : deliveries (c1 ++ c2) = deliveries c1 ++ deliveries c2.
Proof. unfold deliveries. apply flat_map_app. Qed.

Lemma audio_sent_expected (us : list jstring) (rs : list (option jstring)) :
  audio_sent (expected_dispatch us rs) = deliveries (zip us rs).
Proof.
  unfold expected_dispatch.
  rewrite audio_sent_app, audio_sent_serial, audio_sent_pending, app_nil_r.
  rewrite zip_with_take_l. reflexivity.
Qed.

Lemma deliveries_all_audio (us : list jstring) : forall audios : list jstring,
  Forall (fun b => truthy b = true) audios ->
  deliveries (zip us (map Some audios)) = zip_with OAudio us audios.
Proof.
  induction us as [| u rest IH]; intros audios Hall; [reflexivity |].
  destruct audios as [| b audios]; [reflexivity |].
  inversion Hall as [| ? ? Hb Hrest]; subst.
  cbn [map zip_with deliveries flat_map fst snd delivery].
  rewrite Hb. cbn [app]. f_equal. apply IH; exact Hrest.
Qed.

Lemma serial_call_in calls : forall j i u r,
  calls !! i = Some (u, r) ->
  In (TtsCall (j + i) u) (serial j calls).
Proof.
  induction calls as [| [v q] rest IH]; intros j i u r H.
  - destruct i; discriminate.
  - destruct i as [| i].
    + injection H as -> ->. rewrite Nat.add_0_r. left. reflexivity.
    + cbn [serial]. apply in_or_app. right. apply in_or_app. right.
      replace (j + S i) with (S j + i) by lia.
      apply (IH (S j) i u r). exact H.
Qed.

Lemma call_in_expected (us : list jstring) (rs : list (option jstring)) i u :
  us !! i = Some u -> i <= length rs ->
  In (TtsCall (S i) u) (expected_dispatch us rs).
Proof.
  intros Hu Hi. unfold expected_dispatch. apply in_or_app.
  destruct (decide (i = length rs)) as [-> | Hne].
  - right. rewrite (drop_S us u (length rs) Hu). left. reflexivity.
  - left. assert (i < length rs) as Hlt by lia.
    destruct (lookup_lt_is_Some_2 rs i Hlt) as [r Hr].
    apply (serial_call_in _ 1 i u r).
    apply lookup_zip_with_Some. exists u, r. split; [reflexivity |].
    split; [| exact Hr]. rewrite lookup_take_lt by exact Hlt. exact Hu.
Qed.

Lemma in_dispatch_view e tr : In e (dispatch_view tr) -> In e tr.
Proof. unfold dispatch_view. intros H. apply List.filter_In in H. tauto. Qed.

(** Nothing can happen to the history once the listener is back to idle. *)
Lemma idle_is_final schedule : forall a a',
  ctl a = Idle -> run a schedule = Some a' ->
  ctl a' = Idle /\ msgHistory a' = msgHistory a
  /\ List.filter (fun o => negb (is_audio o)) (sent (trace a'))
     = List.filter (fun o => negb (is_audio o)) (sent (trace a)).
Proof.
  induction schedule as [| ev rest IH]; intros a a' Hctl Hrun.
  - injection Hrun as <-. auto.
  - cbn [Worker.run] in Hrun.
    destruct (step a ev) as [a1 |] eqn:Hstep; [| discriminate].
    unfold Worker.step in Hstep. rewrite Hctl in Hstep.
    destruct ev as [reply | c | | e | reply]; try discriminate.
    destruct (running (ttsQueue a)) as [j |]; [| discriminate].
    injection Hstep as <-.
    destruct (IH (task_settles btoa_bytes j reply a) a' Hctl Hrun)
      as (H1 & H2 & H3).
    split; [exact H1 |]. split; [exact H2 |]. rewrite H3.
    unfold task_settles. cbn [trace].
    rewrite !sent_app, !List.filter_app.
    replace (List.filter (fun o => negb (is_audio o))
               (sent [TtsReturn (job_index j) (textToSpeech btoa_bytes reply)]))
      with (@nil out_event) by reflexivity.
    replace (List.filter _ (sent (started _ _))) with (@nil out_event).
    2:{ unfold started. cbn [running].
        destruct (running (pq_next (ttsQueue a))); reflexivity. }
    replace (List.filter _ (sent match textToSpeech btoa_bytes reply with
                                 | Some b => _ | None => _ end))
      with (@nil out_event).
    2:{ destruct (textToSpeech btoa_bytes reply) as [b |];
          [destruct (truthy b) |]; reflexivity. }
    rewrite !app_nil_r. reflexivity.
Qed.

Lemma synthesis_order_facts h audio reply t schedule a :
  transcribeAudio reply = Some t ->
  run (handleSession h (Binary audio)) (Transcribed reply :: schedule) = Some a ->
  dispatch_view (trace a)
    = expected_dispatch (submitted_of schedule) (results_of schedule)
  /\ audio_sent (trace a)
     = deliveries (zip (submitted_of schedule) (results_of schedule)).
Proof.
  intros Ht Hrun.
  pose proof (audio_turn_inv h audio reply t schedule a Ht Hrun) as Hinv.
  pose proof (inv_dispatch _ _ _ _ Hinv) as H4.
  split; [exact H4 |].
  rewrite <- audio_sent_dispatch_view, H4. apply audio_sent_expected.
Qed.

(** ** Turns run to completion

    The statements about completed turns are not vacuous: whatever the
    chunks and whatever the answers, the schedule that streams all chunks
    and then takes one answer per utterance is accepted and ends idle, with
    both turns in the history. *)

Lemma chunks_accepted h0 chunks : forall s a,
  turn_inv btoa_bytes h0 s a -> ctl a = AwaitChunk ->
  exists a',
    run a (map Chunk chunks) = Some a'
    /\ turn_inv btoa_bytes h0 (s ++ map Chunk chunks) a'
    /\ ctl a' = AwaitChunk.
Proof.
  induction chunks as [| c rest IH]; intros s a Hinv Hctl.
  - exists a. rewrite app_nil_r. auto.
  - assert (step a (Chunk c) = Some (loop_body c a)) as Hstep
      by (unfold Worker.step; rewrite Hctl; reflexivity).
    assert (ctl (loop_body c a) = AwaitChunk) as Hctl'
      by (unfold loop_body; destruct (sentence_of c); exact Hctl).
    destruct (IH (s ++ [Chunk c]) (loop_body c a)
                (preserved_by_chunk btoa_bytes h0 s a c Hinv Hctl) Hctl')
      as (a' & Hrun & Hinv' & Hc).
    exists a'. cbn [map Worker.run]. rewrite Hstep.
    rewrite <- app_assoc in Hinv'. auto.
Qed.

Lemma answers_accepted h0 replies : forall s a,
  turn_inv btoa_bytes h0 s a ->
  length (results_of s) + length replies <= length (submitted_of s) ->
  exists a',
    run a (map Synthesized replies) = Some a'
    /\ turn_inv btoa_bytes h0 (s ++ map Synthesized replies) a'.
Proof.
  induction replies as [| r rest IH]; intros s a Hinv Hlen.
  - exists a. rewrite app_nil_r. auto.
  - simpl in Hlen.
    destruct (answer_enabled btoa_bytes h0 s a r Hinv ltac:(lia))
      as [a1 Hstep].
    pose proof (step_preserves btoa_bytes h0 s a _ a1 Hinv Hstep) as Hinv1.
    destruct (IH (s ++ [Synthesized r]) a1 Hinv1) as (a' & Hrun & Hinv').
    { unfold Turn.results_of, submitted_of.
      rewrite replies_of_app, chunks_of_app, utterances_app, map_app,
        !length_app.
      simpl. unfold Turn.results_of, submitted_of in Hlen. lia. }
    exists a'. cbn [map Worker.run]. rewrite Hstep.
    rewrite <- app_assoc in Hinv'. auto.
Qed.

Lemma chunks_of_chunks chunks : chunks_of (map Chunk chunks) = chunks.
Proof. induction chunks as [| c rest IH]; simpl; [| rewrite IH]; reflexivity. Qed.

Lemma chunks_of_answers replies : chunks_of (map Synthesized replies) = [].
Proof. induction replies; simpl; auto. Qed.

Lemma replies_of_chunks chunks : replies_of (map Chunk chunks) = [].
Proof. induction chunks; simpl; auto. Qed.

Lemma replies_of_answers replies :
  replies_of (map Synthesized replies) = replies.
Proof.
  induction replies as [| r rest IH]; simpl; [| rewrite IH]; reflexivity.
Qed.

Lemma turn_completes h audio reply t chunks replies :
  transcribeAudio reply = Some t ->
  length replies = length (utterances chunks) ->
  exists a,
    run (handleSession h (Binary audio))
        (Transcribed reply
           :: map Chunk chunks ++ StreamEnd :: map Synthesized replies)
      = Some a
    /\ ctl a = Idle
    /\ msgHistory a
       = h ++ [user_turn t; assistant_turn (join_spaces (utterances chunks))].
Proof.
  intros Ht Hlen. cbn [Worker.run].
  rewrite (audio_turn_start h audio reply t Ht).
  set (h0 := h ++ [user_turn t]).
  destruct (chunks_accepted h0 chunks [] (streaming_start h0 (preamble t))
              (streaming_start_inv btoa_bytes h0 (preamble t) eq_refl)
              eq_refl) as (a1 & Hrun1 & Hinv1 & Hctl1).
  cbn [app] in Hinv1.
  assert (exists a2, step a1 StreamEnd = Some a2) as [a2 Hstep].
  { unfold Worker.step. rewrite Hctl1.
    destruct (pq_idle (ttsQueue a1)); eauto. }
  pose proof (step_preserves btoa_bytes h0 _ a1 _ a2 Hinv1 Hstep) as Hinv2.
  destruct (answers_accepted h0 replies _ a2 Hinv2) as (a3 & Hrun3 & Hinv3).
  { unfold Turn.results_of, submitted_of.
    rewrite replies_of_app, chunks_of_app, replies_of_chunks, chunks_of_chunks.
    simpl. rewrite app_nil_r. lia. }
  exists a3. rewrite run_app, Hrun1. cbn [Worker.run]. rewrite Hstep.
  split; [exact Hrun3 |].
  destruct Hinv3 as [_ _ _ _ _ H6 H7 _].
  set (s := (map Chunk chunks ++ [StreamEnd]) ++ map Synthesized replies) in *.
  assert (submitted_of s = utterances chunks) as Hsub.
  { unfold s, submitted_of.
    rewrite !chunks_of_app, chunks_of_chunks, chunks_of_answers. simpl.
    rewrite !app_nil_r. reflexivity. }
  assert (results_of s = map (textToSpeech btoa_bytes) replies) as Hres.
  { unfold s, Turn.results_of.
    rewrite !replies_of_app, replies_of_chunks, replies_of_answers.
    reflexivity. }
  assert (stream_failed s = false) as Hf.
  { unfold s, stream_failed. rewrite !existsb_app. simpl.
    assert (forall l, existsb is_throw (map Chunk l) = false) as ->
      by (intros l; induction l; simpl; auto).
    assert (forall l, existsb is_throw (map Synthesized l) = false) as ->
      by (intros l; induction l; simpl; auto).
    reflexivity. }
  assert (stream_ended s = true) as He.
  { unfold s, stream_ended. rewrite !existsb_app. simpl.
    rewrite orb_true_r. reflexivity. }
  assert (all_answered btoa_bytes s = true) as Hall.
  { apply Nat.leb_le. rewrite Hsub, Hres, length_map. lia. }
  unfold expected_ctl in H6. unfold expected_history in H7.
  rewrite Hf, He, Hall in H6, H7. simpl in H7.
  split; [exact H6 |]. rewrite H7, Hsub. unfold h0.
  rewrite <- app_assoc. reflexivity.
Qed.

(** The audio events depend on the chunks and on the answers, not on the
    way their arrivals interleave. *)
Lemma audio_independent_of_interleaving h audio reply t s1 s2 a1 a2 :
  transcribeAudio reply = Some t ->
  run (handleSession h (Binary audio)) (Transcribed reply :: s1) = Some a1 ->
  run (handleSession h (Binary audio)) (Transcribed reply :: s2) = Some a2 ->
  chunks_of s1 = chunks_of s2 ->
  replies_of s1 = replies_of s2 ->
  audio_sent (trace a1) = audio_sent (trace a2).
Proof.
  intros Ht H1 H2 Hc Hr.
  destruct (synthesis_order_facts h audio reply t s1 a1 Ht H1) as [_ ->].
  destruct (synthesis_order_facts h audio reply t s2 a2 Ht H2) as [_ ->].
  unfold submitted_of, Turn.results_of. rewrite Hc, Hr. reflexivity.
Qed.

(** ** The claims about the dispatcher *)

(** C1.  Whatever the order in which chunks arrive and synthesis calls are
    answered, the dispatcher's part of the trace is strictly serial: call 1,
    its answer, its audio event, then call 2, and so on, so that call n+1 is
    made only after the result of call n has been sent.  The audio events are
    those of the answered calls in submission order; when the turn is
    complete all N calls have been answered, and when they all succeeded the
    audio events are exactly utterances 1..N with their audio, in order. *)
Theorem synthesis_in_submission_order h audio reply t schedule a :
  transcribeAudio reply = Some t ->
  run (handleSession h (Binary audio)) (Transcribed reply :: schedule) = Some a ->
  dispatch_view (trace a)
    = expected_dispatch (submitted_of schedule) (results_of schedule)
  /\ audio_sent (trace a)
     = deliveries (zip (submitted_of schedule) (results_of schedule))
  /\ (ctl a = Idle -> stream_ended schedule = true ->
      length (results_of schedule) = length (submitted_of schedule)
      /\ dispatch_view (trace a)
         = serial 1 (zip (submitted_of schedule) (results_of schedule)))
  /\ (forall audios,
        results_of schedule = map Some audios ->
        Forall (fun b => truthy b = true) audios ->
        audio_sent (trace a) = zip_with OAudio (submitted_of schedule) audios).
Proof.
  intros Ht Hrun.
  pose proof (audio_turn_inv h audio reply t schedule a Ht Hrun)
    as [H1 H2 H3 H4 H5 H6 H7 H8].
  destruct (synthesis_order_facts h audio reply t schedule a Ht Hrun)
    as [_ Haudio].
  split; [exact H4 |]. split; [exact Haudio |]. split.
  - intros Hctl Hend. rewrite Hctl in H6. rewrite Hend in H8.
    rewrite andb_true_r in H8.
    unfold expected_ctl in H6. rewrite H8, Hend in H6.
    destruct (all_answered btoa_bytes schedule) eqn:Hall; [| discriminate].
    apply Nat.leb_le in Hall.
    assert (length (results_of schedule) = length (submitted_of schedule))
      as Hlen by lia.
    split; [exact Hlen |]. rewrite H4. unfold expected_dispatch.
    rewrite Hlen, take_ge, drop_ge by lia. apply app_nil_r.
  - intros audios Hr Hall. rewrite Haudio, Hr.
    apply deliveries_all_audio; exact Hall.
Qed.

(** C2.  When the synthesis call of an utterance fails (utterance [k],
    counting from 0), the audio events are those of the utterances before it
    followed by those of the utterances after it; the call of the next
    utterance is made, every later successful call has its audio event, and
    while utterances wait the running call can be answered. *)
Theorem failed_synthesis_is_skipped h audio reply t schedule a k u :
  transcribeAudio reply = Some t ->
  run (handleSession h (Binary audio)) (Transcribed reply :: schedule) = Some a ->
  submitted_of schedule !! k = Some u ->
  results_of schedule !! k = Some None ->
  audio_sent (trace a)
    = deliveries (zip (take k (submitted_of schedule))
                      (take k (results_of schedule)))
      ++ deliveries (zip (drop (S k) (submitted_of schedule))
                         (drop (S k) (results_of schedule)))
  /\ (forall v, submitted_of schedule !! S k = Some v ->
        In (TtsCall (S (S k)) v) (trace a))
  /\ (forall j v b,
        k < j -> submitted_of schedule !! j = Some v ->
        results_of schedule !! j = Some (Some b) -> truthy b = true ->
        In (OAudio v b) (audio_sent (trace a)))
  /\ (length (results_of schedule) < length (submitted_of schedule) ->
      forall r, exists a', step a (Synthesized r) = Some a').
Proof.
  intros Ht Hrun Hu Hr.
  pose proof (audio_turn_inv h audio reply t schedule a Ht Hrun) as Hinv.
  destruct (synthesis_order_facts h audio reply t schedule a Ht Hrun)
    as [Hd Haudio].
  set (us := submitted_of schedule) in *.
  set (rs := results_of schedule) in *.
  assert (k < length us) as Hku by (eapply lookup_lt_Some; exact Hu).
  assert (k < length rs) as Hkr by (eapply lookup_lt_Some; exact Hr).
  assert (zip us rs
          = zip (take k us) (take k rs)
            ++ (u, None) :: zip (drop (S k) us) (drop (S k) rs)) as Hzip.
  { rewrite <- (take_drop_middle us k u Hu) at 1.
    rewrite <- (take_drop_middle rs k None Hr) at 1.
    rewrite zip_with_app by (rewrite !length_take; lia). reflexivity. }
  split; [| split; [| split]].
  - rewrite Haudio, Hzip, deliveries_app. reflexivity.
  - intros v Hv. apply in_dispatch_view. rewrite Hd.
    apply call_in_expected; [exact Hv | lia].
  - intros j v b Hj Hv Hb Htruthy. rewrite Haudio.
    unfold deliveries. apply in_flat_map. exists (v, Some b). split.
    + apply list_elem_of_In. apply list_elem_of_lookup. exists j.
      apply lookup_zip_with_Some. exists v, (Some b). auto.
    + simpl. rewrite Htruthy. left. reflexivity.
  - intros Hlt r.
    apply (answer_enabled btoa_bytes (h ++ [user_turn t]) schedule);
      assumption.
Qed.

(** ** The claims about the session *)

(** C3 (as amended).  For the fragments of a completed turn: the chunks of
    the stream concatenate to the full response text; the utterances joined
    with single spaces differ from it by white space only; and this joined
    text is the content of the assistant turn appended to the history, after
    the user turn. *)
Theorem assistant_turn_joins_utterances h audio reply t fragments schedule a :
  transcribeAudio reply = Some t ->
  run (handleSession h (Binary audio)) (Transcribed reply :: schedule) = Some a ->
  chunks_of schedule = smoothStream fragments ->
  stream_ended schedule = true ->
  ctl a = Idle ->
  concat (smoothStream fragments) = concat fragments
  /\ squeeze (join_spaces (utterances (smoothStream fragments)))
     = squeeze (concat fragments)
  /\ msgHistory a
     = h ++ [user_turn t;
             assistant_turn (join_spaces (utterances (smoothStream fragments)))].
Proof.
  intros Ht Hrun Hchunks Hend Hctl.
  pose proof (audio_turn_inv h audio reply t schedule a Ht Hrun)
    as [H1 H2 H3 H4 H5 H6 H7 H8].
  split; [apply smoothStream_concat |]. split.
  - rewrite squeeze_join, squeeze_utterances, smoothStream_concat. reflexivity.
  - rewrite Hend, andb_true_r in H8.
    rewrite Hctl in H6. unfold expected_ctl in H6. rewrite H8, Hend in H6.
    destruct (all_answered btoa_bytes schedule) eqn:Hall; [| discriminate].
    rewrite H7. unfold expected_history. rewrite H8, Hend, Hall. simpl.
    unfold submitted_of. rewrite Hchunks, <- app_assoc. reflexivity.
Qed.

(** C4 (as amended).  An exception of the transcription call is swallowed
    by [transcribeAudio]: the turn ends like a silent one, with an idle
    status, no error event and the history untouched.  An exception of the
    completion stream aborts the turn: the listener sends an error event
    carrying the message of the exception (or "Unknown error") and is idle
    again; the history holds the user turn and no assistant turn, and this
    stays so whatever the synthesis calls still in the queue do later. *)
Theorem failed_turn_is_aborted h audio e0 reply t pre e a :
  transcribeAudio reply = Some t ->
  run (handleSession h (Binary audio))
      (Transcribed reply :: pre ++ [StreamThrows e]) = Some a ->
  (exists a0,
     run (handleSession h (Binary audio)) [Transcribed (SttThrows e0)] = Some a0
     /\ ctl a0 = Idle /\ msgHistory a0 = h
     /\ sent (trace a0) = [OStatus status_processing; OStatus status_idle])
  /\ ctl a = Idle
  /\ msgHistory a = h ++ [user_turn t]
  /\ last (sent (trace a)) = Some (OError (error_text e))
  /\ (forall post a',
        run a post = Some a' ->
        ctl a' = Idle /\ msgHistory a' = h ++ [user_turn t]).
Proof.
  intros Ht Hrun. split; [eexists; split; [reflexivity | auto] |].
  cbn [Worker.run] in Hrun.
  rewrite (audio_turn_start h audio reply t Ht), run_snoc in Hrun.
  destruct (run (streaming_start (h ++ [user_turn t]) (preamble t)) pre)
    as [a1 |] eqn:Hpre; [| discriminate].
  pose proof (turn_invariant btoa_bytes _ pre (preamble t) a1 eq_refl Hpre)
    as [H1 H2 H3 H4 H5 H6 H7 H8].
  unfold Worker.step in Hrun.
  destruct (ctl a1) eqn:Hctl; try discriminate.
  injection Hrun as <-.
  symmetry in H6. destruct (expected_ctl_chunk btoa_bytes pre H6) as [Hf He].
  unfold expected_history in H7. rewrite Hf, He in H7. simpl in H7.
  assert (msgHistory (caught e a1) = h ++ [user_turn t]) as Hh by exact H7.
  split; [reflexivity |]. split; [exact Hh |]. split.
  - cbn [caught goto send emit trace]. rewrite sent_app. apply last_snoc.
  - intros post a' Hpost.
    destruct (idle_is_final post (caught e a1) a' eq_refl Hpost)
      as (Hc & Hm & _).
    split; [exact Hc | congruence].
Qed.

(** C5.  When the transcription is null or the empty string (no text or
    an empty text in the reply of the model, or an exception of the call),
    the listener answers it with one status event ("Idle") and is idle
    again; over the whole activation it has sent status events only
    ("Processing..." on receipt, then "Idle"), no text and no audio event,
    and the history is as it was. *)
Theorem silent_audio_leaves_history h audio reply :
  transcribeAudio reply = None \/ transcribeAudio reply = Some [] ->
  exists a,
    run (handleSession h (Binary audio)) [Transcribed reply] = Some a
    /\ msgHistory a = h
    /\ ctl a = Idle
    /\ trace a
       = trace (handleSession h (Binary audio)) ++ [Sent (OStatus status_idle)]
    /\ sent (trace a) = [OStatus status_processing; OStatus status_idle]
    /\ Forall (fun o => is_status o = true) (sent (trace a))
    /\ List.filter is_text (sent (trace a)) = []
    /\ List.filter is_audio (sent (trace a)) = [].
Proof.
  intros H.
  exists (goto Idle (send (OStatus status_idle) (handleSession h (Binary audio)))).
  split.
  - cbn [Worker.run Worker.step handleSession handleAudioInput goto ctl].
    destruct H as [-> | ->]; reflexivity.
  - repeat split; repeat constructor.
Qed.

(** [handleAudioInput] takes the same way out on an empty string. *)
Lemma handleAudioInput_silent transcription a :
  transcription = None \/ transcription = Some [] ->
  handleAudioInput_transcribed transcription a
  = goto Idle (send (OStatus status_idle) a).
Proof. intros [-> | ->]; reflexivity. Qed.

(** The replies that give such a transcription. *)
Lemma transcribeAudio_null reply :
  transcribeAudio reply = None
  <-> (exists e, reply = SttThrows e) \/ reply = SttResult None
      \/ reply = SttResult (Some []).
Proof.
  split.
  - destruct reply as [e | [[| c t] |]]; simpl; intros H;
      try discriminate; eauto.
  - intros [[e ->] | [-> | ->]]; reflexivity.
Qed.

End Turns.

(** C8.  A clear command empties the history, whatever it held, is
    acknowledged by a status event and sends no error event; on an empty
    history it changes nothing. *)
Theorem clear_command_empties_history h msg :
  get_property msg "type" = inr (Some (JString (charCodes "cmd"))) ->
  get_property msg "data" = inr (Some (JString (charCodes "clear"))) ->
  msgHistory (handleSession h (TextFrame (Parsed msg))) = []
  /\ ctl (handleSession h (TextFrame (Parsed msg))) = Idle
  /\ sent (trace (handleSession h (TextFrame (Parsed msg))))
     = [OStatus status_cleared]
  /\ List.filter is_error (sent (trace (handleSession h (TextFrame (Parsed msg)))))
     = []
  /\ (h = [] -> msgHistory (handleSession h (TextFrame (Parsed msg))) = h).
Proof.
  intros Hty Hdata. unfold handleSession. rewrite Hty, Hdata.
  change (is_string (Some (JString (charCodes "cmd"))) "cmd") with true.
  change (is_string (Some (JString (charCodes "clear"))) "clear") with true.
  cbn iota. repeat split. intros ->. reflexivity.
Qed.

(** ** The statements at work on a concrete session *)

Lemma synthesis_in_submission_order_witness :
  dispatch_view (trace Demo.final_ok)
    = expected_dispatch (submitted_of Demo.schedule_ok)
        (results_of Demo.no_base64 Demo.schedule_ok)
  /\ audio_sent (trace Demo.final_ok)
     = deliveries (zip (submitted_of Demo.schedule_ok)
                       (results_of Demo.no_base64 Demo.schedule_ok))
  /\ (ctl Demo.final_ok = Idle -> stream_ended Demo.schedule_ok = true ->
      length (results_of Demo.no_base64 Demo.schedule_ok)
        = length (submitted_of Demo.schedule_ok)
      /\ dispatch_view (trace Demo.final_ok)
         = serial 1 (zip (submitted_of Demo.schedule_ok)
                         (results_of Demo.no_base64 Demo.schedule_ok)))
  /\ (forall audios,
        results_of Demo.no_base64 Demo.schedule_ok = map Some audios ->
        Forall (fun b => truthy b = true) audios ->
        audio_sent (trace Demo.final_ok)
        = zip_with OAudio (submitted_of Demo.schedule_ok) audios).
Proof.
  apply (synthesis_in_submission_order Demo.no_base64 []
           [82; 73; 70; 70]%Z Demo.heard (charCodes "hi")
           Demo.schedule_ok Demo.final_ok).
  - reflexivity.
  - vm_compute. reflexivity.
Defined.

Example three_sentences_in_order :
  audio_sent (trace Demo.final_ok)
  = [OAudio (charCodes "One.") (charCodes "QQ==");
     OAudio (charCodes "Two.") (charCodes "Qg==");
     OAudio (charCodes "Three.") (charCodes "Qw==")].
Proof. vm_compute. reflexivity. Qed.

Lemma failed_synthesis_is_skipped_witness :
  audio_sent (trace Demo.final)
    = deliveries (zip (take 1 (submitted_of Demo.schedule))
                      (take 1 (results_of Demo.no_base64 Demo.schedule)))
      ++ deliveries (zip (drop 2 (submitted_of Demo.schedule))
                         (drop 2 (results_of Demo.no_base64 Demo.schedule)))
  /\ (forall v, submitted_of Demo.schedule !! 2 = Some v ->
        In (TtsCall 3 v) (trace Demo.final))
  /\ (forall j v b,
        1 < j -> submitted_of Demo.schedule !! j = Some v ->
        results_of Demo.no_base64 Demo.schedule !! j = Some (Some b) ->
        truthy b = true ->
        In (OAudio v b) (audio_sent (trace Demo.final)))
  /\ (length (results_of Demo.no_base64 Demo.schedule)
        < length (submitted_of Demo.schedule) ->
      forall r, exists a',
        step Demo.no_base64 Demo.final (Synthesized r) = Some a').
Proof.
  apply (failed_synthesis_is_skipped Demo.no_base64 []
           [82; 73; 70; 70]%Z Demo.heard (charCodes "hi")
           Demo.schedule Demo.final 1 (charCodes "Two.")).
  - reflexivity.
  - vm_compute. reflexivity.
  - vm_compute. reflexivity.
  - vm_compute. reflexivity.
Defined.

Example second_sentence_is_omitted :
  audio_sent (trace Demo.final)
  = [OAudio (charCodes "One.") (charCodes "QQ==");
     OAudio (charCodes "Three.") (charCodes "Qw==")]
  /\ ctl Demo.final = Idle.
Proof. vm_compute. split; reflexivity. Qed.

Lemma assistant_turn_joins_utterances_witness :
  concat (smoothStream Demo.fragments) = concat Demo.fragments
  /\ squeeze (join_spaces (utterances (smoothStream Demo.fragments)))
     = squeeze (concat Demo.fragments)
  /\ msgHistory Demo.final_ok
     = [] ++ [user_turn (charCodes "hi");
              assistant_turn
                (join_spaces (utterances (smoothStream Demo.fragments)))].
Proof.
  apply (assistant_turn_joins_utterances Demo.no_base64 []
           [82; 73; 70; 70]%Z Demo.heard (charCodes "hi")
           Demo.fragments Demo.schedule_ok Demo.final_ok).
  - reflexivity.
  - vm_compute. reflexivity.
  - vm_compute. reflexivity.
  - reflexivity.
  - reflexivity.
Defined.

(** C3 (as stated) fails: two spaces between sentences come back as one,
    so the joined utterances are not the trimmed response text. *)
Lemma double_space_is_collapsed :
  join_spaces (utterances (smoothStream [charCodes "A.  B."]))
    = charCodes "A. B."
  /\ trim (concat [charCodes "A.  B."]) = charCodes "A.  B."
  /\ join_spaces (utterances (smoothStream [charCodes "A.  B."]))
     <> trim (concat [charCodes "A.  B."]).
Proof.
  split; [vm_compute; reflexivity |].
  split; [vm_compute; reflexivity | vm_compute; discriminate].
Qed.

Lemma failed_turn_is_aborted_witness :
  (exists a0,
     run Demo.no_base64 Demo.start [Transcribed (SttThrows Demo.broken)]
       = Some a0
     /\ ctl a0 = Idle /\ msgHistory a0 = []
     /\ sent (trace a0) = [OStatus status_processing; OStatus status_idle])
  /\ ctl Demo.final_broken = Idle
  /\ msgHistory Demo.final_broken = [] ++ [user_turn (charCodes "hi")]
  /\ last (sent (trace Demo.final_broken))
     = Some (OError (error_text Demo.broken))
  /\ (forall post a',
        run Demo.no_base64 Demo.final_broken post = Some a' ->
        ctl a' = Idle /\ msgHistory a' = [] ++ [user_turn (charCodes "hi")]).
Proof.
  apply (failed_turn_is_aborted Demo.no_base64 []
           [82; 73; 70; 70]%Z Demo.broken Demo.heard (charCodes "hi")
           Demo.schedule_broken Demo.broken Demo.final_broken).
  - reflexivity.
  - vm_compute. reflexivity.
Defined.

(** C4 (as stated) fails for the transcription: [transcribeAudio] catches
    the exception and returns null, so no error event is sent. *)
Lemma transcription_failure_is_silent :
  exists a,
    run Demo.no_base64 Demo.start [Transcribed (SttThrows Demo.broken)]
      = Some a
    /\ sent (trace a) = [OStatus status_processing; OStatus status_idle]
    /\ List.filter is_error (sent (trace a)) = [].
Proof. eexists. split; [reflexivity |]. split; reflexivity. Qed.

Lemma silent_audio_leaves_history_witness :
  exists a,
    run Demo.no_base64 (handleSession [user_turn (charCodes "hi")] (Binary []))
        [Transcribed (SttResult (Some []))] = Some a
    /\ msgHistory a = [user_turn (charCodes "hi")]
    /\ ctl a = Idle
    /\ trace a
       = trace (handleSession [user_turn (charCodes "hi")] (Binary []))
         ++ [Sent (OStatus status_idle)]
    /\ sent (trace a) = [OStatus status_processing; OStatus status_idle]
    /\ Forall (fun o => is_status o = true) (sent (trace a))
    /\ List.filter is_text (sent (trace a)) = []
    /\ List.filter is_audio (sent (trace a)) = [].
Proof.
  apply (silent_audio_leaves_history Demo.no_base64
           [user_turn (charCodes "hi")] [] (SttResult (Some []))).
  left. reflexivity.
Defined.

Lemma clear_command_empties_history_witness :
  msgHistory (handleSession [user_turn (charCodes "hi")]
                (TextFrame (Parsed Demo.clear_command))) = []
  /\ ctl (handleSession [user_turn (charCodes "hi")]
            (TextFrame (Parsed Demo.clear_command))) = Idle
  /\ sent (trace (handleSession [user_turn (charCodes "hi")]
                    (TextFrame (Parsed Demo.clear_command))))
     = [OStatus status_cleared]
  /\ List.filter is_error
       (sent (trace (handleSession [user_turn (charCodes "hi")]
                       (TextFrame (Parsed Demo.clear_command))))) = []
  /\ ([user_turn (charCodes "hi")] = [] ->
      msgHistory (handleSession [user_turn (charCodes "hi")]
                    (TextFrame (Parsed Demo.clear_command)))
      = [user_turn (charCodes "hi")]).
Proof.
  apply (clear_command_empties_history [user_turn (charCodes "hi")]
           Demo.clear_command).
  - vm_compute. reflexivity.
  - vm_compute. reflexivity.
Defined.

End WorkerFacts.

Module WavMore.
Import Js Wav WavFacts.

(** ** The whole header *)

(** X1.  For an integer rate whose double fits in 32 bits and a file size
    that fits in 32 bits, the encoder returns a canonical PCM header: the
    tags RIFF, WAVE, "fmt " and data at offsets 0, 8, 12 and 36; the RIFF
    size equal to the length of the buffer minus 8; a format chunk of 16
    bytes, format 1 (PCM), block alignment 2, and a byte rate of twice the
    sample rate. *)
Theorem wav_header_is_canonical (samples : list number) (rate : Z) :
  0 <= rate -> 2 * rate < 2 ^ 32 ->
  36 + 2 * Z.of_nat (length samples) < 2 ^ 32 ->
  exists buf,
    encodeWavPCM16 samples (of_Z rate) = Some buf
    /\ take 4 buf = map Z.of_N (charCodes "RIFF")
    /\ take 4 (drop 8 buf) = map Z.of_N (charCodes "WAVE")
    /\ take 4 (drop 12 buf) = map Z.of_N (charCodes "fmt ")
    /\ take 4 (drop 36 buf) = map Z.of_N (charCodes "data")
    /\ getUint32 4 true buf = Some (Z.of_nat (length buf) - 8)
    /\ getUint32 16 true buf = Some 16
    /\ getUint16 20 true buf = Some 1
    /\ getUint32 28 true buf = Some (2 * rate)
    /\ getUint16 32 true buf = Some 2.
Proof.
  intros Hr0 Hr Hn.
  exists (wav_header (length samples) (of_Z rate) ++ pcm_bytes samples).
  split; [apply encode_layout |].
  assert (length (wav_header (length samples) (of_Z rate) ++ pcm_bytes samples)
          = (44 + 2 * length samples)%nat) as Hlen.
  { rewrite length_app, header_length. f_equal.
    unfold pcm_bytes. clear. induction samples as [| s rest IH]; simpl; lia. }
  rewrite Hlen.
  assert (to_uint 32 (of_Z (44 + Z.of_nat (length samples) * 2 - 8))
          = Z.of_nat (44 + 2 * length samples) - 8) as H1
    by (rewrite to_uint_of_Z; lia).
  assert (to_uint 32 (num_mul (of_Z rate) (of_Z 2)) = 2 * rate) as H3.
  { unfold num_mul, of_Z, to_uint, to_integer, Qmult, inject_Z.
    cbn [Qnum Qden]. rewrite Z.quot_1_r, Z.mod_small; lia. }
  unfold wav_header, le16, le32. rewrite H1, H3.
  set (v1 := Z.of_nat (44 + 2 * length samples) - 8).
  set (v3 := 2 * rate).
  assert (0 <= v1 < 4294967296) as Hv1 by (unfold v1; lia).
  assert (0 <= v3 < 4294967296) as Hv3 by (unfold v3; lia).
  generalize (to_uint 32 (of_Z rate)).
  generalize (to_uint 32 (of_Z (Z.of_nat (length samples) * 2))).
  clearbody v1 v3. intros v4 v2.
  unfold getUint16, getUint32.
  cbn -[byte_of Z.add Z.mul].
  rewrite (bytes32_recompose v1 Hv1), (bytes32_recompose v3 Hv3).
  repeat split; reflexivity.
Qed.

Lemma wav_header_is_canonical_witness :
  exists buf,
    encodeWavPCM16 [Fin (1 # 2); NaN] (of_Z 16000) = Some buf
    /\ take 4 buf = map Z.of_N (charCodes "RIFF")
    /\ take 4 (drop 8 buf) = map Z.of_N (charCodes "WAVE")
    /\ take 4 (drop 12 buf) = map Z.of_N (charCodes "fmt ")
    /\ take 4 (drop 36 buf) = map Z.of_N (charCodes "data")
    /\ getUint32 4 true buf = Some (Z.of_nat (length buf) - 8)
    /\ getUint32 16 true buf = Some 16
    /\ getUint16 20 true buf = Some 1
    /\ getUint32 28 true buf = Some (2 * 16000)
    /\ getUint16 32 true buf = Some 2.
Proof.
  apply (wav_header_is_canonical [Fin (1 # 2); NaN] 16000).
  - lia.
  - vm_compute. reflexivity.
  - vm_compute. reflexivity.
Defined.

(** ** Bytes *)

Lemma byte_of_range v k : 0 <= byte_of v k < 256.
Proof. unfold byte_of. apply Z.mod_pos_bound. lia. Qed.

Lemma pcm_bytes_app s1 s2 : pcm_bytes (s1 ++ s2) = pcm_bytes s1 ++ pcm_bytes s2.
Proof. unfold pcm_bytes. apply flat_map_app. Qed.

Lemma pcm_bytes_length samples : length (pcm_bytes samples) = (2 * length samples)%nat.
Proof. unfold pcm_bytes. induction samples as [| s rest IH]; simpl; lia. Qed.

(** X2.  Whatever the samples and whatever number is given as the rate, the
    encoder returns a buffer (no access leaves it) of 44 + 2N bytes, each of
    them in 0..255. *)
Theorem encode_returns_bytes (samples : list number) (sampleRate : number) :
  exists buf,
    encodeWavPCM16 samples sampleRate = Some buf
    /\ length buf = (44 + 2 * length samples)%nat
    /\ Forall (fun b => 0 <= b < 256) buf.
Proof.
  exists (wav_header (length samples) sampleRate ++ pcm_bytes samples).
  split; [apply encode_layout |]. split.
  - rewrite length_app, header_length, pcm_bytes_length. reflexivity.
  - apply Forall_app. split.
    + unfold wav_header, le16, le32.
      repeat (apply Forall_app; split);
        repeat (apply Forall_cons; split;
                [first [apply byte_of_range | simpl; lia] |]);
        apply Forall_nil; exact I.
    + unfold pcm_bytes. induction samples as [| s rest IH]; [constructor |].
      cbn [flat_map le16 app].
      repeat (apply Forall_cons; split; [apply byte_of_range |]). exact IH.
Qed.

(** X3.  The data section of two pieces of audio encoded together is the
    data section of the first followed by that of the second, and the
    header is the one of any audio of that many samples at that rate. *)
Theorem data_sections_concatenate (s1 s2 : list number) (r r1 r2 : number) :
  exists buf b1 b2 silent,
    encodeWavPCM16 (s1 ++ s2) r = Some buf
    /\ encodeWavPCM16 s1 r1 = Some b1
    /\ encodeWavPCM16 s2 r2 = Some b2
    /\ encodeWavPCM16 (repeat (of_Z 0) (length (s1 ++ s2))) r = Some silent
    /\ drop 44 buf = drop 44 b1 ++ drop 44 b2
    /\ take 44 buf = take 44 silent.
Proof.
  exists (wav_header (length (s1 ++ s2)) r ++ pcm_bytes (s1 ++ s2)),
         (wav_header (length s1) r1 ++ pcm_bytes s1),
         (wav_header (length s2) r2 ++ pcm_bytes s2),
         (wav_header (length (s1 ++ s2)) r
            ++ pcm_bytes (repeat (of_Z 0) (length (s1 ++ s2)))).
  split; [apply encode_layout |].
  split; [apply encode_layout |].
  split; [apply encode_layout |].
  split.
  { rewrite encode_layout, repeat_length. reflexivity. }
  split.
  - rewrite !drop_app_length' by reflexivity. apply pcm_bytes_app.
  - rewrite !take_app_length' by reflexivity. reflexivity.
Qed.

(** ** [writeString] *)

Lemma setUint8_some off v (view : bytes) :
  (off < length view)%nat ->
  setUint8 off v view = Some (<[off := to_uint 8 v]> view).
Proof.
  intros H. unfold setUint8, in_range.
  assert ((off + 1 <=? length view)%nat = true) as ->
    by (apply Nat.leb_le; lia).
  reflexivity.
Qed.

Lemma setUint8_none off v (view : bytes) :
  (length view <= off)%nat -> setUint8 off v view = None.
Proof.
  intros H. unfold setUint8, in_range.
  assert ((off + 1 <=? length view)%nat = false) as ->
    by (apply Nat.leb_gt; lia).
  reflexivity.
Qed.

Lemma writeString_from_spec (str : list N) : forall (i offset : nat) (view : bytes),
  match writeString_from i offset str view with
  | None => str <> [] /\ (length view < offset + i + length str)%nat
  | Some view' =>
      (str <> [] -> offset + i + length str <= length view)%nat
      /\ length view' = length view
      /\ (forall k c, str !! k = Some c ->
            view' !! (offset + i + k)%nat = Some (Z.of_N c mod 256))
      /\ (forall j, (j < offset + i \/ offset + i + length str <= j)%nat ->
            view' !! j = view !! j)
  end.
Proof.
  induction str as [| c rest IH]; intros i offset view.
  - simpl. repeat split; try congruence. intros k c H. destruct k; discriminate.
  - cbn [writeString_from].
    destruct (le_lt_dec (length view) (offset + i)) as [Hout | Hin].
    + rewrite setUint8_none by exact Hout. simpl.
      split; [discriminate | lia].
    + rewrite setUint8_some by exact Hin. cbn [mbind option_bind].
      specialize (IH (S i) offset (<[(offset + i)%nat := to_uint 8 (of_Z (Z.of_N c))]> view)).
      destruct (writeString_from (S i) offset rest _) as [view' |].
      * destruct IH as (Hb & Hl & Hw & Hf). rewrite length_insert in *.
        split; [| split; [| split]].
        -- intros _. destruct rest; [simpl; lia |].
           specialize (Hb ltac:(discriminate)). simpl in *. lia.
        -- exact Hl.
        -- intros k c' Hk. destruct k as [| k].
           ++ injection Hk as <-. rewrite Nat.add_0_r.
              rewrite Hf by lia. rewrite list_lookup_insert_eq by lia.
              unfold to_uint. rewrite to_integer_of_Z. reflexivity.
           ++ replace (offset + i + S k)%nat with (offset + S i + k)%nat by lia.
              apply Hw. exact Hk.
        -- intros j Hj. rewrite Hf by (simpl in Hj; lia).
           apply list_lookup_insert_ne. simpl in Hj. lia.
      * destruct IH as [Hne Hlt]. rewrite length_insert in Hlt.
        split; [discriminate | simpl; lia].
Qed.

(** X4.  [writeString] fails (RangeError) exactly when the string is not
    empty and does not fit at the offset.  When it succeeds the buffer keeps
    its length, the bytes at the offset are the code units of the string
    modulo 256, and every other byte is unchanged. *)
Theorem writeString_bounds_and_frame (view : bytes) (offset : nat)
    (str : list N) :
  (writeString_from 0 offset str view = None
   <-> str <> [] /\ (length view < offset + length str)%nat)
  /\ (forall view',
        writeString_from 0 offset str view = Some view' ->
        length view' = length view
        /\ (forall k c, str !! k = Some c ->
              view' !! (offset + k)%nat = Some (Z.of_N c mod 256))
        /\ (forall j, (j < offset \/ offset + length str <= j)%nat ->
              view' !! j = view !! j)).
Proof.
  pose proof (writeString_from_spec str 0 offset view) as H.
  rewrite !Nat.add_0_r in H.
  destruct (writeString_from 0 offset str view) as [view' |]; split.
  - split; [discriminate |]. intros [Hne Hlt].
    destruct H as [Hb _]. specialize (Hb Hne). lia.
  - intros v Hv. injection Hv as <-. destruct H as (_ & Hl & Hw & Hf).
    split; [exact Hl |]. split.
    + intros k c Hk. exact (Hw k c Hk).
    + intros j Hj. apply Hf. exact Hj.
  - split; [intros _; exact H | reflexivity].
  - intros v Hv. discriminate.
Qed.

(** [writeString] on a literal is this loop on its code units. *)
Lemma writeString_unfold view offset (s : string) :
  writeString view offset s = writeString_from 0 offset (charCodes s) view.
Proof. reflexivity. Qed.

(** ** Samples keep their order *)

Lemma trunc_monotone (n n' : Z) (d d' : positive) :
  n * Zpos d' <= n' * Zpos d ->
  Z.quot n (Zpos d) <= Z.quot n' (Zpos d').
Proof.
  intros H.
  destruct (Z_lt_le_dec n 0) as [Hn | Hn];
    destruct (Z_lt_le_dec n' 0) as [Hn' | Hn'].
  - apply Z.quot_le_upper_bound; [lia |].
    pose proof (Z.mul_quot_ge n' (Zpos d') ltac:(lia) ltac:(lia)) as [Hq _].
    nia.
  - transitivity 0.
    + apply Z.quot_le_upper_bound; lia.
    + apply Z.quot_le_lower_bound; lia.
  - nia.
  - apply Z.quot_le_lower_bound; [lia |].
    pose proof (Z.mul_quot_le n (Zpos d) ltac:(lia) ltac:(lia)) as [_ Hq].
    nia.
Qed.

Lemma clamp_fin s :
  s <> NaN -> exists q, clamp s = Fin q /\ (-1 <= q)%Q /\ (q <= 1)%Q.
Proof.
  intros Hs. destruct (clamp_cases s) as [[-> _] | H]; [contradiction | exact H].
Qed.

Lemma clamp_monotone s s' q q' :
  num_lt s' s = false -> clamp s = Fin q -> clamp s' = Fin q' -> (q <= q')%Q.
Proof.
  intros Hle Hq Hq'.
  assert (forall x, (x < inject_Z 1)%Q -> (inject_Z (-1) < x)%Q ->
            clamp (Fin x) = Fin x) as Hmid.
  { intros x H1 H2. unfold clamp, math_min, math_max, of_Z. cbn [is_nan orb].
    apply num_lt_fin in H1. rewrite H1. cbn [is_nan orb].
    apply num_lt_fin in H2. rewrite H2. reflexivity. }
  assert (forall x, (inject_Z 1 <= x)%Q -> clamp (Fin x) = Fin (inject_Z 1))
    as Hhi.
  { intros x H1. unfold clamp, math_min, math_max, of_Z. cbn [is_nan orb].
    apply num_lt_fin_false in H1. rewrite H1. reflexivity. }
  assert (forall x, (x <= inject_Z (-1))%Q -> clamp (Fin x) = Fin (inject_Z (-1)))
    as Hlo.
  { intros x H1. unfold clamp, math_min, math_max, of_Z. cbn [is_nan orb].
    assert (num_lt (Fin x) (Fin (inject_Z 1)) = true) as ->
      by (apply num_lt_fin; eapply Qle_lt_trans; [exact H1 | reflexivity]).
    cbn [is_nan orb].
    apply num_lt_fin_false in H1. rewrite H1. reflexivity. }
  assert (forall x y, clamp (Fin x) = Fin y ->
            (-1 <= y)%Q /\ (y <= 1)%Q
            /\ ((x <= y)%Q \/ y == 1)%Q /\ ((y <= x)%Q \/ y == -1)%Q) as Hc.
  { intros x y Hy.
    destruct (Qlt_le_dec x (inject_Z 1)) as [H1 | H1].
    - destruct (Qlt_le_dec (inject_Z (-1)) x) as [H2 | H2].
      + rewrite Hmid in Hy by assumption. injection Hy as <-.
        repeat split; try (left; apply Qle_refl);
          apply Qlt_le_weak; assumption.
      + rewrite Hlo in Hy by assumption. injection Hy as <-.
        repeat split; try discriminate; [left; exact H2 | right; reflexivity].
    - rewrite Hhi in Hy by assumption. injection Hy as <-.
      repeat split; try discriminate; [right; reflexivity | left; exact H1]. }
  destruct s as [| | | x]; destruct s' as [| | | x'];
    try discriminate; try (injection Hq as <-); try (injection Hq' as <-);
    try discriminate.
  - apply (Hc x' q') in Hq'. tauto.
  - apply (Hc x q) in Hq. tauto.
  - apply num_lt_fin_false in Hle.
    destruct (Hc x q Hq) as (A1 & A2 & A3 & A4).
    destruct (Hc x' q' Hq') as (B1 & B2 & B3 & B4).
    destruct A4 as [A4 | A4]; [| rewrite A4; exact B1].
    destruct B3 as [B3 | B3]; [| rewrite B3; exact A2].
    eapply Qle_trans; [exact A4 |]. eapply Qle_trans; [exact Hle | exact B3].
Qed.

(** X5.  Louder stays louder: for samples that are numbers, a sample that
    is not smaller is written as a 16-bit value that is not smaller. *)
Theorem pcm_is_monotone (s s' : number) :
  s <> NaN -> s' <> NaN -> num_lt s' s = false ->
  to_int16 (pcmSample s) <= to_int16 (pcmSample s').
Proof.
  intros Hs Hs' Hle.
  rewrite !to_int16_small by apply pcmSample_integer_range.
  destruct (clamp_fin s Hs) as (q & Hq & Hq1 & Hq2).
  destruct (clamp_fin s' Hs') as (q' & Hq' & Hq1' & Hq2').
  pose proof (clamp_monotone s s' q q' Hle Hq Hq') as Hm.
  unfold pcmSample. rewrite Hq, Hq'. unfold of_Z.
  destruct q as [n d], q' as [n' d'].
  unfold Qle in *. cbn [Qnum Qden] in *.
  destruct (num_lt (Fin (n # d)) (Fin (inject_Z 0))) eqn:E;
    destruct (num_lt (Fin (n' # d')) (Fin (inject_Z 0))) eqn:E';
    [apply num_lt_fin in E | apply num_lt_fin in E
     | apply num_lt_fin_false in E | apply num_lt_fin_false in E];
    [apply num_lt_fin in E' | apply num_lt_fin_false in E'
     | apply num_lt_fin in E' | apply num_lt_fin_false in E'];
    unfold Qlt, Qle in E, E'; cbn [Qnum Qden inject_Z] in E, E';
    unfold num_mul, to_integer, Qmult, inject_Z; cbn [Qnum Qden];
    rewrite !Pos.mul_1_r.
  - apply trunc_monotone. nia.
  - transitivity 0.
    + apply Z.quot_le_upper_bound; lia.
    + apply Z.quot_le_lower_bound; lia.
  - nia.
  - apply trunc_monotone. nia.
Qed.

Lemma pcm_is_monotone_witness :
  to_int16 (pcmSample (Fin (-3 # 1))) <= to_int16 (pcmSample (Fin (1 # 2))).
Proof.
  apply (pcm_is_monotone (Fin (-3 # 1)) (Fin (1 # 2))).
  - discriminate.
  - discriminate.
  - reflexivity.
Defined.

End WavMore.

Module SegmenterMore.
Import Js Segmenter SegmenterFacts Sentences.

Local Open Scope nat_scope.

Lemma cut_at_sentence_end buf i : cut_at buf i <-> sentence_end buf i.
Proof.
  unfold sentence_end. destruct buf as [| c text]; destruct i as [| i]; simpl.
  - split; [tauto | intros [H _]; lia].
  - split; [tauto | intros (_ & _ & t & Ht & _); discriminate].
  - split; [tauto | intros [H _]; lia].
  - unfold scan_cut. split.
    + intros (Hc & Hall & t & Ht & Htt & Hb).
      split; [lia |]. split; [constructor; assumption |]. exists t. auto.
    + intros (_ & Hall & t & Ht & Htt & Hb).
      inversion Hall; subst. split; [assumption |].
      split; [assumption |]. exists t. auto.
Qed.

(** X6.  What the pattern of [chunking] finds.  There is a match exactly
    when a sentence can end somewhere in the buffer; the match is then the
    buffer up to the first such place, together with all the white space
    that follows it. *)
Theorem sentence_match_is_first_sentence (buf : jstring) :
  (forall m,
     sentence_match buf = Some m ->
     exists i,
       sentence_end buf i /\ (forall j, j < i -> ~ sentence_end buf j)
       /\ m = take (S i) buf ++ takeWhile is_space (drop (S i) buf))
  /\ (sentence_match buf = None <-> forall i, ~ sentence_end buf i).
Proof.
  split.
  - intros m Hm. destruct (sentence_match_some buf m Hm) as (i & Hc & Hmin & ->).
    exists i. split; [apply cut_at_sentence_end; exact Hc |].
    split; [| reflexivity].
    intros j Hj Hs. apply (Hmin j Hj). apply cut_at_sentence_end. exact Hs.
  - split.
    + intros Hn i Hs. apply (sentence_match_none buf Hn i).
      apply cut_at_sentence_end. exact Hs.
    + intros Hno. destruct (sentence_match buf) as [m |] eqn:E; [| reflexivity].
      destruct (sentence_match_some buf m E) as (i & Hc & _).
      exfalso. apply (Hno i). apply cut_at_sentence_end. exact Hc.
Qed.

Lemma terminator_not_line_terminator c :
  is_terminator c = true -> is_line_terminator c = false.
Proof.
  unfold is_terminator, is_line_terminator. intros H.
  repeat (apply orb_true_iff in H as [H | H]);
    apply N.eqb_eq in H; subst; reflexivity.
Qed.

(** X7.  A line terminator stops the search: when no sentence ends before
    it, no sentence is found at all, however many terminators follow; the
    buffer then leaves only by the length rule. *)
Theorem line_terminator_blocks_cut (buf : jstring) (i : nat) (c : N) :
  buf !! i = Some c ->
  is_line_terminator c = true ->
  (forall j, j < i -> ~ sentence_end buf j) ->
  sentence_match buf = None
  /\ chunking buf = if 120 <? length buf then Some buf else None.
Proof.
  intros Hc Hlt Hbefore.
  assert (sentence_match buf = None) as Hnone.
  { destruct (sentence_match buf) as [m |] eqn:E; [| reflexivity].
    destruct (sentence_match_some buf m E) as (k & Hcut & _).
    apply cut_at_sentence_end in Hcut.
    destruct Hcut as (Hk & Hall & t & Ht & Htt & Hb).
    exfalso. destruct (lt_eq_lt_dec k i) as [[Hlt' | ->] | Hgt].
    - apply (Hbefore k Hlt'). split; [exact Hk |].
      split; [exact Hall |]. exists t. auto.
    - rewrite Hc in Ht. injection Ht as <-.
      rewrite (terminator_not_line_terminator c Htt) in Hlt. discriminate.
    - rewrite Forall_lookup in Hall.
      assert (take k buf !! i = Some c) as Hi
        by (rewrite lookup_take_lt by exact Hgt; exact Hc).
      specialize (Hall i c Hi). simpl in Hall. congruence. }
  split; [exact Hnone |]. unfold chunking. rewrite Hnone. reflexivity.
Qed.

Lemma line_terminator_blocks_cut_witness :
  sentence_match (charCodes "Hi" ++ [10%N] ++ charCodes "there. Bye. ") = None
  /\ chunking (charCodes "Hi" ++ [10%N] ++ charCodes "there. Bye. ")
     = if 120 <? length (charCodes "Hi" ++ [10%N] ++ charCodes "there. Bye. ")
       then Some (charCodes "Hi" ++ [10%N] ++ charCodes "there. Bye. ")
       else None.
Proof.
  apply (line_terminator_blocks_cut
           (charCodes "Hi" ++ [10%N] ++ charCodes "there. Bye. ") 2 10%N).
  - reflexivity.
  - reflexivity.
  - intros j Hj (Hk & _ & t & Ht & Htt & _).
    destruct j as [| [| j]]; [lia | | lia].
    vm_compute in Ht. injection Ht as <-. discriminate.
Defined.

(** X8.  A fragment boundary counts as the end of a sentence: when the
    buffer ends with [.], [!] or [?], has something before it and holds no
    line terminator, a chunk is cut, whatever the next fragment will bring. *)
Theorem terminator_at_end_cuts (p : jstring) (t : N) :
  p <> [] ->
  Forall (fun c => is_line_terminator c = false) p ->
  is_terminator t = true ->
  exists m, chunking (p ++ [t]) = Some m /\ m <> [].
Proof.
  intros Hp Hall Ht.
  assert (sentence_end (p ++ [t]) (length p)) as Hend.
  { split; [destruct p; [contradiction | simpl; lia] |].
    split; [rewrite take_app_length; exact Hall |].
    exists t. split; [apply list_lookup_middle; reflexivity |].
    split; [exact Ht |].
    rewrite drop_ge by (rewrite length_app; simpl; lia). reflexivity. }
  destruct (sentence_match (p ++ [t])) as [m |] eqn:E.
  - exists m. unfold chunking. rewrite E. split; [reflexivity |].
    destruct (sentence_match_prefix _ _ E) as [Hl _].
    destruct m; [simpl in Hl; lia | discriminate].
  - exfalso. apply (sentence_match_none _ E (length p)).
    apply cut_at_sentence_end. exact Hend.
Qed.

Lemma terminator_at_end_cuts_witness :
  exists m, chunking (charCodes "Pi is 3" ++ [46%N]) = Some m /\ m <> [].
Proof.
  apply (terminator_at_end_cuts (charCodes "Pi is 3") 46%N).
  - discriminate.
  - vm_compute. repeat constructor.
  - reflexivity.
Defined.

(** X9.  What [chunking] returns is never empty and is a prefix of the
    buffer, the two conditions under which the stream accepts it. *)
Theorem chunking_returns_prefix (buf m : jstring) :
  chunking buf = Some m ->
  m <> [] /\ exists rest, buf = m ++ rest.
Proof.
  intros H. destruct (chunking_prefix buf m H) as [Hl Hp].
  split; [destruct m; [simpl in Hl; lia | discriminate] | exact Hp].
Qed.

Lemma chunking_returns_prefix_witness :
  charCodes "Hi. " <> []
  /\ exists rest, charCodes "Hi. You" = charCodes "Hi. " ++ rest.
Proof.
  apply (chunking_returns_prefix (charCodes "Hi. You") (charCodes "Hi. ")).
  vm_compute. reflexivity.
Defined.

(** X10.  Between two fragments the buffer holds at most 120 code units
    and nothing that can be cut, whatever the fragments were. *)
Theorem buffer_stays_short (fragments : list jstring) (buffer : jstring) :
  length buffer <= 120 ->
  length (buffer_after buffer fragments) <= 120
  /\ (fragments <> [] -> chunking (buffer_after buffer fragments) = None).
Proof.
  revert buffer. induction fragments as [| f rest IH]; intros buffer Hb.
  - split; [exact Hb | contradiction].
  - assert (chunking (snd (transform buffer f)) = None) as Hnone
      by apply transform_spec.
    assert (length (snd (transform buffer f)) <= 120) as Hshort.
    { unfold chunking in Hnone.
      destruct (sentence_match (snd (transform buffer f))); [discriminate |].
      destruct (120 <? length (snd (transform buffer f))) eqn:E;
        [discriminate | apply Nat.ltb_ge in E; exact E]. }
    destruct (IH (snd (transform buffer f)) Hshort) as [H1 H2].
    split; [exact H1 |]. intros _.
    destruct rest as [| g rest]; [exact Hnone | apply H2; discriminate].
Qed.

Lemma buffer_stays_short_witness :
  length (buffer_after [] (repeat [97%N] 200)) <= 120
  /\ (repeat [97%N] 200 <> [] ->
      chunking (buffer_after [] (repeat [97%N] 200)) = None).
Proof.
  apply (buffer_stays_short (repeat [97%N] 200) []). simpl. lia.
Defined.

(** ** Utterances are trimmed *)

Lemma dropWhile_clean s : starts_clean (dropWhile is_space s).
Proof.
  induction s as [| c s IH]; simpl; [exact I |].
  destruct (is_space c) eqn:E; [exact IH | exact E].
Qed.

Lemma dropWhile_snoc_clean s c :
  is_space c = false ->
  dropWhile is_space (s ++ [c]) = dropWhile is_space s ++ [c].
Proof.
  intros Hc. induction s as [| x s IH]; simpl.
  - rewrite Hc. reflexivity.
  - destruct (is_space x); [exact IH | reflexivity].
Qed.

Lemma trim_trimmed s : trimmed (trim s).
Proof.
  unfold trimmed, trim. rewrite rev_involutive.
  split; [| apply dropWhile_clean].
  pose proof (dropWhile_clean s) as Hc.
  destruct (dropWhile is_space s) as [| c l]; [exact I |].
  simpl in Hc. cbn [rev]. rewrite dropWhile_snoc_clean by exact Hc.
  rewrite rev_app_distr. exact Hc.
Qed.

Lemma dropWhile_id s : starts_clean s -> dropWhile is_space s = s.
Proof. destruct s as [| c s]; simpl; [reflexivity | intros ->; reflexivity]. Qed.

Lemma trimmed_trim s : trimmed s -> trim s = s.
Proof.
  intros [H1 H2]. unfold trim.
  rewrite (dropWhile_id s H1), (dropWhile_id (rev s) H2).
  apply rev_involutive.
Qed.

Lemma utterances_trimmed chunks :
  Forall (fun u => u <> [] /\ trimmed u /\ trim u = u) (utterances chunks).
Proof.
  induction chunks as [| c rest IH]; [constructor |].
  unfold utterances in *. simpl. unfold sentence_of at 1.
  destruct (truthy (trim c)) eqn:E; [| exact IH].
  constructor; [| exact IH].
  split; [destruct (trim c); [discriminate | discriminate] |].
  split; [apply trim_trimmed | apply trimmed_trim, trim_trimmed].
Qed.

End SegmenterMore.

Module WorkerMore.
Import Js Segmenter Worker Turn SegmenterFacts WorkerFacts Sentences
       SegmenterMore Channel.

Local Open Scope nat_scope.

(** ** Text frames *)

(** X11.  A text frame that is not the clear command never touches the
    history and leaves the listener idle.  It is ignored without any event,
    unless it is not JSON or is [null]: then one error event is sent. *)
Theorem other_text_frames_are_harmless (h : list message) (p : parse_result) :
  (forall msg, p = Parsed msg -> is_clear msg = false) ->
  msgHistory (handleSession h (TextFrame p)) = h
  /\ ctl (handleSession h (TextFrame p)) = Idle
  /\ match p with
     | ParseThrows e =>
         trace (handleSession h (TextFrame p)) = [Sent (OError (error_text e))]
     | Parsed JNull =>
         exists text,
           trace (handleSession h (TextFrame p)) = [Sent (OError text)]
     | Parsed _ => trace (handleSession h (TextFrame p)) = []
     end.
Proof.
  intros Hnot. destruct p as [e | msg].
  - repeat split.
  - specialize (Hnot msg eq_refl). unfold is_clear in Hnot.
    unfold handleSession.
    destruct msg as [| b | n | s | items | fields];
      try (cbn; repeat split; eauto; fail).
    cbn [get_property] in *.
    destruct (is_string (lookup_field (charCodes "type") fields) "cmd");
      [| repeat split].
    cbn [andb] in Hnot. rewrite Hnot. repeat split.
Qed.

Lemma other_text_frames_are_harmless_witness :
  msgHistory (handleSession [user_turn (charCodes "hi")]
                (TextFrame (Parsed (JObject [(charCodes "type",
                                              JString (charCodes "cmd"))]))))
    = [user_turn (charCodes "hi")]
  /\ ctl (handleSession [user_turn (charCodes "hi")]
            (TextFrame (Parsed (JObject [(charCodes "type",
                                          JString (charCodes "cmd"))]))))
     = Idle
  /\ trace (handleSession [user_turn (charCodes "hi")]
              (TextFrame (Parsed (JObject [(charCodes "type",
                                            JString (charCodes "cmd"))]))))
     = [].
Proof.
  apply (other_text_frames_are_harmless [user_turn (charCodes "hi")]
           (Parsed (JObject [(charCodes "type", JString (charCodes "cmd"))]))).
  intros msg H. injection H as <-. reflexivity.
Defined.

(** ** The channel of status, text and error events *)

Section ControlChannel.
Variable btoa_bytes : list Z -> option jstring.

Local Abbreviation results_of := (results_of btoa_bytes).
Local Abbreviation step := (step btoa_bytes).
Local Abbreviation run := (run btoa_bytes).

Lemma control_sent_app t1 t2 :
  control_sent (t1 ++ t2) = control_sent t1 ++ control_sent t2.
Proof. unfold control_sent. rewrite sent_app. apply List.filter_app. Qed.

Lemma control_sent_started q q' : control_sent (started q q') = [].
Proof.
  unfold started. destruct (running q); [reflexivity |].
  destruct (running q'); reflexivity.
Qed.

Lemma control_sent_task j reply a :
  control_sent (trace (task_settles btoa_bytes j reply a))
  = control_sent (trace a).
Proof.
  unfold task_settles. cbn [trace].
  rewrite !control_sent_app, control_sent_started.
  replace (control_sent [TtsReturn (job_index j) (textToSpeech btoa_bytes reply)])
    with (@nil out_event) by reflexivity.
  replace (control_sent match textToSpeech btoa_bytes reply with
                        | Some b => _ | None => _ end)
    with (@nil out_event).
  2:{ destruct (textToSpeech btoa_bytes reply) as [b |];
        [destruct (truthy b) |]; reflexivity. }
  rewrite !app_nil_r. reflexivity.
Qed.

Lemma control_sent_commit a :
  control_sent (trace (commit a))
  = control_sent (trace a) ++ [OStatus status_idle].
Proof.
  cbn [commit goto send emit push trace]. rewrite control_sent_app.
  reflexivity.
Qed.

Lemma thrown_of_app s1 s2 :
  thrown_of (s1 ++ s2)
  = match thrown_of s1 with Some e => Some e | None => thrown_of s2 end.
Proof.
  induction s1 as [| ev rest IH]; [reflexivity |].
  destruct ev; simpl; try exact IH. reflexivity.
Qed.

Lemma thrown_of_failed s :
  stream_failed s = false <-> thrown_of s = None.
Proof.
  unfold stream_failed. induction s as [| ev rest IH]; [tauto |].
  destruct ev; simpl; try exact IH. split; discriminate.
Qed.

Lemma thrown_of_not_failed s e : thrown_of s = Some e -> stream_failed s = true.
Proof.
  intros H. destruct (stream_failed s) eqn:E; [reflexivity |].
  apply thrown_of_failed in E. congruence.
Qed.

Lemma control_invariant h0 t s : forall a,
  run (streaming_start h0 (preamble t)) s = Some a ->
  control_sent (trace a) = expected_control btoa_bytes t s.
Proof.
  induction s as [| ev s IH] using rev_ind; intros a Hrun.
  - injection Hrun as <-. reflexivity.
  - rewrite run_snoc in Hrun.
    destruct (run (streaming_start h0 (preamble t)) s) as [a1 |] eqn:E;
      [| discriminate].
    specialize (IH a1 eq_refl).
    pose proof (turn_invariant btoa_bytes h0 s (preamble t) a1 eq_refl E)
      as Hinv.
    pose proof (step_preserves btoa_bytes h0 s a1 ev a Hinv Hrun) as Hinv'.
    pose proof (inv_ctl _ _ _ _ Hinv) as Hctl.
    pose proof (inv_ctl _ _ _ _ Hinv') as Hctl'.
    unfold expected_control, ending in *.
    rewrite submitted_of_app, thrown_of_app, length_app, repeat_app.
    unfold expected_ctl in Hctl, Hctl'.
    unfold Worker.step in Hrun.
    destruct ev as [reply | c | | e | reply].
    + destruct (ctl a1) eqn:C; try discriminate.
      exfalso. apply (expected_ctl_not_transcribing btoa_bytes s).
      unfold expected_ctl. congruence.
    + (* a chunk *)
      destruct (ctl a1) eqn:C; try discriminate. injection Hrun as <-.
      symmetry in Hctl.
      destruct (expected_ctl_chunk btoa_bytes s Hctl) as [Hf He].
      pose proof (proj1 (thrown_of_failed s) Hf) as Ht.
      rewrite Ht, He in IH. cbn [andb] in IH. rewrite app_nil_r in IH.
      rewrite Ht, stream_ended_snoc, He. cbn [thrown_of orb is_end andb].
      rewrite !app_nil_r.
      replace (length (submitted_of [Chunk c]))
        with (match sentence_of c with Some _ => 1 | None => 0 end)
        by (unfold submitted_of, utterances; simpl;
            destruct (sentence_of c); reflexivity).
      unfold loop_body.
      destruct (sentence_of c) as [u |].
      * cbn [trace length repeat]. rewrite !control_sent_app, IH.
        rewrite control_sent_started.
        change (control_sent [Sent (OStatus status_speaking)])
          with [OStatus status_speaking].
        rewrite app_nil_r, <- !app_assoc. reflexivity.
      * cbn [length repeat]. rewrite IH, app_nil_r. reflexivity.
    + (* the stream ends *)
      destruct (ctl a1) eqn:C; try discriminate.
      symmetry in Hctl.
      destruct (expected_ctl_chunk btoa_bytes s Hctl) as [Hf He].
      pose proof (proj1 (thrown_of_failed s) Hf) as Ht.
      rewrite Ht, He in IH. cbn [andb] in IH. rewrite app_nil_r in IH.
      rewrite Ht, stream_failed_snoc, stream_ended_snoc, Hf, He in *.
      cbn [thrown_of orb is_end is_throw andb submitted_of chunks_of
           utterances omap length repeat app] in *.
      rewrite app_nil_r.
      destruct (pq_idle (ttsQueue a1)); injection Hrun as <-.
      * rewrite control_sent_commit, IH.
        cbn [commit goto ctl] in Hctl'.
        destruct (all_answered btoa_bytes (s ++ [StreamEnd]));
          [reflexivity | discriminate].
      * cbn [goto ctl trace] in *.
        destruct (all_answered btoa_bytes (s ++ [StreamEnd]));
          [discriminate | rewrite IH, app_nil_r; reflexivity].
    + (* the stream throws *)
      destruct (ctl a1) eqn:C; try discriminate. injection Hrun as <-.
      symmetry in Hctl.
      destruct (expected_ctl_chunk btoa_bytes s Hctl) as [Hf He].
      pose proof (proj1 (thrown_of_failed s) Hf) as Ht.
      rewrite Ht, He in IH. cbn [andb] in IH. rewrite app_nil_r in IH.
      rewrite Ht.
      cbn [thrown_of submitted_of chunks_of utterances omap length repeat
           app caught goto send emit trace].
      rewrite control_sent_app, IH, app_nil_r, <- !app_assoc. reflexivity.
    + (* a synthesis call is answered *)
      destruct (running (ttsQueue a1)) as [j |] eqn:R; [| discriminate].
      cbn [thrown_of submitted_of chunks_of utterances omap length repeat].
      rewrite app_nil_r.
      rewrite stream_failed_snoc, stream_ended_snoc in *.
      cbn [is_throw is_end] in *. rewrite !orb_false_r in *.
      assert (all_answered btoa_bytes s = true ->
              all_answered btoa_bytes (s ++ [Synthesized reply]) = true)
        as Hmono.
      { unfold all_answered. intros H. apply Nat.leb_le in H.
        apply Nat.leb_le.
        rewrite submitted_of_app, (results_of_app btoa_bytes), !length_app.
        simpl. lia. }
      destruct (thrown_of s) as [e |] eqn:Ht.
      * rewrite (thrown_of_not_failed s e Ht) in Hctl.
        rewrite Hctl in Hrun. injection Hrun as <-.
        rewrite control_sent_task. exact IH.
      * apply thrown_of_failed in Ht. rewrite Ht in Hctl, Hctl'.
        destruct (stream_ended s) eqn:He; cbn [andb] in *.
        -- destruct (all_answered btoa_bytes s) eqn:Hall.
           ++ rewrite (Hmono eq_refl). rewrite Hctl in Hrun.
              injection Hrun as <-. rewrite control_sent_task. exact IH.
           ++ rewrite Hctl in Hrun. rewrite app_nil_r in IH.
              destruct (pq_idle (ttsQueue (task_settles btoa_bytes j reply a1)));
                injection Hrun as <-.
              ** rewrite control_sent_commit, control_sent_task, IH.
                 cbn [commit goto ctl] in Hctl'.
                 destruct (all_answered btoa_bytes (s ++ [Synthesized reply]));
                   [rewrite <- app_assoc; reflexivity | discriminate].
              ** rewrite control_sent_task, IH.
                 change (ctl (task_settles btoa_bytes j reply a1))
                   with (ctl a1) in Hctl'.
                 rewrite Hctl in Hctl'.
                 destruct (all_answered btoa_bytes (s ++ [Synthesized reply]));
                   [discriminate | rewrite app_nil_r; reflexivity].
        -- rewrite Hctl in Hrun. injection Hrun as <-.
           rewrite control_sent_task. rewrite app_nil_r in *. exact IH.
Qed.

Lemma in_serial_call calls : forall j i u,
  In (TtsCall i u) (serial j calls) ->
  exists k r, calls !! k = Some (u, r) /\ i = j + k.
Proof.
  induction calls as [| [v q] rest IH]; intros j i u H; [destruct H |].
  cbn [serial app] in H. destruct H as [H | [H | H]].
  - injection H as <- <-. exists 0, q. split; [reflexivity | lia].
  - discriminate.
  - apply in_app_or in H as [H | H].
    + apply in_map_iff in H as (o & Ho & _). discriminate.
    + destruct (IH (S j) i u H) as (k & r & Hk & ->).
      exists (S k), r. split; [exact Hk | lia].
Qed.

Lemma in_serial_audio calls : forall j u b,
  In (Sent (OAudio u b)) (serial j calls) ->
  exists k, calls !! k = Some (u, Some b) /\ truthy b = true.
Proof.
  induction calls as [| [v q] rest IH]; intros j u b H; [destruct H |].
  cbn [serial app] in H. destruct H as [H | [H | H]]; try discriminate.
  apply in_app_or in H as [H | H].
  - apply in_map_iff in H as (o & Ho & Hin). injection Ho as ->.
    destruct q as [b' |]; [| destruct Hin]. simpl in Hin.
    destruct (truthy b') eqn:E; [| destruct Hin].
    destruct Hin as [Hin | []]. injection Hin as <- <-.
    exists 0. split; [reflexivity | exact E].
  - destruct (IH (S j) u b H) as (k & Hk & Hb). exists (S k). auto.
Qed.

(** X12.  [textToSpeech] is only ever called on utterances: call number i
    is on the i-th trimmed, non-empty chunk, and on nothing else. *)
Theorem synthesis_called_on_utterances h audio reply t schedule a i u :
  transcribeAudio reply = Some t ->
  run (handleSession h (Binary audio)) (Transcribed reply :: schedule) = Some a ->
  In (TtsCall i u) (trace a) ->
  1 <= i
  /\ submitted_of schedule !! (i - 1) = Some u
  /\ u <> [] /\ trimmed u.
Proof.
  intros Ht Hrun Hin.
  destruct (synthesis_order_facts btoa_bytes h audio reply t schedule a Ht Hrun)
    as [Hd _].
  assert (In (TtsCall i u) (dispatch_view (trace a))) as Hin'
    by (apply List.filter_In; split; [exact Hin | reflexivity]).
  rewrite Hd in Hin'. unfold expected_dispatch in Hin'.
  assert (1 <= i /\ submitted_of schedule !! (i - 1) = Some u) as [Hi Hu].
  { apply in_app_or in Hin' as [H | H].
    - destruct (in_serial_call _ 1 i u H) as (k & r & Hk & ->).
      apply lookup_zip_with_Some in Hk as (x & y & Hxy & Hx & _).
      injection Hxy as <- <-.
      apply lookup_take_Some in Hx as [Hx _].
      split; [lia |]. replace (1 + k - 1) with k by lia. exact Hx.
    - destruct (drop (length (results_of schedule)) (submitted_of schedule))
        as [| v rest] eqn:E; [destruct H |].
      destruct H as [H | []]. injection H as <- <-.
      split; [lia |]. replace (S (length (results_of schedule)) - 1)
        with (length (results_of schedule) + 0) by lia.
      rewrite <- lookup_drop, E. reflexivity. }
  split; [exact Hi |]. split; [exact Hu |].
  pose proof (utterances_trimmed (chunks_of schedule)) as Hall.
  rewrite Forall_lookup in Hall.
  destruct (Hall (i - 1) u Hu) as (H1 & H2 & _). auto.
Qed.

(** X13.  An audio event always carries the text of an utterance and the
    non-empty audio that [textToSpeech] returned for it. *)
Theorem audio_events_carry_answers h audio reply t schedule a u b :
  transcribeAudio reply = Some t ->
  run (handleSession h (Binary audio)) (Transcribed reply :: schedule) = Some a ->
  In (OAudio u b) (sent (trace a)) ->
  b <> []
  /\ exists k,
       submitted_of schedule !! k = Some u
       /\ results_of schedule !! k = Some (Some b).
Proof.
  intros Ht Hrun Hin.
  destruct (synthesis_order_facts btoa_bytes h audio reply t schedule a Ht Hrun)
    as [Hd _].
  assert (In (Sent (OAudio u b)) (dispatch_view (trace a))) as Hin'.
  { apply List.filter_In. split; [| reflexivity].
    unfold sent in Hin. apply list_elem_of_In in Hin.
    apply list_elem_of_omap in Hin as (e & He & Heq).
    destruct e; try discriminate. injection Heq as ->.
    apply list_elem_of_In. exact He. }
  rewrite Hd in Hin'. unfold expected_dispatch in Hin'.
  apply in_app_or in Hin' as [H | H].
  - destruct (in_serial_audio _ 1 u b H) as (k & Hk & Hb).
    apply lookup_zip_with_Some in Hk as (x & y & Hxy & Hx & Hy).
    injection Hxy as <- <-. apply lookup_take_Some in Hx as [Hx _].
    split; [destruct b; [discriminate | discriminate] |]. exists k. auto.
  - destruct (drop (length (results_of schedule)) (submitted_of schedule));
      [destruct H | destruct H as [H | []]; discriminate].
Qed.

(** X14.  The events of a turn other than audio events are fixed by its
    schedule: the processing status, the transcript, one "Speaking" status
    on entry and one per utterance, and in the end the error event if the
    completion stream threw, or the idle status once the stream has ended
    and every call has been answered. *)
Theorem control_channel_of_turn h audio reply t schedule a :
  transcribeAudio reply = Some t ->
  run (handleSession h (Binary audio)) (Transcribed reply :: schedule) = Some a ->
  control_sent (trace a) = expected_control btoa_bytes t schedule.
Proof.
  intros Ht Hrun. cbn [Worker.run] in Hrun.
  rewrite (audio_turn_start btoa_bytes h audio reply t Ht) in Hrun.
  apply (control_invariant (h ++ [user_turn t])). exact Hrun.
Qed.

(** X15.  The history of a turn is the user turn, followed by at most the
    assistant turn; the assistant turn is there only when the stream has
    ended, every submitted utterance has been answered and the listener is
    idle again. *)
Theorem assistant_turn_waits_for_queue h audio reply t schedule a :
  transcribeAudio reply = Some t ->
  run (handleSession h (Binary audio)) (Transcribed reply :: schedule) = Some a ->
  (msgHistory a = h ++ [user_turn t]
   \/ msgHistory a
      = h ++ [user_turn t;
              assistant_turn (join_spaces (submitted_of schedule))])
  /\ (msgHistory a <> h ++ [user_turn t] ->
      stream_ended schedule = true
      /\ stream_failed schedule = false
      /\ length (results_of schedule) = length (submitted_of schedule)
      /\ ctl a = Idle).
Proof.
  intros Ht Hrun.
  pose proof (audio_turn_inv btoa_bytes h audio reply t schedule a Ht Hrun)
    as [H1 _ _ _ _ H6 H7 _].
  unfold expected_history in H7. unfold expected_ctl in H6.
  destruct (stream_failed schedule); [split; [left; exact H7 | congruence] |].
  destruct (stream_ended schedule); cbn [andb] in H7;
    [| split; [left; exact H7 | congruence]].
  destruct (all_answered btoa_bytes schedule) eqn:Hall;
    [| split; [left; exact H7 | congruence]].
  apply Nat.leb_le in Hall. split.
  - right. rewrite H7, <- app_assoc. reflexivity.
  - intros _. repeat split; [lia | exact H6].
Qed.

(** X16.  The audio events do not depend on the way the arrivals of chunks
    and answers interleave: two schedules with the same chunks and the same
    answers give the same audio events in the same order. *)
Theorem audio_order_ignores_interleaving h audio reply t s1 s2 a1 a2 :
  transcribeAudio reply = Some t ->
  run (handleSession h (Binary audio)) (Transcribed reply :: s1) = Some a1 ->
  run (handleSession h (Binary audio)) (Transcribed reply :: s2) = Some a2 ->
  chunks_of s1 = chunks_of s2 ->
  replies_of s1 = replies_of s2 ->
  audio_sent (trace a1) = audio_sent (trace a2).
Proof.
  intros Ht H1 H2 Hc Hr.
  destruct (synthesis_order_facts btoa_bytes h audio reply t s1 a1 Ht H1)
    as [_ ->].
  destruct (synthesis_order_facts btoa_bytes h audio reply t s2 a2 Ht H2)
    as [_ ->].
  unfold submitted_of, Turn.results_of. rewrite Hc, Hr. reflexivity.
Qed.

(** X17.  Every turn can be completed, whatever the chunks and whatever
    the answers, failures included: streaming all the chunks and then
    answering one call per utterance ends idle, with the user turn and the
    assistant turn (the joined utterances, spoken or not) in the history and
    the audio events of the calls that succeeded. *)
Theorem every_turn_can_complete h audio reply t chunks replies :
  transcribeAudio reply = Some t ->
  length replies = length (utterances chunks) ->
  exists a,
    run (handleSession h (Binary audio))
        (Transcribed reply
           :: map Chunk chunks ++ StreamEnd :: map Synthesized replies)
      = Some a
    /\ ctl a = Idle
    /\ msgHistory a
       = h ++ [user_turn t; assistant_turn (join_spaces (utterances chunks))]
    /\ audio_sent (trace a)
       = deliveries (zip (utterances chunks)
                         (map (textToSpeech btoa_bytes) replies)).
Proof.
  intros Ht Hlen.
  destruct (turn_completes btoa_bytes h audio reply t chunks replies Ht Hlen)
    as (a & Hrun & Hctl & Hh).
  exists a. split; [exact Hrun |]. split; [exact Hctl |].
  split; [exact Hh |].
  destruct (synthesis_order_facts btoa_bytes h audio reply t _ a Ht Hrun)
    as [_ ->].
  unfold submitted_of, Turn.results_of.
  rewrite chunks_of_app, replies_of_app, chunks_of_chunks, replies_of_chunks.
  replace (chunks_of (StreamEnd :: map Synthesized replies))
    with (chunks_of (map Synthesized replies)) by reflexivity.
  replace (replies_of (StreamEnd :: map Synthesized replies))
    with (replies_of (map Synthesized replies)) by reflexivity.
  rewrite chunks_of_answers, replies_of_answers, app_nil_r. reflexivity.
Qed.


End ControlChannel.

(** ** The statements on the concrete session *)

Lemma synthesis_called_on_utterances_witness :
  1 <= 2
  /\ submitted_of Demo.schedule_ok !! (2 - 1) = Some (charCodes "Two.")
  /\ charCodes "Two." <> [] /\ trimmed (charCodes "Two.").
Proof.
  apply (synthesis_called_on_utterances Demo.no_base64 [] [82; 73; 70; 70]%Z
           Demo.heard (charCodes "hi") Demo.schedule_ok Demo.final_ok
           2 (charCodes "Two.")).
  - reflexivity.
  - vm_compute. reflexivity.
  - vm_compute. repeat first [left; reflexivity | right].
Defined.

Lemma audio_events_carry_answers_witness :
  charCodes "Qg==" <> []
  /\ exists k,
       submitted_of Demo.schedule_ok !! k = Some (charCodes "Two.")
       /\ results_of Demo.no_base64 Demo.schedule_ok !! k
          = Some (Some (charCodes "Qg==")).
Proof.
  apply (audio_events_carry_answers Demo.no_base64 [] [82; 73; 70; 70]%Z
           Demo.heard (charCodes "hi") Demo.schedule_ok Demo.final_ok
           (charCodes "Two.") (charCodes "Qg==")).
  - reflexivity.
  - vm_compute. reflexivity.
  - vm_compute. repeat first [left; reflexivity | right].
Defined.

Lemma control_channel_of_turn_witness :
  control_sent (trace Demo.final)
  = expected_control Demo.no_base64 (charCodes "hi") Demo.schedule.
Proof.
  apply (control_channel_of_turn Demo.no_base64 [] [82; 73; 70; 70]%Z
           Demo.heard (charCodes "hi") Demo.schedule Demo.final).
  - reflexivity.
  - vm_compute. reflexivity.
Defined.

Example control_channel_of_demo :
  control_sent (trace Demo.final)
  = [OStatus status_processing; OText (charCodes "hi");
     OStatus status_speaking; OStatus status_speaking;
     OStatus status_speaking; OStatus status_speaking; OStatus status_idle]
  /\ control_sent (trace Demo.final_broken)
     = [OStatus status_processing; OText (charCodes "hi");
        OStatus status_speaking; OStatus status_speaking;
        OError (charCodes "stream reset")].
Proof. split; vm_compute; reflexivity. Qed.

Lemma assistant_turn_waits_for_queue_witness :
  (msgHistory Demo.final = [] ++ [user_turn (charCodes "hi")]
   \/ msgHistory Demo.final
      = [] ++ [user_turn (charCodes "hi");
               assistant_turn (join_spaces (submitted_of Demo.schedule))])
  /\ (msgHistory Demo.final <> [] ++ [user_turn (charCodes "hi")] ->
      stream_ended Demo.schedule = true
      /\ stream_failed Demo.schedule = false
      /\ length (results_of Demo.no_base64 Demo.schedule)
         = length (submitted_of Demo.schedule)
      /\ ctl Demo.final = Idle).
Proof.
  apply (assistant_turn_waits_for_queue Demo.no_base64 [] [82; 73; 70; 70]%Z
           Demo.heard (charCodes "hi") Demo.schedule Demo.final).
  - reflexivity.
  - vm_compute. reflexivity.
Defined.

Lemma audio_order_ignores_interleaving_witness :
  audio_sent (trace Demo.final_ok) = audio_sent (trace Demo2.final_ok').
Proof.
  apply (audio_order_ignores_interleaving Demo.no_base64 []
           [82; 73; 70; 70]%Z Demo.heard (charCodes "hi")
           Demo.schedule_ok Demo2.schedule_ok').
  - reflexivity.
  - vm_compute. reflexivity.
  - vm_compute. reflexivity.
  - reflexivity.
  - reflexivity.
Defined.

Lemma every_turn_can_complete_witness :
  exists a,
    run Demo.no_base64 (handleSession [] (Binary []))
        (Transcribed Demo.heard
           :: map Chunk [charCodes "One. "; charCodes "  "; charCodes "Two."]
              ++ StreamEnd
              :: map Synthesized
                   [TtsThrows OtherValue; TtsString (charCodes "Qg==")])
      = Some a
    /\ ctl a = Idle
    /\ msgHistory a
       = [] ++ [user_turn (charCodes "hi");
                assistant_turn
                  (join_spaces
                     (utterances
                        [charCodes "One. "; charCodes "  "; charCodes "Two."]))]
    /\ audio_sent (trace a)
       = deliveries
           (zip (utterances
                   [charCodes "One. "; charCodes "  "; charCodes "Two."])
                (map (textToSpeech Demo.no_base64)
                     [TtsThrows OtherValue; TtsString (charCodes "Qg==")])).
Proof.
  apply (every_turn_can_complete Demo.no_base64 [] [] Demo.heard
           (charCodes "hi")
           [charCodes "One. "; charCodes "  "; charCodes "Two."]
           [TtsThrows OtherValue; TtsString (charCodes "Qg==")]).
  - reflexivity.
  - reflexivity.
Defined.


End WorkerMore.

Module ClientFacts.
Import Js Segmenter Worker Turn SegmenterFacts WorkerFacts Channel WorkerMore
       Client.

Local Open Scope nat_scope.

Section Player.
Variable playable : jstring -> bool.

Local Abbreviation page_run := (page_run playable).
Local Abbreviation page_step := (page_step playable).
Local Abbreviation line := (line playable).

(** ** The queue of clips *)

Lemma start_next_spec queue : forall log,
  let '(q, playing, log') := start_next playable queue log in
  map clip_of log' ++ q = map clip_of log ++ queue
  /\ (q <> [] -> playing = true)
  /\ (playing = false -> started_count log' = started_count log)
  /\ (playing = true ->
      started_count log' = S (started_count log)
      /\ exists pre c, log' = pre ++ [Started (started_count log) c]).
Proof.
  induction queue as [| c rest IH]; intros log.
  - simpl. rewrite app_nil_r. repeat split; try congruence.
  - cbn [start_next]. destruct (playable (clip_audio c)).
    + rewrite map_app, <- app_assoc. simpl.
      repeat split; try congruence.
      * unfold started_count. rewrite List.filter_app, length_app. simpl. lia.
      * exists log, c. reflexivity.
    + specialize (IH (log ++ [Skipped c])).
      destruct (start_next playable rest (log ++ [Skipped c]))
        as [[q playing] log'].
      assert (started_count (log ++ [Skipped c]) = started_count log) as Hc.
      { unfold started_count. rewrite List.filter_app, length_app. simpl. lia. }
      rewrite Hc in IH. destruct IH as (H1 & H2 & H3 & H4).
      rewrite map_app, <- app_assoc in H1. auto.
Qed.

Definition page_inv (received : list clip) (p : page) : Prop :=
  map clip_of (plays p) ++ audioQueue p = received
  /\ (audioQueue p <> [] -> isPlaying p = true).

Lemma playNextInQueue_inv received p :
  map clip_of (plays p) ++ audioQueue p = received ->
  (isPlaying p = true \/ True) ->
  page_inv received (playNextInQueue playable p).
Proof.
  intros H _. unfold playNextInQueue, page_inv.
  destruct (isPlaying p) eqn:E; [rewrite E; auto |].
  pose proof (start_next_spec (audioQueue p) (plays p)) as Hs.
  destruct (start_next playable (audioQueue p) (plays p)) as [[q playing] log].
  destruct Hs as (H1 & H2 & _). cbn [plays audioQueue isPlaying].
  split; [congruence | exact H2].
Qed.

Lemma page_step_inv received p ev :
  page_inv received p ->
  page_inv (received ++ clips_received [ev]) (page_step p ev).
Proof.
  intros [H1 H2]. destruct ev as [data | n]; cbn [page_step].
  - destruct data as [text | text | text audio | text];
      cbn [clips_received omap onmessage];
      try (rewrite app_nil_r; split; assumption).
    apply playNextInQueue_inv; [| auto].
    cbn [plays audioQueue]. rewrite app_assoc, H1. reflexivity.
  - cbn [clips_received omap]. rewrite app_nil_r.
    apply playNextInQueue_inv; [exact H1 | auto].
Qed.

Lemma clips_received_app e1 e2 :
  clips_received (e1 ++ e2) = clips_received e1 ++ clips_received e2.
Proof. apply omap_app. Qed.

Lemma page_run_snoc p evs ev :
  page_run p (evs ++ [ev]) = page_step (page_run p evs) ev.
Proof. unfold Client.page_run. rewrite fold_left_app. reflexivity. Qed.

(** X19.  Whatever arrives and whenever clips end, the clips are taken
    from the queue in the order of their arrival, each one once: the clips
    started or given up so far, followed by those still queued, are the clips
    received.  And playback never stalls: while a clip waits, one is playing. *)
Theorem clips_play_in_arrival_order (evs : list page_event) :
  map clip_of (plays (page_run page_start evs))
    ++ audioQueue (page_run page_start evs)
  = clips_received evs
  /\ (audioQueue (page_run page_start evs) <> [] ->
      isPlaying (page_run page_start evs) = true).
Proof.
  change (page_inv (clips_received evs) (page_run page_start evs)).
  induction evs as [| ev evs IH] using rev_ind.
  - split; [reflexivity | intros H; contradiction].
  - rewrite page_run_snoc, clips_received_app. apply page_step_inv. exact IH.
Qed.

(** ** One clip at a time *)


Lemma playNextInQueue_player p over :
  player_inv p over -> player_inv (playNextInQueue playable p) over.
Proof.
  intros [H1 H2]. unfold playNextInQueue.
  case_eq (isPlaying p); intros E; [split; assumption |].
  pose proof (start_next_spec (audioQueue p) (plays p)) as Hs.
  destruct (start_next playable (audioQueue p) (plays p)) as [[q playing] log].
  destruct Hs as (_ & _ & H3 & H4). unfold player_inv.
  cbn [plays isPlaying]. destruct playing.
  - destruct (H4 eq_refl) as [Hc _]. rewrite Hc. split.
    + intros n Hn. specialize (H1 n Hn). lia.
    + intros n Hn Hover. split; [reflexivity |].
      destruct (Nat.eq_dec n (started_count (plays p))) as [-> | Hne];
        [reflexivity |].
      assert (n < started_count (plays p)) as Hlt by lia.
      destruct (H2 n Hlt Hover) as [Hp _]. congruence.
  - rewrite (H3 eq_refl). split; [exact H1 |].
    intros n Hn Hover. destruct (H2 n Hn Hover) as [Hp _]. congruence.
Qed.

Lemma settles_once_inv evs : forall p over,
  player_inv p over ->
  settles_once playable p over evs ->
  player_inv (page_run p evs) (rev (settled_ids evs) ++ over).
Proof.
  induction evs as [| ev evs IH]; intros p over Hinv Hok; [exact Hinv |].
  destruct Hok as [Hev Hrest].
  change (page_run p (ev :: evs)) with (page_run (page_step p ev) evs).
  destruct ev as [data | n].
  - change (settled_ids (Received data :: evs)) with (settled_ids evs).
    apply IH; [| exact Hrest].
    destruct data as [text | text | text audio | text]; try exact Hinv.
    apply playNextInQueue_player. exact Hinv.
  - change (settled_ids (Settled n :: evs)) with (n :: settled_ids evs).
    cbn [rev]. rewrite <- app_assoc. apply IH; [| exact Hrest].
    destruct Hev as [Hn Hfresh]. destruct Hinv as [H1 H2].
    destruct (H2 n Hn Hfresh) as [_ Hlast].
    apply playNextInQueue_player. split; cbn [plays isPlaying].
    + intros m [<- | Hm]; [exact Hn | apply H1; exact Hm].
    + intros m Hm Hover. exfalso.
      assert (m <> n) as Hne by (intros ->; apply Hover; left; reflexivity).
      assert (~ In m over) as Hover' by (intros Hi; apply Hover; right; exact Hi).
      destruct (H2 m Hm Hover') as [_ Hlast']. lia.
Qed.

(** X20.  When every audio element reports once that its clip is over, no
    two clips sound at the same time: a clip that was started and has not
    been reported over is the last one started, and the playing flag is
    set. *)
Theorem one_clip_at_a_time (evs : list page_event) (n : nat) :
  settles_once playable page_start [] evs ->
  n < started_count (plays (page_run page_start evs)) ->
  ~ In n (settled_ids evs) ->
  isPlaying (page_run page_start evs) = true
  /\ S n = started_count (plays (page_run page_start evs)).
Proof.
  intros Hok Hn Hover.
  assert (player_inv page_start []) as H0.
  { split; [intros m [] | intros m Hm; inversion Hm]. }
  destruct (settles_once_inv evs page_start [] H0 Hok) as [_ H2].
  apply H2; [exact Hn |].
  rewrite app_nil_r, <- in_rev. exact Hover.
Qed.

(** ** The transcript and the status line *)


Lemma messages_playNextInQueue p :
  messages (playNextInQueue playable p) = messages p
  /\ status (playNextInQueue playable p) = status p
  /\ isSpeaking (playNextInQueue playable p) = isSpeaking p.
Proof.
  unfold playNextInQueue. destruct (isPlaying p); [auto |].
  destruct (start_next playable (audioQueue p) (plays p)) as [[q playing] log].
  auto.
Qed.

Lemma received_app e1 e2 : received (e1 ++ e2) = received e1 ++ received e2.
Proof. apply omap_app. Qed.

Lemma messages_run p evs :
  messages (page_run p evs) = fold_left show (received evs) (messages p).
Proof.
  induction evs as [| ev evs IH] using rev_ind; [reflexivity |].
  rewrite page_run_snoc, received_app, fold_left_app, <- IH.
  destruct ev as [data | n]; cbn [page_step received omap fold_left].
  - destruct data as [text | text | text audio | text]; try reflexivity.
    cbn [onmessage show].
    rewrite (proj1 (messages_playNextInQueue _)). reflexivity.
  - unfold settled. rewrite (proj1 (messages_playNextInQueue _)). reflexivity.
Qed.

Lemma append_assistant_user ms t text :
  append_assistant text (ms ++ [user_turn t])
  = ms ++ [user_turn t] ++ [assistant_turn text].
Proof.
  unfold append_assistant. rewrite rev_unit. cbn [msg_role user_turn].
  rewrite <- app_assoc. reflexivity.
Qed.

Lemma append_assistant_assistant ms c text :
  append_assistant text (ms ++ [assistant_turn c])
  = ms ++ [assistant_turn (c ++ [32%N] ++ text)].
Proof.
  unfold append_assistant. rewrite rev_unit. cbn [msg_role assistant_turn content].
  rewrite rev_involutive. reflexivity.
Qed.


Lemma show_audio_texts ms t os :
  Forall (fun o => is_text o = false) os ->
  fold_left show os (ms ++ [user_turn t])
  = ms ++ [user_turn t] ++ assistant_line (omap audio_text os).
Proof.
  induction os as [| o os IH] using rev_ind; intros Hall.
  - cbn. reflexivity.
  - apply Forall_app in Hall as [Hos Ho]. inversion Ho as [| ? ? Hnt _]; subst.
    rewrite fold_left_app, omap_app, (IH Hos). cbn [fold_left].
    destruct o as [text | text | text audio | text]; try discriminate;
      cbn [show omap audio_text]; rewrite ?app_nil_r; try reflexivity.
    destruct (omap audio_text os) as [| u us] eqn:E.
    + cbn [assistant_line app]. apply append_assistant_user.
    + cbn [assistant_line].
      replace (ms ++ [user_turn t] ++ [assistant_turn (join_spaces (u :: us))])
        with ((ms ++ [user_turn t]) ++ [assistant_turn (join_spaces (u :: us))])
        by (rewrite <- app_assoc; reflexivity).
      rewrite append_assistant_assistant, <- app_assoc.
      rewrite <- join_spaces_snoc by discriminate. reflexivity.
Qed.

Lemma omap_audio_text_filter os :
  omap audio_text (List.filter is_audio os) = omap audio_text os.
Proof.
  induction os as [| o os IH]; [reflexivity |].
  destruct o; cbn [List.filter is_audio]; try exact IH.
  change (text :: omap audio_text (List.filter is_audio os)
          = text :: omap audio_text os).
  f_equal. exact IH.
Qed.


Lemma line_audio st text audio : line st (OAudio text audio) = st.
Proof.
  unfold line. cbn [onmessage].
  rewrite (proj1 (proj2 (messages_playNextInQueue _))).
  rewrite (proj2 (proj2 (messages_playNextInQueue _))).
  destruct st; reflexivity.
Qed.

Lemma status_run p evs :
  (status (page_run p evs), isSpeaking (page_run p evs))
  = fold_left line (List.filter (fun o => negb (is_audio o)) (received evs))
      (status p, isSpeaking p).
Proof.
  induction evs as [| ev evs IH] using rev_ind; [reflexivity |].
  rewrite page_run_snoc, received_app, List.filter_app, fold_left_app, <- IH.
  destruct ev as [data | n]; cbn [page_step received omap List.filter fold_left].
  - destruct data as [text | text | text audio | text];
      cbn [is_audio negb fold_left]; try reflexivity.
    cbn [onmessage].
    rewrite (proj1 (proj2 (messages_playNextInQueue _))).
    rewrite (proj2 (proj2 (messages_playNextInQueue _))). reflexivity.
  - unfold settled.
    rewrite (proj1 (proj2 (messages_playNextInQueue _))).
    rewrite (proj2 (proj2 (messages_playNextInQueue _))). reflexivity.
Qed.

Lemma line_preamble st t :
  fold_left line
    [OStatus status_processing; OText t; OStatus status_speaking] st
  = (status_speaking, true).
Proof. destruct st as [s b]. vm_compute. reflexivity. Qed.

Lemma line_speaking_repeat k :
  fold_left line (repeat (OStatus status_speaking) k) (status_speaking, true)
  = (status_speaking, true).
Proof. induction k as [| k IH]; [reflexivity | exact IH]. Qed.

End Player.

Section Turns.
Variable btoa_bytes : list Z -> option jstring.
Variable playable : jstring -> bool.

Local Abbreviation run := (run btoa_bytes).
Local Abbreviation page_run := (page_run playable).

Lemma step_trace_grows a ev a' :
  step btoa_bytes a ev = Some a' -> exists tl, trace a' = trace a ++ tl.
Proof.
  unfold step. intros H.
  destruct ev as [reply | chunk | | e | reply].
  - destruct (ctl a); try discriminate. inversion H; subst.
    unfold handleAudioInput_transcribed.
    destruct (transcribeAudio reply) as [t |];
      [destruct (truthy t) |]; cbn; rewrite <- ?app_assoc; eauto.
  - destruct (ctl a); try discriminate. inversion H; subst.
    unfold loop_body. destruct (sentence_of chunk); cbn; eauto.
    exists []. rewrite app_nil_r. reflexivity.
  - destruct (ctl a); try discriminate.
    destruct (pq_idle (ttsQueue a)); inversion H; subst; cbn; eauto.
    exists []. rewrite app_nil_r. reflexivity.
  - destruct (ctl a); try discriminate. inversion H; subst. cbn. eauto.
  - destruct (running (ttsQueue a)) as [j |]; [| discriminate].
    destruct (ctl a);
      try (inversion H; subst; cbn [task_settles trace]; eauto).
    destruct (pq_idle (ttsQueue (task_settles btoa_bytes j reply a)));
      inversion H; subst; cbn [task_settles trace commit goto send emit push];
      rewrite <- ?app_assoc; eauto.
Qed.

Lemma run_trace_grows s : forall a a',
  run a s = Some a' -> exists tl, trace a' = trace a ++ tl.
Proof.
  induction s as [| ev s IH]; intros a a' H.
  - inversion H; subst. exists []. rewrite app_nil_r. reflexivity.
  - cbn [Worker.run] in H. destruct (step btoa_bytes a ev) as [a1 |] eqn:E;
      [| discriminate].
    destruct (step_trace_grows _ _ _ E) as [t1 H1].
    destruct (IH _ _ H) as [t2 H2]. exists (t1 ++ t2).
    rewrite H2, H1, <- app_assoc. reflexivity.
Qed.

Lemma filter_no_text (os : list out_event) k tail :
  List.filter (fun o => negb (is_audio o)) os
  = repeat (OStatus status_speaking) k ++ tail ->
  Forall (fun o => is_text o = false) tail ->
  Forall (fun o => is_text o = false) os.
Proof.
  intros H Htail.
  assert (Forall (fun o => is_text o = false)
            (List.filter (fun o => negb (is_audio o)) os)) as Hf.
  { rewrite H. apply Forall_app. split; [| exact Htail].
    apply List.Forall_forall. intros o Ho. apply repeat_spec in Ho. subst.
    reflexivity. }
  apply List.Forall_forall. intros o Ho.
  destruct (is_audio o) eqn:E; [destruct o; try discriminate; reflexivity |].
  rewrite List.Forall_forall in Hf. apply Hf. apply List.filter_In.
  rewrite E. auto.
Qed.

Lemma ending_no_text s :
  Forall (fun o => is_text o = false) (ending btoa_bytes s).
Proof.
  unfold ending. destruct (thrown_of s).
  - repeat constructor.
  - destruct (stream_ended s && all_answered btoa_bytes s);
      repeat constructor.
Qed.

(** The events of a turn: the preamble, then events none of which is a
    text event. *)
Lemma turn_events h audio reply t schedule a :
  transcribeAudio reply = Some t ->
  run (handleSession h (Binary audio)) (Transcribed reply :: schedule) = Some a ->
  exists rest,
    sent (trace a)
    = [OStatus status_processing; OText t; OStatus status_speaking] ++ rest
    /\ Forall (fun o => is_text o = false) rest
    /\ List.filter (fun o => negb (is_audio o)) rest
       = repeat (OStatus status_speaking) (length (submitted_of schedule))
           ++ ending btoa_bytes schedule.
Proof.
  intros Ht Hrun.
  cbn [Worker.run] in Hrun.
  rewrite (audio_turn_start btoa_bytes h audio reply t Ht) in Hrun.
  pose proof (control_invariant btoa_bytes _ t schedule a Hrun) as Hc.
  destruct (run_trace_grows _ _ _ Hrun) as [tl Htl].
  cbn [streaming_start trace] in Htl. exists (sent tl).
  assert (sent (trace a)
          = [OStatus status_processing; OText t; OStatus status_speaking]
              ++ sent tl) as Hs.
  { rewrite Htl, sent_app. reflexivity. }
  assert (List.filter (fun o => negb (is_audio o)) (sent tl)
          = repeat (OStatus status_speaking) (length (submitted_of schedule))
              ++ ending btoa_bytes schedule) as Hf.
  { unfold control_sent, expected_control in Hc. rewrite Hs in Hc.
    rewrite List.filter_app in Hc. cbn [List.filter is_audio negb] in Hc.
    apply (app_inv_head _ _ _ Hc). }
  split; [exact Hs |]. split; [| exact Hf].
  apply (filter_no_text _ _ _ Hf), ending_no_text.
Qed.

(** The transcript after a preamble followed by events none of which is a
    text event. *)
Lemma page_transcript p evs t rest :
  received evs
  = [OStatus status_processing; OText t; OStatus status_speaking] ++ rest ->
  Forall (fun o => is_text o = false) rest ->
  messages (page_run p evs)
  = messages p ++ [user_turn t]
      ++ assistant_line
           (omap audio_text (List.filter is_audio (received evs))).
Proof.
  intros Hrec Hnt. rewrite messages_run, Hrec.
  cbn [app fold_left show].
  rewrite (show_audio_texts (messages p) t rest Hnt).
  rewrite omap_audio_text_filter. reflexivity.
Qed.

(** X21.  The transcript of the page after the events of a turn, whenever
    the clips end: the transcription as a user line, then one assistant line
    with the utterances whose synthesis gave audio, joined by single spaces;
    no assistant line when no synthesis gave audio. *)
Theorem transcript_of_turn h audio reply t schedule a p evs :
  transcribeAudio reply = Some t ->
  run (handleSession h (Binary audio)) (Transcribed reply :: schedule) = Some a ->
  received evs = sent (trace a) ->
  messages (page_run p evs)
  = messages p ++ [user_turn t]
      ++ assistant_line
           (omap audio_text
              (deliveries (zip (submitted_of schedule)
                               (results_of btoa_bytes schedule)))).
Proof.
  intros Ht Hrun Hrec.
  destruct (turn_events h audio reply t schedule a Ht Hrun)
    as (rest & Hs & Hnt & _).
  destruct (synthesis_order_facts btoa_bytes h audio reply t schedule a Ht Hrun)
    as [_ Ha].
  rewrite (page_transcript p evs t rest) by (assumption || congruence).
  rewrite Hrec. fold (audio_sent (trace a)). rewrite Ha. reflexivity.
Qed.

Lemma omap_audio_text_zip (us : list jstring) : forall audios : list jstring,
  length us = length audios ->
  omap audio_text (zip_with OAudio us audios) = us.
Proof.
  induction us as [| u us IH]; intros [| b audios] Hlen; try discriminate;
    [reflexivity |].
  cbn [zip_with omap audio_text]. cbn. f_equal. apply IH.
  cbn in Hlen. lia.
Qed.

(** X22.  After a completed turn with at least one utterance in which every
    synthesis call gave audio, a page whose transcript was the history shows
    the history again: the transcript is the worker's [msgHistory]. *)
Theorem transcript_matches_history h audio reply t schedule a audios p evs :
  transcribeAudio reply = Some t ->
  run (handleSession h (Binary audio)) (Transcribed reply :: schedule) = Some a ->
  stream_ended schedule = true ->
  ctl a = Idle ->
  submitted_of schedule <> [] ->
  results_of btoa_bytes schedule = map Some audios ->
  Forall (fun b => truthy b = true) audios ->
  received evs = sent (trace a) ->
  messages p = h ->
  messages (page_run p evs) = msgHistory a.
Proof.
  intros Ht Hrun Hend Hidle Hne Hres Hall Hrec Hp.
  pose proof (audio_turn_inv btoa_bytes h audio reply t schedule a Ht Hrun)
    as Hinv.
  pose proof (inv_ctl _ _ _ _ Hinv) as Hc.
  pose proof (inv_history _ _ _ _ Hinv) as Hh.
  pose proof (inv_exclusive _ _ _ _ Hinv) as Hx.
  pose proof (inv_answered _ _ _ _ Hinv) as Hle.
  rewrite Hend, andb_true_r in Hx.
  unfold expected_ctl in Hc. unfold expected_history in Hh.
  rewrite Hx, Hend in Hc, Hh. rewrite Hidle in Hc.
  destruct (all_answered btoa_bytes schedule) eqn:Hans; [| discriminate].
  cbn [andb] in Hh. unfold all_answered in Hans.
  apply Nat.leb_le in Hans.
  assert (length (submitted_of schedule) = length audios) as Hlen.
  { rewrite Hres, length_map in Hle, Hans. lia. }
  destruct (turn_events h audio reply t schedule a Ht Hrun)
    as (rest & Hs & Hnt & _).
  destruct (synthesis_order_facts btoa_bytes h audio reply t schedule a Ht Hrun)
    as [_ Ha].
  rewrite (page_transcript p evs t rest) by (assumption || congruence).
  rewrite Hrec. fold (audio_sent (trace a)). rewrite Ha.
  rewrite Hres, deliveries_all_audio by exact Hall.
  rewrite omap_audio_text_zip by exact Hlen.
  rewrite Hh, Hp, <- app_assoc.
  destruct (submitted_of schedule); [contradiction | reflexivity].
Qed.

(** X23.  The status line and the speaking flag of the page after the
    events of a turn.  A completed turn leaves "Idle" and the flag cleared;
    a turn whose completion stream threw leaves the error text and the flag
    set; until then the page shows "Speaking" with the flag set. *)
Theorem status_line_of_turn h audio reply t schedule a p evs :
  transcribeAudio reply = Some t ->
  run (handleSession h (Binary audio)) (Transcribed reply :: schedule) = Some a ->
  received evs = sent (trace a) ->
  (status (page_run p evs), isSpeaking (page_run p evs))
  = match thrown_of schedule with
    | Some e => (charCodes "Error: " ++ error_text e, true)
    | None =>
        if stream_ended schedule && all_answered btoa_bytes schedule
        then (status_idle, false)
        else (status_speaking, true)
    end.
Proof.
  intros Ht Hrun Hrec.
  destruct (turn_events h audio reply t schedule a Ht Hrun)
    as (rest & Hs & _ & Hf).
  rewrite status_run, Hrec, Hs, List.filter_app, Hf.
  change (List.filter (fun o => negb (is_audio o))
            [OStatus status_processing; OText t; OStatus status_speaking])
    with [OStatus status_processing; OText t; OStatus status_speaking].
  rewrite !fold_left_app, line_preamble, line_speaking_repeat.
  unfold ending. destruct (thrown_of schedule) as [e |]; [reflexivity |].
  destruct (stream_ended schedule && all_answered btoa_bytes schedule);
    reflexivity.
Qed.

End Turns.

Lemma one_clip_at_a_time_witness :
  isPlaying (page_run Demo3.always_playable page_start Demo3.two_clips) = true
  /\ 2 = started_count
           (plays (page_run Demo3.always_playable page_start Demo3.two_clips)).
Proof.
  apply (one_clip_at_a_time Demo3.always_playable Demo3.two_clips 1).
  - vm_compute. intuition lia.
  - vm_compute. lia.
  - vm_compute. intuition lia.
Defined.

(** Without that hypothesis the property fails: reported over twice, the
    first clip lets the second and the third sound together. *)
Example second_report_starts_another_clip :
  sounding (plays (page_run Demo3.always_playable page_start
                     Demo3.reported_twice))
           (settled_ids Demo3.reported_twice)
  = [1; 2].
Proof. vm_compute. reflexivity. Qed.

Lemma transcript_of_turn_witness :
  messages (page_run Demo3.always_playable page_start Demo3.page_events_ok)
  = messages page_start ++ [user_turn (charCodes "hi")]
      ++ assistant_line
           (omap audio_text
              (deliveries (zip (submitted_of Demo.schedule_ok)
                               (results_of Demo.no_base64 Demo.schedule_ok)))).
Proof.
  apply (transcript_of_turn Demo.no_base64 Demo3.always_playable []
           [82; 73; 70; 70]%Z Demo.heard (charCodes "hi") Demo.schedule_ok
           Demo.final_ok page_start Demo3.page_events_ok).
  - reflexivity.
  - vm_compute. reflexivity.
  - vm_compute. reflexivity.
Defined.

Lemma transcript_matches_history_witness :
  messages (page_run Demo3.always_playable page_start Demo3.page_events_ok)
  = msgHistory Demo.final_ok.
Proof.
  apply (transcript_matches_history Demo.no_base64 Demo3.always_playable []
           [82; 73; 70; 70]%Z Demo.heard (charCodes "hi") Demo.schedule_ok
           Demo.final_ok
           [charCodes "QQ=="; charCodes "Qg=="; charCodes "Qw=="]
           page_start Demo3.page_events_ok).
  - reflexivity.
  - vm_compute. reflexivity.
  - reflexivity.
  - reflexivity.
  - vm_compute. discriminate.
  - vm_compute. reflexivity.
  - repeat constructor.
  - vm_compute. reflexivity.
  - reflexivity.
Defined.

Lemma status_line_of_turn_witness :
  (status (page_run Demo3.always_playable page_start Demo3.page_events_broken),
   isSpeaking
     (page_run Demo3.always_playable page_start Demo3.page_events_broken))
  = (charCodes "Error: stream reset", true).
Proof.
  apply (status_line_of_turn Demo.no_base64 Demo3.always_playable []
           [82; 73; 70; 70]%Z Demo.heard (charCodes "hi")
           (Demo.schedule_broken ++ [StreamThrows Demo.broken])
           Demo.final_broken page_start Demo3.page_events_broken).
  - reflexivity.
  - vm_compute. reflexivity.
  - vm_compute. reflexivity.
Defined.

End ClientFacts.
